(** * The asynchronous bridge of [virtualization.go]

    A shallow embedding of the Go side of the VM control object: the
    cgo handle table, the completion-handler adapter, the state
    notification channel, the disconnect pipeline, the window flags and
    the finalizer.  Every exported callback and every method is a
    function on an explicit [World]; blocking, panics and goroutines are
    written out. *)

From Stdlib Require Import ZArith PrimFloat.

From stdpp Require Import gmap strings list.

Open Scope N_scope.

(** ** Outcomes of a Go call

    A call either returns, panics (the process dies unless recovered),
    or waits on a channel operation that is not yet possible. *)

Inductive Result (A : Type) : Type :=
| Ok (a : A)
| Panic (msg : string)
| Blocked.

Arguments Ok {A} a.

Arguments Panic {A} msg.

Arguments Blocked {A}.

#[global] Instance Result_ret : MRet Result := fun A a => Ok a.

#[global] Instance Result_bind : MBind Result := fun A B k r =>
  match r with
  | Ok a => k a
  | Panic m => Panic m
  | Blocked => Blocked
  end.

(** Dereferencing a Go pointer: a pointer that does not point into the
    heap is the nil pointer. *)
Definition deref {A : Type} (o : option A) : Result A :=
  match o with
  | Some a => Ok a
  | None => Panic "invalid memory address or nil pointer dereference"
  end.

(** ** Data *)

(** Addresses of Go heap objects and of foreign objects. *)
Abbreviation loc := N (only parsing).

(** [cgo.Handle] is a [uintptr]; 0 is never a valid handle. *)
Abbreviation Handle := N (only parsing).

Definition uintptr_modulus : N := 2 ^ 64.

(** [type VirtualMachineState int]: the callback converts whatever code the
    framework passes, so the type is the integers with named constants. *)
Abbreviation VirtualMachineState := Z (only parsing).

Definition VirtualMachineStateStopped : VirtualMachineState := 0%Z.

Definition VirtualMachineStateRunning : VirtualMachineState := 1%Z.

Definition VirtualMachineStatePaused : VirtualMachineState := 2%Z.

Definition VirtualMachineStateError : VirtualMachineState := 3%Z.

Definition VirtualMachineStateStarting : VirtualMachineState := 4%Z.

Definition VirtualMachineStatePausing : VirtualMachineState := 5%Z.

Definition VirtualMachineStateResuming : VirtualMachineState := 6%Z.

Definition VirtualMachineStateStopping : VirtualMachineState := 7%Z.

Definition VirtualMachineStateSaving : VirtualMachineState := 8%Z.

Definition VirtualMachineStateRestoring : VirtualMachineState := 9%Z.

(** Go [error] values that the bridge produces or passes on. *)
Inductive error : Type :=
| ErrUnsupported (version : N)   (* from macOSAvailable *)
| ErrNS (nserror : N)            (* newNSError of a non-nil NSError pointer *)
| ErrNilNSError                  (* a nil *NSError held in an error interface *)
| ErrOption (msg : string)       (* returned by an option function *)
| Errorf (msg : string).         (* fmt.Errorf *)

#[global] Instance error_eq_dec : EqDecision error.
Proof. solve_decision. Defined.

(** Modelled from the spec: [newNSError] (its file is not under src/)
    turns the foreign error representation into a Go error; a nil NSError
    pointer is the nil error. *)
Definition newNSError (errPtr : option N) : option error :=
  match errPtr with
  | Some p => Some (ErrNS p)
  | None => None
  end.

(** A [*VirtioNetworkDeviceConfiguration]: [None] is the nil pointer. *)
Abbreviation NetConfigPtr := (option N) (only parsing).

Record VirtualMachineConfiguration : Type := {
  networkDeviceConfiguration : list NetConfigPtr
}.

Record disconnected : Type := {
  err : option error;
  index : Z
}.

Record DisconnectedError : Type := {
  Err : option error;
  Config : NetConfigPtr
}.

(** *** Channels *)

(** A plain Go channel of errors with a buffer: [make(chan error, n)]. *)
Record GoChan : Type := {
  cap : nat;
  cbuf : list (option error);
  cclosed : bool
}.

(** [infinity.Channel[T]] (go-infinity-channel): one unbounded FIFO
    between the [In()] end and the [Out()] end.  A send on [In()] never
    waits; [Close()] closes [In()]; [Out()] is closed once [In()] is
    closed and the buffer is drained. *)
Record Channel (T : Type) : Type := {
  buffer : list T;
  inClosed : bool
}.

Arguments buffer {T} c.

Arguments inClosed {T} c.

Arguments Build_Channel {T} buffer inClosed.

Definition NewChannel {T : Type} : Channel T :=
  {| buffer := []; inClosed := false |}.

(** [ch.In() <- x] *)
Definition chan_send {T : Type} (x : T) (c : Channel T) : Result (Channel T) :=
  if inClosed c then Panic "send on closed channel"
  else Ok {| buffer := buffer c ++ [x]; inClosed := false |}.

(** [x, ok := <-ch.Out()]: [Some x] is a value, [None] is the closed
    channel's [ok = false]. *)
Definition chan_recv {T : Type} (c : Channel T) : Result (option T * Channel T) :=
  match buffer c with
  | x :: rest => Ok (Some x, {| buffer := rest; inClosed := inClosed c |})
  | [] => if inClosed c then Ok (None, c) else Blocked
  end.

(** [ch.Close()] closes [In()]; on a channel that is closed already it
    returns and changes nothing. *)
Definition chan_close {T : Type} (c : Channel T) : Result (Channel T) :=
  Ok {| buffer := buffer c; inClosed := true |}.

(** *** The VM object *)

Record machineState : Type := {
  state : VirtualMachineState;
  stateNotify : loc            (* *infinity.Channel[VirtualMachineState] *)
}.

(** [sync.Once] is its done flag; the mutexes are not fields here: every
    function below is one atomic step, which is what the locks give. *)
Record VirtualMachine : Type := {
  vm_id : string;
  supported : bool;
  pointer : loc;               (* the VZVirtualMachine object *)
  dispatchQueue : loc;
  vm_machineState : loc;       (* *machineState *)
  disconnectedIn : loc;        (* *infinity.Channel[*disconnected] *)
  disconnectedOut : loc;       (* *infinity.Channel[*DisconnectedError] *)
  watchDisconnectedOnce : bool;
  finalizeOnce : bool;
  config : VirtualMachineConfiguration;
  hasGUIWindow : bool;
  windowClosedHandle : Handle
}.

(** What a handle of the process-wide table can hold in this package. *)
Inductive Value : Type :=
| VMachineState (p : loc)      (* *machineState *)
| VDisconnectedIn (p : loc)    (* *infinity.Channel[*disconnected] *)
| VFunc (ch : loc)             (* the func(error) of makeHandler, closed over ch *)
| VVirtualMachine (p : loc).   (* *VirtualMachine *)

#[global] Instance Value_eq_dec : EqDecision Value.
Proof. solve_decision. Defined.

(** Calls that leave the calling goroutine, in the order they are made:
    the foreign calls and the [go] statement. *)
Inductive ForeignCall : Type :=
| C_makeDispatchQueue (queue : loc)
| C_newVZVirtualMachineWithDispatchQueue
    (vm queue : loc) (stateHandle disconnectedHandle : Handle)
| C_startWithCompletionHandler (vm queue : loc) (h : Handle)
| C_startWithOptionsCompletionHandler (vm queue opts : loc) (h : Handle)
| C_pauseWithCompletionHandler (vm queue : loc) (h : Handle)
| C_resumeWithCompletionHandler (vm queue : loc) (h : Handle)
| C_stopWithCompletionHandler (vm queue : loc) (h : Handle)
| C_startVirtualMachineWindow
    (vm queue : loc) (width height : float) (title : string)
    (enableController : bool) (h : Handle) (confirmStopOnClose : bool)
| C_hasVirtualMachineWindow
| C_bringVirtualMachineWindowToFront
| C_showVirtualMachineWindow
| objc_ReleaseDispatch (queue : loc)
| objc_Release (vm : loc)
| go_watchDisconnected (v : loc).

(** ** The world *)

Record World : Type := {
  osVersion : N;                                   (* macOS major version *)
  handleIdx : N;                                   (* runtime/cgo counter *)
  handles : gmap N Value;                          (* runtime/cgo table *)
  nextLoc : N;                                     (* allocator *)
  vms : gmap N VirtualMachine;
  machineStates : gmap N machineState;
  stateChans : gmap N (Channel VirtualMachineState);
  inChans : gmap N (Channel disconnected);
  outChans : gmap N (Channel DisconnectedError);
  errChans : gmap N GoChan;
  goroutines : list loc;       (* a running watchDisconnected per entry *)
  windowLive : bool;           (* what hasVirtualMachineWindow reports *)
  calls : list ForeignCall     (* oldest first *)
}.

Definition set_handles (i : N) (h : gmap N Value) (w : World) : World :=
  {| osVersion := osVersion w; handleIdx := i; handles := h;
     nextLoc := nextLoc w; vms := vms w; machineStates := machineStates w;
     stateChans := stateChans w; inChans := inChans w; outChans := outChans w;
     errChans := errChans w; goroutines := goroutines w;
     windowLive := windowLive w; calls := calls w |}.

Definition set_nextLoc (n : N) (w : World) : World :=
  {| osVersion := osVersion w; handleIdx := handleIdx w; handles := handles w;
     nextLoc := n; vms := vms w; machineStates := machineStates w;
     stateChans := stateChans w; inChans := inChans w; outChans := outChans w;
     errChans := errChans w; goroutines := goroutines w;
     windowLive := windowLive w; calls := calls w |}.

Definition set_vms (m : gmap N VirtualMachine) (w : World) : World :=
  {| osVersion := osVersion w; handleIdx := handleIdx w; handles := handles w;
     nextLoc := nextLoc w; vms := m; machineStates := machineStates w;
     stateChans := stateChans w; inChans := inChans w; outChans := outChans w;
     errChans := errChans w; goroutines := goroutines w;
     windowLive := windowLive w; calls := calls w |}.

Definition set_machineStates (m : gmap N machineState) (w : World) : World :=
  {| osVersion := osVersion w; handleIdx := handleIdx w; handles := handles w;
     nextLoc := nextLoc w; vms := vms w; machineStates := m;
     stateChans := stateChans w; inChans := inChans w; outChans := outChans w;
     errChans := errChans w; goroutines := goroutines w;
     windowLive := windowLive w; calls := calls w |}.

Definition set_stateChans (m : gmap N (Channel VirtualMachineState)) (w : World) : World :=
  {| osVersion := osVersion w; handleIdx := handleIdx w; handles := handles w;
     nextLoc := nextLoc w; vms := vms w; machineStates := machineStates w;
     stateChans := m; inChans := inChans w; outChans := outChans w;
     errChans := errChans w; goroutines := goroutines w;
     windowLive := windowLive w; calls := calls w |}.

Definition set_inChans (m : gmap N (Channel disconnected)) (w : World) : World :=
  {| osVersion := osVersion w; handleIdx := handleIdx w; handles := handles w;
     nextLoc := nextLoc w; vms := vms w; machineStates := machineStates w;
     stateChans := stateChans w; inChans := m; outChans := outChans w;
     errChans := errChans w; goroutines := goroutines w;
     windowLive := windowLive w; calls := calls w |}.

Definition set_outChans (m : gmap N (Channel DisconnectedError)) (w : World) : World :=
  {| osVersion := osVersion w; handleIdx := handleIdx w; handles := handles w;
     nextLoc := nextLoc w; vms := vms w; machineStates := machineStates w;
     stateChans := stateChans w; inChans := inChans w; outChans := m;
     errChans := errChans w; goroutines := goroutines w;
     windowLive := windowLive w; calls := calls w |}.

Definition set_errChans (m : gmap N GoChan) (w : World) : World :=
  {| osVersion := osVersion w; handleIdx := handleIdx w; handles := handles w;
     nextLoc := nextLoc w; vms := vms w; machineStates := machineStates w;
     stateChans := stateChans w; inChans := inChans w; outChans := outChans w;
     errChans := m; goroutines := goroutines w;
     windowLive := windowLive w; calls := calls w |}.

Definition set_goroutines (g : list loc) (w : World) : World :=
  {| osVersion := osVersion w; handleIdx := handleIdx w; handles := handles w;
     nextLoc := nextLoc w; vms := vms w; machineStates := machineStates w;
     stateChans := stateChans w; inChans := inChans w; outChans := outChans w;
     errChans := errChans w; goroutines := g;
     windowLive := windowLive w; calls := calls w |}.

Definition set_windowLive (b : bool) (w : World) : World :=
  {| osVersion := osVersion w; handleIdx := handleIdx w; handles := handles w;
     nextLoc := nextLoc w; vms := vms w; machineStates := machineStates w;
     stateChans := stateChans w; inChans := inChans w; outChans := outChans w;
     errChans := errChans w; goroutines := goroutines w;
     windowLive := b; calls := calls w |}.

(** Modelled from the spec: the presentation surface behind
    [hasVirtualMachineWindow], whose foreign side is not under src/.  The
    window-creation call and the show call leave a window present; no
    other call of the bridge changes the surface. *)
Definition surface_after (c : ForeignCall) (live : bool) : bool :=
  match c with
  | C_startVirtualMachineWindow _ _ _ _ _ _ _ _ => true
  | C_showVirtualMachineWindow => true
  | _ => live
  end.

(** A foreign call is appended to the log. *)
Definition foreign (c : ForeignCall) (w : World) : World :=
  {| osVersion := osVersion w; handleIdx := handleIdx w; handles := handles w;
     nextLoc := nextLoc w; vms := vms w; machineStates := machineStates w;
     stateChans := stateChans w; inChans := inChans w; outChans := outChans w;
     errChans := errChans w; goroutines := goroutines w;
     windowLive := surface_after c (windowLive w); calls := calls w ++ [c] |}.

(** [C.hasVirtualMachineWindow()] *)
Definition hasVirtualMachineWindow (w : World) : bool * World :=
  (windowLive w, foreign C_hasVirtualMachineWindow w).

(** A fresh address. *)
Definition alloc (w : World) : loc * World :=
  (nextLoc w, set_nextLoc (nextLoc w + 1) w).

(** ** runtime/cgo handles *)

(** [cgo.NewHandle]: the counter is a [uintptr]; when it wraps to 0 the
    runtime panics. *)
Definition NewHandle (v : Value) (w : World) : Result (Handle * World) :=
  let h := (handleIdx w + 1) mod uintptr_modulus in
  if decide (h = 0) then Panic "runtime/cgo: ran out of handle space"
  else Ok (h, set_handles h (<[h := v]> (handles w)) w).

(** [Handle.Value]: panics on a handle that is not in the table. *)
Definition Handle_Value (h : Handle) (w : World) : Result Value :=
  match handles w !! h with
  | Some v => Ok v
  | None => Panic "runtime/cgo: misuse of an invalid Handle"
  end.

(** [Handle.Delete]: panics on a handle that is not in the table. *)
Definition Handle_Delete (h : Handle) (w : World) : Result World :=
  match handles w !! h with
  | Some _ => Ok (set_handles (handleIdx w) (delete h (handles w)) w)
  | None => Panic "runtime/cgo: misuse of an invalid Handle"
  end.

(** Modelled from the spec: [macOSAvailable] (its file is not under src/).
    A feature gated on version [n] reports an unsupported-platform error on
    an older system and nothing otherwise. *)
Definition macOSAvailable (n : N) (w : World) : option error :=
  if decide (osVersion w < n) then Some (ErrUnsupported n) else None.

(** ** Updating a VM in place *)

Definition with_hasGUIWindow (b : bool) (vm : VirtualMachine) : VirtualMachine :=
  {| vm_id := vm_id vm; supported := supported vm; pointer := pointer vm;
     dispatchQueue := dispatchQueue vm; vm_machineState := vm_machineState vm;
     disconnectedIn := disconnectedIn vm; disconnectedOut := disconnectedOut vm;
     watchDisconnectedOnce := watchDisconnectedOnce vm;
     finalizeOnce := finalizeOnce vm; config := config vm;
     hasGUIWindow := b; windowClosedHandle := windowClosedHandle vm |}.

Definition with_windowClosedHandle (h : Handle) (vm : VirtualMachine) : VirtualMachine :=
  {| vm_id := vm_id vm; supported := supported vm; pointer := pointer vm;
     dispatchQueue := dispatchQueue vm; vm_machineState := vm_machineState vm;
     disconnectedIn := disconnectedIn vm; disconnectedOut := disconnectedOut vm;
     watchDisconnectedOnce := watchDisconnectedOnce vm;
     finalizeOnce := finalizeOnce vm; config := config vm;
     hasGUIWindow := hasGUIWindow vm; windowClosedHandle := h |}.

Definition with_finalizeOnce (b : bool) (vm : VirtualMachine) : VirtualMachine :=
  {| vm_id := vm_id vm; supported := supported vm; pointer := pointer vm;
     dispatchQueue := dispatchQueue vm; vm_machineState := vm_machineState vm;
     disconnectedIn := disconnectedIn vm; disconnectedOut := disconnectedOut vm;
     watchDisconnectedOnce := watchDisconnectedOnce vm;
     finalizeOnce := b; config := config vm;
     hasGUIWindow := hasGUIWindow vm; windowClosedHandle := windowClosedHandle vm |}.

Definition with_watchDisconnectedOnce (b : bool) (vm : VirtualMachine) : VirtualMachine :=
  {| vm_id := vm_id vm; supported := supported vm; pointer := pointer vm;
     dispatchQueue := dispatchQueue vm; vm_machineState := vm_machineState vm;
     disconnectedIn := disconnectedIn vm; disconnectedOut := disconnectedOut vm;
     watchDisconnectedOnce := b;
     finalizeOnce := finalizeOnce vm; config := config vm;
     hasGUIWindow := hasGUIWindow vm; windowClosedHandle := windowClosedHandle vm |}.

Definition store_vm (v : loc) (vm : VirtualMachine) (w : World) : World :=
  set_vms (<[v := vm]> (vms w)) w.

(** ** NewVirtualMachine and finalize *)

(** The UUID string comes from the foreign side and is an input here; the
    queue and the VZVirtualMachine object are fresh addresses. *)
Definition NewVirtualMachine (cfg : VirtualMachineConfiguration) (uuid : string)
    (w : World) : Result ((option loc * option error) * World) :=
  match macOSAvailable 11 w with
  | Some e => Ok ((None, Some e), w)
  | None =>
    let '(queue, w) := alloc w in
    let w := foreign (C_makeDispatchQueue queue) w in
    let '(notify, w) := alloc w in
    let w := set_stateChans (<[notify := NewChannel]> (stateChans w)) w in
    let '(ms, w) := alloc w in
    let w := set_machineStates
               (<[ms := {| state := 0%Z; stateNotify := notify |}]> (machineStates w)) w in
    '(stateHandle, w) ← NewHandle (VMachineState ms) w;
    let '(din, w) := alloc w in
    let w := set_inChans (<[din := NewChannel]> (inChans w)) w in
    let '(dout, w) := alloc w in
    let w := set_outChans (<[dout := NewChannel]> (outChans w)) w in
    '(disconnectedHandle, w) ← NewHandle (VDisconnectedIn din) w;
    let '(ptr, w) := alloc w in
    let w := foreign (C_newVZVirtualMachineWithDispatchQueue
                        ptr queue stateHandle disconnectedHandle) w in
    let '(v, w) := alloc w in
    let vm := {| vm_id := uuid; supported := false; pointer := ptr;
                 dispatchQueue := queue; vm_machineState := ms;
                 disconnectedIn := din; disconnectedOut := dout;
                 watchDisconnectedOnce := false; finalizeOnce := false;
                 config := cfg; hasGUIWindow := false;
                 windowClosedHandle := 0 |} in
    Ok ((Some v, None), store_vm v vm w)
  end.

(** The body that [finalizeOnce.Do] guards. *)
Definition finalize_body (v : loc) (w : World) : Result World :=
  vm ← deref (vms w !! v);
  w ← (if decide (windowClosedHandle vm ≠ 0) then
         w ← Handle_Delete (windowClosedHandle vm) w;
         Ok (store_vm v (with_windowClosedHandle 0 vm) w)
       else Ok w);
  vm ← deref (vms w !! v);
  let w := foreign (objc_ReleaseDispatch (dispatchQueue vm)) w in
  Ok (foreign (objc_Release (pointer vm)) w).

Definition finalize (v : loc) (w : World) : Result World :=
  vm ← deref (vms w !! v);
  if finalizeOnce vm then Ok w
  else
    w ← finalize_body v w;
    vm ← deref (vms w !! v);
    Ok (store_vm v (with_finalizeOnce true vm) w).

(** ** State notifications *)

Definition changeStateOnObserver (newStateRaw : Z) (cgoHandleUintptr : Handle)
    (w : World) : Result World :=
  val ← Handle_Value cgoHandleUintptr w;
  match val with
  | VMachineState p =>
    ms ← deref (machineStates w !! p);
    let newState : VirtualMachineState := newStateRaw in
    let w := set_machineStates
               (<[p := {| state := newState; stateNotify := stateNotify ms |}]>
                  (machineStates w)) w in
    ch ← deref (stateChans w !! stateNotify ms);
    ch ← chan_send newState ch;
    Ok (set_stateChans (<[stateNotify ms := ch]> (stateChans w)) w)
  | _ => deref None
  end.

Definition State (v : loc) (w : World) : Result VirtualMachineState :=
  vm ← deref (vms w !! v);
  ms ← deref (machineStates w !! vm_machineState vm);
  Ok (state ms).

(** The result is the channel [stateNotify.Out()], named by its address. *)
Definition StateChangedNotify (v : loc) (w : World) : Result loc :=
  vm ← deref (vms w !! v);
  ms ← deref (machineStates w !! vm_machineState vm);
  Ok (stateNotify ms).

(** A consumer's [<-ch] on a channel obtained from [StateChangedNotify]. *)
Definition receive_state (ch : loc) (w : World)
    : Result (option VirtualMachineState * World) :=
  c ← deref (stateChans w !! ch);
  '(x, c) ← chan_recv c;
  Ok (x, set_stateChans (<[ch := c]> (stateChans w)) w).

(** ** The window flags *)

Definition notifyWindowClosed (cgoHandleUintptr : Handle) (w : World) : Result World :=
  if decide (cgoHandleUintptr = 0) then Ok w
  else
    val ← Handle_Value cgoHandleUintptr w;
    match val with
    | VVirtualMachine p =>
      vm ← deref (vms w !! p);
      Ok (store_vm p (with_hasGUIWindow false vm) w)
    | _ => Ok w
    end.

Record startGraphicApplicationOptions : Type := {
  title : string;
  enableController : bool;
  confirmStopOnClose : bool
}.

(** An option function mutates the options it is given and may fail. *)
Definition StartGraphicApplicationOption : Type :=
  startGraphicApplicationOptions -> startGraphicApplicationOptions * option error.

Definition WithWindowTitle (t : string) : StartGraphicApplicationOption :=
  fun sgao =>
    ({| title := t; enableController := enableController sgao;
        confirmStopOnClose := confirmStopOnClose sgao |}, None).

Definition WithController (enable : bool) : StartGraphicApplicationOption :=
  fun sgao =>
    ({| title := title sgao; enableController := enable;
        confirmStopOnClose := confirmStopOnClose sgao |}, None).

Definition WithConfirmStopOnClose (enable : bool) : StartGraphicApplicationOption :=
  fun sgao =>
    ({| title := title sgao; enableController := enableController sgao;
        confirmStopOnClose := enable |}, None).

(** [for _, opt := range opts { if err := opt(o); err != nil { return err } }] *)
Fixpoint apply_options {O : Type} (opts : list (O -> O * option error)) (o : O)
    : O * option error :=
  match opts with
  | [] => (o, None)
  | opt :: rest =>
    match opt o with
    | (o, Some e) => (o, Some e)
    | (o, None) => apply_options rest o
    end
  end.

Definition StartGraphicApplication (v : loc) (width height : float)
    (opts : list StartGraphicApplicationOption) (w : World)
    : Result (option error * World) :=
  match macOSAvailable 12 w with
  | Some e => Ok (Some e, w)
  | None =>
    let defaultOpts := {| title := ""; enableController := false;
                          confirmStopOnClose := true |} in
    match apply_options opts defaultOpts with
    | (_, Some e) => Ok (Some e, w)
    | (defaultOpts, None) =>
      let windowTitle := title defaultOpts in
      vm ← deref (vms w !! v);
      let vm := with_hasGUIWindow true vm in
      '(h, w) ← NewHandle (VVirtualMachine v) w;
      let vm := with_windowClosedHandle h vm in
      let w := store_vm v vm w in
      vm ← deref (vms w !! v);
      let w := foreign (C_startVirtualMachineWindow
                          (pointer vm) (dispatchQueue vm) width height windowTitle
                          (enableController defaultOpts) (windowClosedHandle vm)
                          (confirmStopOnClose defaultOpts)) w in
      Ok (None, w)
    end
  end.

Definition BringWindowToFront (v : loc) (w : World) : Result (option error * World) :=
  match macOSAvailable 12 w with
  | Some e => Ok (Some e, w)
  | None =>
    vm ← deref (vms w !! v);
    let hasGUI := hasGUIWindow vm in
    if negb hasGUI then
      Ok (Some (Errorf "GUI window does not exist; call StartGraphicApplication first"), w)
    else
      let '(live, w) := hasVirtualMachineWindow w in
      if negb live then Ok (Some (Errorf "GUI window is not available"), w)
      else Ok (None, foreign C_bringVirtualMachineWindowToFront w)
  end.

Definition ShowWindow (v : loc) (w : World) : Result (option error * World) :=
  match macOSAvailable 12 w with
  | Some e => Ok (Some e, w)
  | None =>
    vm ← deref (vms w !! v);
    if decide (windowClosedHandle vm = 0) then
      Ok (Some (Errorf "GUI was never initialized; call StartGraphicApplication first"), w)
    else
      let w := store_vm v (with_hasGUIWindow true vm) w in
      Ok (None, foreign C_showVirtualMachineWindow w)
  end.

(** [v.hasGUIWindow && bool(C.hasVirtualMachineWindow())]: the foreign
    call is made only when the flag is set. *)
Definition HasGUIWindow (v : loc) (w : World) : Result (bool * World) :=
  vm ← deref (vms w !! v);
  if hasGUIWindow vm then Ok (hasVirtualMachineWindow w)
  else Ok (false, w).

(** ** The completion bridge *)

(** Operations on the buffered channel of [makeHandler]. *)
Definition gochan_send (x : option error) (c : GoChan) : Result GoChan :=
  if cclosed c then Panic "send on closed channel"
  else if decide (length (cbuf c) < cap c)%nat then
    Ok {| cap := cap c; cbuf := cbuf c ++ [x]; cclosed := false |}
  else Blocked.

Definition gochan_close (c : GoChan) : Result GoChan :=
  if cclosed c then Panic "close of closed channel"
  else Ok {| cap := cap c; cbuf := cbuf c; cclosed := true |}.

(** [<-ch]: a closed, drained channel yields the zero value, the nil error. *)
Definition gochan_recv (c : GoChan) : Result (option error * GoChan) :=
  match cbuf c with
  | x :: rest => Ok (x, {| cap := cap c; cbuf := rest; cclosed := cclosed c |})
  | [] => if cclosed c then Ok (None, c) else Blocked
  end.

(** [makeHandler]: the closure is [VFunc ch]; calling it is [call_handler]. *)
Definition makeHandler (w : World) : (Value * loc) * World :=
  let '(ch, w) := alloc w in
  let w := set_errChans (<[ch := {| cap := 1; cbuf := []; cclosed := false |}]> (errChans w)) w in
  ((VFunc ch, ch), w).

(** [func(err error) { ch <- err; close(ch) }] *)
Definition call_handler (ch : loc) (e : option error) (w : World) : Result World :=
  c ← deref (errChans w !! ch);
  c ← gochan_send e c;
  c ← gochan_close c;
  Ok (set_errChans (<[ch := c]> (errChans w)) w).

Definition virtualMachineCompletionHandler (cgoHandleUintptr : Handle)
    (errPtr : option N) (w : World) : Result World :=
  val ← Handle_Value cgoHandleUintptr w;
  match val with
  | VFunc ch =>
    match newNSError errPtr with
    | Some e => call_handler ch (Some e) w
    | None => call_handler ch None w
    end
  | _ => Panic "interface conversion: interface {} is not func(error)"
  end.

Record virtualMachineStartOptions : Type := {
  macOSVirtualMachineStartOptionsPtr : option loc
}.

Definition VirtualMachineStartOption : Type :=
  virtualMachineStartOptions -> virtualMachineStartOptions * option error.

(** A control method runs in two parts: up to the foreign call, and from
    [<-errCh] on.  [Returned] is a return before any handler is made;
    [Awaiting h errCh] is the method waiting at [<-errCh] with the deferred
    [handle.Delete()] pending. *)
Inductive Called : Type :=
| Returned (e : option error)
| Awaiting (handle : Handle) (errCh : loc).

(** [return <-errCh], then the deferred [handle.Delete()]. *)
Definition await (handle : Handle) (errCh : loc) (w : World)
    : Result (option error * World) :=
  c ← deref (errChans w !! errCh);
  '(r, c) ← gochan_recv c;
  let w := set_errChans (<[errCh := c]> (errChans w)) w in
  w ← Handle_Delete handle w;
  Ok (r, w).

Definition Start_call (v : loc) (opts : list VirtualMachineStartOption) (w : World)
    : Result (Called * World) :=
  let o := {| macOSVirtualMachineStartOptionsPtr := None |} in
  match apply_options opts o with
  | (_, Some e) => Ok (Returned (Some e), w)
  | (o, None) =>
    let '((h, errCh), w) := makeHandler w in
    '(handle, w) ← NewHandle h w;
    vm ← deref (vms w !! v);
    match macOSVirtualMachineStartOptionsPtr o with
    | Some optsPtr =>
      Ok (Awaiting handle errCh,
          foreign (C_startWithOptionsCompletionHandler
                     (pointer vm) (dispatchQueue vm) optsPtr handle) w)
    | None =>
      Ok (Awaiting handle errCh,
          foreign (C_startWithCompletionHandler
                     (pointer vm) (dispatchQueue vm) handle) w)
    end
  end.

Definition Pause_call (v : loc) (w : World) : Result (Called * World) :=
  let '((h, errCh), w) := makeHandler w in
  '(handle, w) ← NewHandle h w;
  vm ← deref (vms w !! v);
  Ok (Awaiting handle errCh,
      foreign (C_pauseWithCompletionHandler (pointer vm) (dispatchQueue vm) handle) w).

Definition Resume_call (v : loc) (w : World) : Result (Called * World) :=
  let '((h, errCh), w) := makeHandler w in
  '(handle, w) ← NewHandle h w;
  vm ← deref (vms w !! v);
  Ok (Awaiting handle errCh,
      foreign (C_resumeWithCompletionHandler (pointer vm) (dispatchQueue vm) handle) w).

Definition Stop_call (v : loc) (w : World) : Result (Called * World) :=
  match macOSAvailable 12 w with
  | Some e => Ok (Returned (Some e), w)
  | None =>
    let '((h, errCh), w) := makeHandler w in
    '(handle, w) ← NewHandle h w;
    vm ← deref (vms w !! v);
    Ok (Awaiting handle errCh,
        foreign (C_stopWithCompletionHandler (pointer vm) (dispatchQueue vm) handle) w)
  end.

(** ** The disconnect pipeline *)

(** Modelled from the spec: [sliceutil.FindValueByIndex] (internal/sliceutil
    is not under src/).  The configuration at the index, or the empty (zero)
    value when the index does not resolve against the list. *)
Definition FindValueByIndex {E : Type} (zero : E) (s : list E) (idx : Z) : E :=
  if decide (idx < 0 ∨ Z.of_nat (length s) <= idx)%Z then zero
  else nth (Z.to_nat idx) s zero.

Definition NetworkDeviceAttachmentWasDisconnected (v : loc) (w : World)
    : Result ((option loc * option error) * World) :=
  match macOSAvailable 12 w with
  | Some e => Ok ((None, Some e), w)
  | None =>
    vm ← deref (vms w !! v);
    let w := if watchDisconnectedOnce vm then w
             else store_vm v (with_watchDisconnectedOnce true vm)
                    (set_goroutines (goroutines w ++ [v])
                       (foreign (go_watchDisconnected v) w)) in
    vm ← deref (vms w !! v);
    Ok ((Some (disconnectedOut vm), None), w)
  end.

(** Removing one finished goroutine. *)
Fixpoint remove_first (v : loc) (l : list loc) : list loc :=
  match l with
  | [] => []
  | x :: rest => if decide (x = v) then rest else x :: remove_first v rest
  end.

(** One turn of the [for ... range v.disconnectedIn.Out()] loop of a running
    [watchDisconnected]: either an event is enriched and published, or the
    range ends, the public channel is closed and the goroutine is gone. *)
Definition watchDisconnected_step (v : loc) (w : World) : Result World :=
  vm ← deref (vms w !! v);
  cin ← deref (inChans w !! disconnectedIn vm);
  '(x, cin) ← chan_recv cin;
  let w := set_inChans (<[disconnectedIn vm := cin]> (inChans w)) w in
  match x with
  | Some d =>
    let cfg := FindValueByIndex None (networkDeviceConfiguration (config vm)) (index d) in
    cout ← deref (outChans w !! disconnectedOut vm);
    cout ← chan_send {| Err := err d; Config := cfg |} cout;
    Ok (set_outChans (<[disconnectedOut vm := cout]> (outChans w)) w)
  | None =>
    cout ← deref (outChans w !! disconnectedOut vm);
    cout ← chan_close cout;
    let w := set_outChans (<[disconnectedOut vm := cout]> (outChans w)) w in
    Ok (set_goroutines (remove_first v (goroutines w)) w)
  end.

(** A [*NSError] stored in a variable or field of type [error] without a
    nil check: the interface value made from the nil pointer is not the nil
    error. *)
Definition NSError_as_error (e : option error) : option error :=
  match e with
  | Some e => Some e
  | None => Some ErrNilNSError
  end.

(** [err := newNSError(errPtr)] is a [*NSError]; it goes into the field
    [err error] of the event as it is. *)
Definition emitAttachmentWasDisconnected (idx : Z) (errPtr : option N)
    (cgoHandleUintptr : Handle) (w : World) : Result World :=
  val ← Handle_Value cgoHandleUintptr w;
  let e := NSError_as_error (newNSError errPtr) in
  match val with
  | VDisconnectedIn p =>
    ch ← deref (inChans w !! p);
    ch ← chan_send {| err := e; index := idx |} ch;
    Ok (set_inChans (<[p := ch]> (inChans w)) w)
  | _ => deref None
  end.

Definition closeAttachmentWasDisconnectedChannel (cgoHandleUintptr : Handle)
    (w : World) : Result World :=
  val ← Handle_Value cgoHandleUintptr w;
  match val with
  | VDisconnectedIn p =>
    ch ← deref (inChans w !! p);
    ch ← chan_close ch;
    Ok (set_inChans (<[p := ch]> (inChans w)) w)
  | _ => deref None
  end.

(** A consumer's receive on the channel returned by
    [NetworkDeviceAttachmentWasDisconnected]. *)
Definition receive_disconnected (ch : loc) (w : World)
    : Result (option DisconnectedError * World) :=
  c ← deref (outChans w !! ch);
  '(x, c) ← chan_recv c;
  Ok (x, set_outChans (<[ch := c]> (outChans w)) w).

(** ** A first world *)

Definition boot (os : N) : World :=
  {| osVersion := os; handleIdx := 0; handles := ∅; nextLoc := 1; vms := ∅;
     machineStates := ∅; stateChans := ∅; inChans := ∅; outChans := ∅;
     errChans := ∅; goroutines := []; windowLive := false; calls := [] |}.

(** * The vocabulary of the properties *)

(** ** The handle table *)

(** Handles in use were all handed out by the counter. *)
Record wf_handles (w : World) : Prop := {
  wf_idx : handleIdx w < uintptr_modulus;
  wf_tbl : ∀ h val, handles w !! h = Some val → h ≤ handleIdx w;
  wf_tok : ∀ v vm, vms w !! v = Some vm → windowClosedHandle vm ≤ handleIdx w
}.

(** ** Concrete runs

    A machine with two network devices on macOS 12, used where a
    statement is exercised on a concrete world. *)

Definition from_ok {A : Type} (r : Result A) (d : A) : A :=
  match r with
  | Ok a => a
  | _ => d
  end.

Definition cfg2 : VirtualMachineConfiguration :=
  {| networkDeviceConfiguration := [Some 100; Some 101] |}.

(** The VM record that [NewVirtualMachine] makes in the first world. *)
Definition vm_new : VirtualMachine :=
  {| vm_id := "vm"; supported := false; pointer := 6; dispatchQueue := 1;
     vm_machineState := 3; disconnectedIn := 4; disconnectedOut := 5;
     watchDisconnectedOnce := false; finalizeOnce := false; config := cfg2;
     hasGUIWindow := false; windowClosedHandle := 0 |}.

(** After [NewVirtualMachine]: the VM is at address 7, its state handle is
    1 and its disconnect handle is 2. *)
Definition w_new : World :=
  snd (from_ok (NewVirtualMachine cfg2 "vm" (boot 12)) ((None, None), boot 12)).

(** After one [StartGraphicApplication(800, 600)]: the window token is 3. *)
Definition w_gui : World :=
  snd (from_ok (StartGraphicApplication 7 800 600 [] w_new) (None, w_new)).

(** After a subscription and four disconnect events, at indices 1, 5, -1
    and 0. *)
Definition w_pipe : World :=
  from_ok (
    '(_, w) ← NetworkDeviceAttachmentWasDisconnected 7 w_new;
    w ← emitAttachmentWasDisconnected 1 (Some 40) 2 w;
    w ← emitAttachmentWasDisconnected 5 (Some 41) 2 w;
    w ← emitAttachmentWasDisconnected (-1) None 2 w;
    emitAttachmentWasDisconnected 0 (Some 42) 2 w) w_new.

(** ** The window-closed callback *)

(** Two VM records that differ at most in [hasGUIWindow]. *)
Definition same_but_hasGUIWindow (a b : VirtualMachine) : Prop :=
  vm_id a = vm_id b ∧ supported a = supported b ∧ pointer a = pointer b ∧
  dispatchQueue a = dispatchQueue b ∧ vm_machineState a = vm_machineState b ∧
  disconnectedIn a = disconnectedIn b ∧ disconnectedOut a = disconnectedOut b ∧
  watchDisconnectedOnce a = watchDisconnectedOnce b ∧
  finalizeOnce a = finalizeOnce b ∧ config a = config b ∧
  windowClosedHandle a = windowClosedHandle b.

(** ** Repeated calls *)

(** [n] calls of an operation, one after the other. *)
Fixpoint repeat_call (n : nat) (f : World -> Result World) (w : World) : Result World :=
  match n with
  | O => Ok w
  | S n => w ← f w; repeat_call n f w
  end.

(** ** The window *)

Definition defaultOpts : startGraphicApplicationOptions :=
  {| title := ""; enableController := false; confirmStopOnClose := true |}.

(** ** A newly created VM *)

(** What the foreign side and the Go side hold after [NewVirtualMachine]. *)
Record fresh_vm (w : World) (v : loc) (vm : VirtualMachine)
    (stateHandle disconnectedHandle : Handle) : Prop := {
  fresh_lookup : vms w !! v = Some vm;
  fresh_flag : hasGUIWindow vm = false;
  fresh_token : windowClosedHandle vm = 0;
  fresh_once : watchDisconnectedOnce vm = false;
  fresh_final : finalizeOnce vm = false;
  fresh_stateHandle : handles w !! stateHandle = Some (VMachineState (vm_machineState vm));
  fresh_discHandle : handles w !! disconnectedHandle = Some (VDisconnectedIn (disconnectedIn vm));
  fresh_state : ∃ notify, machineStates w !! vm_machineState vm
                          = Some {| state := VirtualMachineStateStopped; stateNotify := notify |} ∧
                          stateChans w !! notify = Some NewChannel;
  fresh_in : inChans w !! disconnectedIn vm = Some NewChannel;
  fresh_out : outChans w !! disconnectedOut vm = Some NewChannel
}.

(** The state of the window fields before any [StartGraphicApplication]. *)
Definition never_started (w : World) (v : loc) : Prop :=
  ∃ vm, vms w !! v = Some vm ∧ hasGUIWindow vm = false ∧ windowClosedHandle vm = 0.

(** ** The state channel

    The framework fires the state observer; consumers call
    [StateChangedNotify] and receive on what it returned.  A schedule is any
    interleaving of these; [sr_got] logs every delivery in the order it
    happened, with the consumer that took it. *)

Inductive StateAction : Type :=
| Subscribe (who : nat)        (* ch := v.StateChangedNotify() *)
| Fire (s : VirtualMachineState)   (* changeStateOnObserver(s, stateHandle) *)
| Receive (who : nat).         (* <-ch, if something can be received *)

Record StateRun : Type := {
  sr_world : World;
  sr_subs : gmap nat loc;
  sr_got : list (nat * VirtualMachineState)
}.

Definition state_step (v : loc) (stateHandle : Handle) (a : StateAction)
    (r : StateRun) : Result StateRun :=
  match a with
  | Subscribe who =>
    ch ← StateChangedNotify v (sr_world r);
    Ok {| sr_world := sr_world r; sr_subs := <[who := ch]> (sr_subs r);
          sr_got := sr_got r |}
  | Fire s =>
    w ← changeStateOnObserver s stateHandle (sr_world r);
    Ok {| sr_world := w; sr_subs := sr_subs r; sr_got := sr_got r |}
  | Receive who =>
    match sr_subs r !! who with
    | None => Ok r
    | Some ch =>
      match receive_state ch (sr_world r) with
      | Ok (Some s, w) =>
        Ok {| sr_world := w; sr_subs := sr_subs r; sr_got := sr_got r ++ [(who, s)] |}
      | Ok (None, w) =>
        Ok {| sr_world := w; sr_subs := sr_subs r; sr_got := sr_got r |}
      | Blocked => Ok r             (* the consumer keeps waiting *)
      | Panic m => Panic m
      end
    end
  end.

Fixpoint state_run (v : loc) (stateHandle : Handle) (acts : list StateAction)
    (r : StateRun) : Result StateRun :=
  match acts with
  | [] => Ok r
  | a :: rest => r ← state_step v stateHandle a r; state_run v stateHandle rest r
  end.

(** The states the callbacks of a schedule carried, in firing order. *)
Fixpoint fired (acts : list StateAction) : list VirtualMachineState :=
  match acts with
  | [] => []
  | Fire s :: rest => s :: fired rest
  | _ :: rest => fired rest
  end.

(** What one consumer received, in order. *)
Definition received_by (who : nat) (got : list (nat * VirtualMachineState))
    : list VirtualMachineState :=
  map snd (filter (λ d, fst d = who) got).


Definition start_run (w : World) : StateRun :=
  {| sr_world := w; sr_subs := ∅; sr_got := [] |}.

(** The invariant of a run: the VM's state is the last one fired, every
    subscription is the one channel of the VM, and the deliveries so far
    followed by the channel's buffer are the states fired so far. *)
Record state_inv (v : loc) (sh : Handle) (ms notify : loc)
    (past : list VirtualMachineState) (cur : VirtualMachineState)
    (r : StateRun) : Prop := {
  si_vm : ∃ vm, vms (sr_world r) !! v = Some vm ∧ vm_machineState vm = ms;
  si_handle : handles (sr_world r) !! sh = Some (VMachineState ms);
  si_state : machineStates (sr_world r) !! ms
             = Some {| state := cur; stateNotify := notify |};
  si_chan : ∃ pend, stateChans (sr_world r) !! notify
                    = Some {| buffer := pend; inClosed := false |} ∧
                    map snd (sr_got r) ++ pend = past;
  si_subs : ∀ who ch, sr_subs r !! who = Some ch → ch = notify
}.

(** ** The disconnect pipeline *)

(** What the worker publishes for an event, given the configured devices. *)
Definition enrich (cfgs : list NetConfigPtr) (d : disconnected) : DisconnectedError :=
  {| Err := err d; Config := FindValueByIndex None cfgs (index d) |}.

(** The error published for an event: same cause; the device's
    configuration when the index is that of a configured device, the nil
    configuration when it is out of range. *)
Definition published_for (cfgs : list NetConfigPtr) (d : disconnected)
    (e : DisconnectedError) : Prop :=
  Err e = err d ∧
  (∀ i : nat, index d = Z.of_nat i → (i < length cfgs)%nat →
              cfgs !! i = Some (Config e)) ∧
  ((index d < 0 ∨ Z.of_nat (length cfgs) <= index d)%Z → Config e = None).

(** *** The worker's life

    The foreign side emits events and, at teardown, closes stage 1;
    consumers subscribe and receive; the scheduler gives the worker turns.
    A schedule is any interleaving of these. *)

Inductive PipeAction : Type :=
| PSubscribe                          (* v.NetworkDeviceAttachmentWasDisconnected() *)
| PEmit (idx : Z) (errPtr : option N) (* emitAttachmentWasDisconnected *)
| PClose                              (* closeAttachmentWasDisconnectedChannel *)
| PWork                               (* a turn of a running watchDisconnected *)
| PReceive.                           (* <-ch on the subscribed channel *)

Record PipeRun : Type := {
  pr_world : World;
  pr_chan : option loc;
  pr_got : list DisconnectedError
}.

Definition pipe_step (v : loc) (disconnectedHandle : Handle) (a : PipeAction)
    (r : PipeRun) : Result PipeRun :=
  match a with
  | PSubscribe =>
    '((ch, _), w) ← NetworkDeviceAttachmentWasDisconnected v (pr_world r);
    Ok {| pr_world := w;
          pr_chan := match ch with Some c => Some c | None => pr_chan r end;
          pr_got := pr_got r |}
  | PEmit idx errPtr =>
    w ← emitAttachmentWasDisconnected idx errPtr disconnectedHandle (pr_world r);
    Ok {| pr_world := w; pr_chan := pr_chan r; pr_got := pr_got r |}
  | PClose =>
    w ← closeAttachmentWasDisconnectedChannel disconnectedHandle (pr_world r);
    Ok {| pr_world := w; pr_chan := pr_chan r; pr_got := pr_got r |}
  | PWork =>
    if decide (v ∈ goroutines (pr_world r)) then
      match watchDisconnected_step v (pr_world r) with
      | Ok w => Ok {| pr_world := w; pr_chan := pr_chan r; pr_got := pr_got r |}
      | Blocked => Ok r             (* the worker keeps waiting *)
      | Panic m => Panic m
      end
    else Ok r
  | PReceive =>
    match pr_chan r with
    | None => Ok r
    | Some ch =>
      match receive_disconnected ch (pr_world r) with
      | Ok (Some e, w) =>
        Ok {| pr_world := w; pr_chan := pr_chan r; pr_got := pr_got r ++ [e] |}
      | Ok (None, w) =>
        Ok {| pr_world := w; pr_chan := pr_chan r; pr_got := pr_got r |}
      | Blocked => Ok r
      | Panic m => Panic m
      end
    end
  end.

Fixpoint pipe_run (v : loc) (disconnectedHandle : Handle) (acts : list PipeAction)
    (r : PipeRun) : Result PipeRun :=
  match acts with
  | [] => Ok r
  | a :: rest => r ← pipe_step v disconnectedHandle a r;
                 pipe_run v disconnectedHandle rest r
  end.

Definition start_pipe (w : World) : PipeRun :=
  {| pr_world := w; pr_chan := None; pr_got := [] |}.

(** The foreign side keeps its contract: the channel-close callback comes
    once, and no event after it. *)
Fixpoint compliant (closed : bool) (acts : list PipeAction) : Prop :=
  match acts with
  | [] => True
  | PEmit _ _ :: rest => closed = false ∧ compliant closed rest
  | PClose :: rest => closed = false ∧ compliant true rest
  | _ :: rest => compliant closed rest
  end.

Definition is_PClose (a : PipeAction) : bool :=
  match a with PClose => true | _ => false end.

Definition is_PSubscribe (a : PipeAction) : bool :=
  match a with PSubscribe => true | _ => false end.

Definition emitted_by (a : PipeAction) : list disconnected :=
  match a with
  | PEmit idx errPtr => [{| err := NSError_as_error (newNSError errPtr); index := idx |}]
  | _ => []
  end.

(** Running workers of [v], and [go] statements made for [v] so far. *)
Definition running (v : loc) (w : World) : nat :=
  length (filter (λ u, u = v) (goroutines w)).

Definition is_spawn (v : loc) (c : ForeignCall) : bool :=
  match c with
  | go_watchDisconnected u => bool_decide (u = v)
  | _ => false
  end.

Definition spawned (v : loc) (w : World) : nat :=
  length (List.filter (is_spawn v) (calls w)).



(** Where the worker of a VM is in its life. *)
Inductive Phase : Type := Idle | Working | Done.

Definition phase_facts (ph : Phase) (once oclosed closed : bool)
    (pin : list disconnected) (run spawn : nat) : Prop :=
  match ph with
  | Idle => once = false ∧ run = 0%nat ∧ spawn = 0%nat ∧ oclosed = false
  | Working => once = true ∧ run = 1%nat ∧ spawn = 1%nat ∧ oclosed = false
  | Done => once = true ∧ run = 0%nat ∧ spawn = 1%nat ∧ oclosed = true ∧
            closed = true ∧ pin = []
  end.

(** The worker only moves forward. *)
Definition phase_le (a b : Phase) : Prop :=
  match a, b with
  | Idle, _ => True
  | Working, (Working | Done) => True
  | Done, Done => True
  | _, _ => False
  end.

(** The invariant of a run.  [sub] and [closed] say whether a subscription
    and the channel-close callback have happened, [emitted] lists the
    events emitted so far, [ph] is where the worker is. *)
Inductive pipe_inv (v : loc) (dh : Handle) (vm0 : VirtualMachine) (os : N)
    (sub closed : bool) (emitted : list disconnected) (ph : Phase)
    (r : PipeRun) : Prop :=
| PipeInv (once : bool) (pin : list disconnected)
    (pout : list DisconnectedError) (oclosed : bool)
    (pi_vm : vms (pr_world r) !! v = Some (with_watchDisconnectedOnce once vm0))
    (pi_handle : handles (pr_world r) !! dh = Some (VDisconnectedIn (disconnectedIn vm0)))
    (pi_in : inChans (pr_world r) !! disconnectedIn vm0
             = Some {| buffer := pin; inClosed := closed |})
    (pi_out : outChans (pr_world r) !! disconnectedOut vm0
              = Some {| buffer := pout; inClosed := oclosed |})
    (pi_log : pr_got r ++ pout
                ++ map (enrich (networkDeviceConfiguration (config vm0))) pin
              = map (enrich (networkDeviceConfiguration (config vm0))) emitted)
    (pi_chan : ∀ ch, pr_chan r = Some ch → ch = disconnectedOut vm0)
    (pi_os : osVersion (pr_world r) = os)
    (pi_sub : sub = true → 12 ≤ os → once = true)
    (pi_phase : phase_facts ph once oclosed closed pin
                  (running v (pr_world r)) (spawned v (pr_world r))).

Ltac pipe_facts :=
  simpl; try done; try (by rewrite lookup_insert_eq).

(** ** The completion bridge

    Any number of goroutines call the control methods; the framework fires
    completion handlers.  A method that got past its checks waits at
    [<-errCh]; the step relation interleaves calls, completions and
    returns.  A step exists only when the Go code does not panic and, for
    a return, when [<-errCh] can proceed. *)

Inductive ControlOp : Type :=
| OpStart (opts : list VirtualMachineStartOption)
| OpPause
| OpResume
| OpStop.

Definition control_call (op : ControlOp) (v : loc) (w : World) : Result (Called * World) :=
  match op with
  | OpStart opts => Start_call v opts w
  | OpPause => Pause_call v w
  | OpResume => Resume_call v w
  | OpStop => Stop_call v w
  end.

Inductive BridgeEvent : Type :=
| EvRejected (tid : nat) (e : option error)     (* returned before a handler was made *)
| EvRegistered (tid : nat) (h : Handle)         (* handler registered, foreign call made *)
| EvCompleted (h : Handle) (errPtr : option N)  (* virtualMachineCompletionHandler(h, errPtr) *)
| EvReturned (tid : nat) (r : option error).    (* the method returned r from <-errCh *)

Record Bridge : Type := {
  br_world : World;
  br_waiting : gmap nat (Handle * loc);   (* invocations waiting at <-errCh *)
  br_next : nat;                          (* the next invocation's number *)
  br_trace : list BridgeEvent             (* oldest first *)
}.

Inductive bridge_step : Bridge -> Bridge -> Prop :=
| step_rejected b op v e w' :
    control_call op v (br_world b) = Ok (Returned e, w') →
    bridge_step b
      {| br_world := w'; br_waiting := br_waiting b; br_next := S (br_next b);
         br_trace := br_trace b ++ [EvRejected (br_next b) e] |}
| step_registered b op v h ch w' :
    control_call op v (br_world b) = Ok (Awaiting h ch, w') →
    bridge_step b
      {| br_world := w';
         br_waiting := <[br_next b := (h, ch)]> (br_waiting b);
         br_next := S (br_next b);
         br_trace := br_trace b ++ [EvRegistered (br_next b) h] |}
| step_completed b h errPtr w' :
    virtualMachineCompletionHandler h errPtr (br_world b) = Ok w' →
    bridge_step b
      {| br_world := w'; br_waiting := br_waiting b; br_next := br_next b;
         br_trace := br_trace b ++ [EvCompleted h errPtr] |}
| step_returned b tid h ch r w' :
    br_waiting b !! tid = Some (h, ch) →
    await h ch (br_world b) = Ok (r, w') →
    bridge_step b
      {| br_world := w'; br_waiting := delete tid (br_waiting b);
         br_next := br_next b;
         br_trace := br_trace b ++ [EvReturned tid r] |}.

Definition start_bridge (w : World) : Bridge :=
  {| br_world := w; br_waiting := ∅; br_next := 0; br_trace := [] |}.

(** No control method is in flight: no completion handler is registered. *)
Definition no_handlers (w : World) : Prop :=
  ∀ h ch, handles w !! h ≠ Some (VFunc ch).


Definition open_chan : GoChan := {| cap := 1; cbuf := []; cclosed := false |}.

Definition done_chan (r : option error) : GoChan :=
  {| cap := 1; cbuf := [r]; cclosed := true |}.

(** A waiting invocation: its handle holds its handler, its registration
    is in the trace, and its channel is either untouched with no
    completion of its handle so far, or holds the error of a completion of
    its handle that came after the registration. *)
Definition waiting_ok (b : Bridge) (tid : nat) (h : Handle) (ch : loc) : Prop :=
  handles (br_world b) !! h = Some (VFunc ch) ∧
  ∃ j, br_trace b !! j = Some (EvRegistered tid h) ∧
       ((errChans (br_world b) !! ch = Some open_chan ∧
         ∀ k e, br_trace b !! k ≠ Some (EvCompleted h e)) ∨
        (∃ k e, errChans (br_world b) !! ch = Some (done_chan (newNSError e)) ∧
                (j < k)%nat ∧
                br_trace b !! k = Some (EvCompleted h e))).

(** A handle is registered at most once and completed at most once. *)
Definition registered_once (tr : list BridgeEvent) : Prop :=
  ∀ j j' tid tid' h,
    tr !! j = Some (EvRegistered tid h) → tr !! j' = Some (EvRegistered tid' h) → j = j'.

Definition completed_once (tr : list BridgeEvent) : Prop :=
  ∀ k k' h e e',
    tr !! k = Some (EvCompleted h e) → tr !! k' = Some (EvCompleted h e') → k = k'.

(** A return follows a completion of the handle its invocation registered
    and carries that completion's error. *)
Definition returns_follow (tr : list BridgeEvent) : Prop :=
  ∀ i tid r, tr !! i = Some (EvReturned tid r) →
    ∃ j k h errPtr,
      (j < k)%nat ∧ (k < i)%nat ∧
      tr !! j = Some (EvRegistered tid h) ∧
      tr !! k = Some (EvCompleted h errPtr) ∧
      r = newNSError errPtr.

Record bridge_inv (b : Bridge) : Prop := {
  bi_wait : ∀ tid h ch, br_waiting b !! tid = Some (h, ch) → waiting_ok b tid h ch;
  bi_inj : ∀ t1 t2 h1 h2 c1 c2,
      br_waiting b !! t1 = Some (h1, c1) → br_waiting b !! t2 = Some (h2, c2) →
      h1 = h2 ∨ c1 = c2 → t1 = t2;
  bi_idx : handleIdx (br_world b) < uintptr_modulus;
  bi_tbl : ∀ h val, handles (br_world b) !! h = Some val → h ≤ handleIdx (br_world b);
  bi_chan : ∀ tid h ch, br_waiting b !! tid = Some (h, ch) → ch < nextLoc (br_world b);
  bi_func : ∀ h ch, handles (br_world b) !! h = Some (VFunc ch) →
                    ∃ tid, br_waiting b !! tid = Some (h, ch);
  bi_tid : ∀ tid x, br_waiting b !! tid = Some x → (tid < br_next b)%nat;
  bi_reg : ∀ j tid h, br_trace b !! j = Some (EvRegistered tid h) →
                      h ≤ handleIdx (br_world b);
  bi_comp : ∀ k h e, br_trace b !! k = Some (EvCompleted h e) →
                     h ≤ handleIdx (br_world b);
  bi_reg1 : registered_once (br_trace b);
  bi_comp1 : completed_once (br_trace b);
  bi_ret : returns_follow (br_trace b)
}.

(** What a control method did when it reached [<-errCh]. *)
Record registered (w : World) (h : Handle) (ch : loc) (w' : World) : Prop := {
  rg_ch : ch = nextLoc w;
  rg_h : h = (handleIdx w + 1) mod uintptr_modulus;
  rg_nz : h ≠ 0;
  rg_handles : handles w' = <[h := VFunc ch]> (handles w);
  rg_idx : handleIdx w' = h;
  rg_chans : errChans w' = <[ch := open_chan]> (errChans w);
  rg_next : nextLoc w' = nextLoc w + 1
}.



(** A concrete interleaving: Start and Pause are both in flight, the
    framework completes Pause (with an error) before Start (without), and
    both return. *)
Definition br0 : Bridge := start_bridge w_new.

Definition br1 : Bridge :=
  {| br_world := snd (from_ok (control_call (OpStart []) 7 (br_world br0))
                        (Returned None, br_world br0));
     br_waiting := <[br_next br0 := (3, 8)]> (br_waiting br0);
     br_next := S (br_next br0);
     br_trace := br_trace br0 ++ [EvRegistered (br_next br0) 3] |}.

Definition br2 : Bridge :=
  {| br_world := snd (from_ok (control_call OpPause 7 (br_world br1))
                        (Returned None, br_world br1));
     br_waiting := <[br_next br1 := (4, 9)]> (br_waiting br1);
     br_next := S (br_next br1);
     br_trace := br_trace br1 ++ [EvRegistered (br_next br1) 4] |}.

Definition br3 : Bridge :=
  {| br_world := from_ok (virtualMachineCompletionHandler 4 (Some 9) (br_world br2))
                   (br_world br2);
     br_waiting := br_waiting br2; br_next := br_next br2;
     br_trace := br_trace br2 ++ [EvCompleted 4 (Some 9)] |}.

Definition br4 : Bridge :=
  {| br_world := from_ok (virtualMachineCompletionHandler 3 None (br_world br3))
                   (br_world br3);
     br_waiting := br_waiting br3; br_next := br_next br3;
     br_trace := br_trace br3 ++ [EvCompleted 3 None] |}.

Definition br5 : Bridge :=
  {| br_world := snd (from_ok (await 3 8 (br_world br4)) (None, br_world br4));
     br_waiting := delete 0%nat (br_waiting br4); br_next := br_next br4;
     br_trace := br_trace br4 ++ [EvReturned 0 None] |}.

Definition br6 : Bridge :=
  {| br_world := snd (from_ok (await 4 9 (br_world br5)) (None, br_world br5));
     br_waiting := delete 1%nat (br_waiting br5); br_next := br_next br5;
     br_trace := br_trace br5 ++ [EvReturned 1 (Some (ErrNS 9))] |}.

(** ** More on the completion bridge *)

(** What the bridge leaves of the handle table it started with: the
    handles of the first world stay, every other handle belongs to a
    waiting invocation, and a completed handle is either still waited on or
    gone. *)
Record bridge_frame (w : World) (b : Bridge) : Prop := {
  bf_keep : ∀ h val, handles w !! h = Some val → handles (br_world b) !! h = Some val;
  bf_only : ∀ h val, handles (br_world b) !! h = Some val →
            handles w !! h = Some val ∨ ∃ tid ch, br_waiting b !! tid = Some (h, ch);
  bf_idx : handleIdx w ≤ handleIdx (br_world b);
  bf_new : ∀ tid h ch, br_waiting b !! tid = Some (h, ch) → handleIdx w < h;
  bf_comp : ∀ k h e, br_trace b !! k = Some (EvCompleted h e) →
            (∃ tid ch, br_waiting b !! tid = Some (h, ch)) ∨
            handles (br_world b) !! h = None
}.

(** ** More on the VM object *)

(** The finalizer that [NewVirtualMachine] registers for the VM:
    [self.finalize(); stateHandle.Delete()]. *)
Definition vm_finalizer (v : loc) (stateHandle : Handle) (w : World) : Result World :=
  w ← finalize v w;
  Handle_Delete stateHandle w.

(** The three options of this package for [StartGraphicApplication], as
    data. *)
Inductive GraphicOption : Type :=
| OptWindowTitle (t : string)
| OptController (enable : bool)
| OptConfirmStopOnClose (enable : bool).

Definition graphic_option (o : GraphicOption) : StartGraphicApplicationOption :=
  match o with
  | OptWindowTitle t => WithWindowTitle t
  | OptController enable => WithController enable
  | OptConfirmStopOnClose enable => WithConfirmStopOnClose enable
  end.

(** The value a list of options leaves in each field: the last one given,
    or [d] when none was. *)
Fixpoint chosen_title (d : string) (os : list GraphicOption) : string :=
  match os with
  | [] => d
  | OptWindowTitle t :: rest => chosen_title t rest
  | _ :: rest => chosen_title d rest
  end.

Fixpoint chosen_controller (d : bool) (os : list GraphicOption) : bool :=
  match os with
  | [] => d
  | OptController b :: rest => chosen_controller b rest
  | _ :: rest => chosen_controller d rest
  end.

Fixpoint chosen_confirm (d : bool) (os : list GraphicOption) : bool :=
  match os with
  | [] => d
  | OptConfirmStopOnClose b :: rest => chosen_confirm b rest
  | _ :: rest => chosen_confirm d rest
  end.

(** Creating VMs and operating on their windows, from consumers and from
    the UI side. *)
Inductive WindowOp : Type :=
| WNew (cfg : VirtualMachineConfiguration) (uuid : string)
| WStart (v : loc) (width height : float) (opts : list StartGraphicApplicationOption)
| WShow (v : loc)
| WBring (v : loc)
| WHas (v : loc)
| WClosed (token : Handle).        (* notifyWindowClosed(token) *)

Definition window_op (op : WindowOp) (w : World) : Result World :=
  match op with
  | WNew cfg uuid => '(_, w) ← NewVirtualMachine cfg uuid w; Ok w
  | WStart v width height opts =>
    '(_, w) ← StartGraphicApplication v width height opts w; Ok w
  | WShow v => '(_, w) ← ShowWindow v w; Ok w
  | WBring v => '(_, w) ← BringWindowToFront v w; Ok w
  | WHas v => '(_, w) ← HasGUIWindow v w; Ok w
  | WClosed token => notifyWindowClosed token w
  end.

Fixpoint window_ops (ops : list WindowOp) (w : World) : Result World :=
  match ops with
  | [] => Ok w
  | op :: rest => w ← window_op op w; window_ops rest w
  end.

(** Every stored window token is registered for its own VM, and a set
    [hasGUIWindow] flag comes with a stored token. *)
Record window_inv (w : World) : Prop := {
  wi_wf : wf_handles w;
  wi_token : ∀ v vm, vms w !! v = Some vm → windowClosedHandle vm ≠ 0 →
             handles w !! windowClosedHandle vm = Some (VVirtualMachine v);
  wi_flag : ∀ v vm, vms w !! v = Some vm → hasGUIWindow vm = true →
            windowClosedHandle vm ≠ 0
}.

(** After a second [StartGraphicApplication(1024, 768)] on the same VM: the
    second window token is 4. *)
Definition w_gui2 : World :=
  snd (from_ok (StartGraphicApplication 7 1024 768 [] w_gui) (None, w_gui)).

(** After a second [NewVirtualMachine]: the second VM is at address 14, its
    state handle is 3 and its disconnect handle is 4. *)
Definition w_two : World :=
  snd (from_ok (NewVirtualMachine cfg2 "vm2" w_new) ((None, None), w_new)).

(** * The example application (example/gui-linux)

    The registry of VMs, the bookkeeping of running VMs and the command
    line of the example.  The file system, the clock and the environment are
    inputs: the result of [os.WriteFile] and of [os.RemoveAll] is an optional
    error code, [time.Now()] is an instant. *)

(** ** registry.go *)

Definition DefaultVMName : string := "default".

Record VMEntry : Type := {
  Name : string;
  BundleName : string;
  ISOPath : string;
  CreatedAt : Z
}.

Record Registry : Type := {
  VMs : list VMEntry;
  path : string
}.

(** The errors of the registry, by the format that makes them. *)
Inductive RegistryError : Type :=
| ErrAlreadyExists (name : string)   (* "VM %q already exists" *)
| ErrNotFound (name : string)        (* "VM %q not found" *)
| ErrWriteRegistry (e : N)           (* "failed to write registry: %w" *)
| ErrDeleteBundle (e : N).           (* "failed to delete bundle: %w" *)

(** [Save]: the entries of this program always marshal; what can fail is
    [os.WriteFile], whose result is [werr]. *)
Definition Registry_Save (werr : option N) (r : Registry) : option RegistryError :=
  match werr with
  | Some e => Some (ErrWriteRegistry e)
  | None => None
  end.

(** The loop of [Find]: the first entry with the name. *)
Fixpoint find_entry (name : string) (l : list VMEntry) : option VMEntry :=
  match l with
  | [] => None
  | e :: rest => if decide (Name e = name) then Some e else find_entry name rest
  end.

Definition Registry_Find (name : string) (r : Registry) : option VMEntry :=
  find_entry name (VMs r).

Definition Registry_Exists (name : string) (r : Registry) : bool :=
  match Registry_Find name r with
  | Some _ => true
  | None => false
  end.

Definition Registry_Add (name isoPath : string) (now : Z) (werr : option N)
    (r : Registry) : (option VMEntry * option RegistryError) * Registry :=
  if Registry_Exists name r then ((None, Some (ErrAlreadyExists name)), r)
  else
    let entry := {| Name := name; BundleName := name +:+ ".bundle";
                    ISOPath := isoPath; CreatedAt := now |} in
    let r := {| VMs := VMs r ++ [entry]; path := path r |} in
    match Registry_Save werr r with
    | Some err =>
      (* rollback: r.VMs = r.VMs[:len(r.VMs)-1] *)
      ((None, Some err), {| VMs := take (length (VMs r) - 1) (VMs r); path := path r |})
    | None => ((Some entry, None), r)
    end.

(** The loop of [Remove]: the index of the first entry with the name;
    [None] is the -1 of the source. *)
Fixpoint find_index (name : string) (l : list VMEntry) : option nat :=
  match l with
  | [] => None
  | e :: rest => if decide (Name e = name) then Some O
                 else S <$> find_index name rest
  end.

Definition Registry_Remove (name : string) (deleteBundle : bool)
    (rmerr werr : option N) (r : Registry) : option RegistryError * Registry :=
  match find_index name (VMs r) with
  | None => (Some (ErrNotFound name), r)
  | Some idx =>
    match (if deleteBundle then rmerr else None) with
    | Some e => (Some (ErrDeleteBundle e), r)
    | None =>
      let r := {| VMs := take idx (VMs r) ++ drop (S idx) (VMs r); path := path r |} in
      (Registry_Save werr r, r)
    end
  end.

Definition Registry_List (r : Registry) : list VMEntry := VMs r.

Definition Registry_GetOrCreateDefault (now : Z) (werr : option N) (r : Registry)
    : (option VMEntry * option RegistryError) * Registry :=
  match Registry_Find DefaultVMName r with
  | Some entry => ((Some entry, None), r)
  | None => Registry_Add DefaultVMName "" now werr r
  end.

(** [entry.ISOPath = isoPath] through the pointer that [Find] returned:
    the first entry with the name is changed in place. *)
Fixpoint set_ISOPath (name isoPath : string) (l : list VMEntry) : list VMEntry :=
  match l with
  | [] => []
  | e :: rest =>
    if decide (Name e = name) then
      {| Name := Name e; BundleName := BundleName e; ISOPath := isoPath;
         CreatedAt := CreatedAt e |} :: rest
    else e :: set_ISOPath name isoPath rest
  end.

Definition Registry_UpdateISO (name isoPath : string) (werr : option N)
    (r : Registry) : option RegistryError * Registry :=
  match Registry_Find name r with
  | None => (Some (ErrNotFound name), r)
  | Some _ =>
    let r := {| VMs := set_ISOPath name isoPath (VMs r); path := path r |} in
    (Registry_Save werr r, r)
  end.

(** ** main.go: the running VMs *)

(** [runningVMs.names], a [map[string]bool]; a missing key reads false. *)
Definition markRunning (name : string) (names : gmap string bool)
    : bool * gmap string bool :=
  if default false (names !! name) then (false, names)
  else (true, <[name := true]> names).

Definition markStopped (name : string) (names : gmap string bool) : gmap string bool :=
  delete name names.

Definition isRunning (name : string) (names : gmap string bool) : bool :=
  default false (names !! name).

(** What the steps of [createAndShowVM] outside this model report: the
    errors of [createVirtualMachineConfig], [vz.NewVirtualMachine],
    [vm.Start] and [vm.CreateWindow]. *)
Record StartOutcome : Type := {
  configErr : option error;
  newVMErr : option error;
  startErr : option error;
  windowErr : option error
}.

Inductive StartError : Type :=
| ErrAlreadyRunning (title : string)   (* "VM %q is already running" *)
| ErrCreateConfig (e : error)          (* "failed to create VM config: %w" *)
| ErrCreateVM (e : error)              (* "failed to create VM: %w" *)
| ErrStartVM (e : error)               (* "failed to start VM: %w" *)
| ErrCreateWindow (e : error).         (* "failed to create window: %w" *)

(** The shared state of the example: the marks of [runningVMs], and the
    titles of the monitor goroutines that are alive, one entry for each. *)
Record App : Type := {
  runningVMs : gmap string bool;
  monitors : list string
}.

Definition unmark (title : string) (a : App) : App :=
  {| runningVMs := markStopped title (runningVMs a); monitors := monitors a |}.

(** A monitor goroutine that returns. *)
Fixpoint monitor_exit (title : string) (l : list string) : list string :=
  match l with
  | [] => []
  | t :: rest => if decide (t = title) then rest else t :: monitor_exit title rest
  end.

(** One state received by a monitor goroutine of [title], a turn of its
    [for state := range vm.StateChangedNotify()] loop: on Stopped it calls
    [markStopped(title)] and returns, any other state is only logged.  With
    no monitor of that title alive nobody receives. *)
Definition monitor_receive (ev : string * VirtualMachineState) (a : App) : App :=
  if decide (ev.1 ∈ monitors a) then
    if decide (ev.2 = VirtualMachineStateStopped) then
      {| runningVMs := markStopped ev.1 (runningVMs a);
         monitors := monitor_exit ev.1 (monitors a) |}
    else a
  else a.

Definition monitors_receive (evs : list (string * VirtualMachineState)) (a : App) : App :=
  foldl (λ a ev, monitor_receive ev a) a evs.

(** [createAndShowVM] after its [markRunning]: the configuration, the VM,
    its start, and the [go] statement of the monitor. *)
Definition createAndShowVM_start (title : string) (o : StartOutcome) (a : App)
    : option StartError * App :=
  match configErr o with
  | Some e => (Some (ErrCreateConfig e), unmark title a)
  | None =>
    match newVMErr o with
    | Some e => (Some (ErrCreateVM e), unmark title a)
    | None =>
      match startErr o with
      | Some e => (Some (ErrStartVM e), unmark title a)
      | None => (None, {| runningVMs := runningVMs a; monitors := monitors a ++ [title] |})
      end
    end
  end.

(** [createAndShowVM] from [vm.CreateWindow] on. *)
Definition createAndShowVM_window (title : string) (o : StartOutcome) (a : App)
    : option StartError * App :=
  match windowErr o with
  | Some e => (Some (ErrCreateWindow e), unmark title a)
  | None => (None, a)
  end.

(** The whole call together with what the monitor goroutines do while it
    runs: [evs1] are the states they receive after the mark is set and
    before the monitor of this call is started, [evs2] those after that and
    before the call returns. *)
Definition createAndShowVM (title : string) (o : StartOutcome)
    (evs1 evs2 : list (string * VirtualMachineState)) (a : App)
    : option StartError * App :=
  let '(ok, names) := markRunning title (runningVMs a) in
  if negb ok then (Some (ErrAlreadyRunning title), a)
  else
    let a := {| runningVMs := names; monitors := monitors a |} in
    let a := monitors_receive evs1 a in
    match createAndShowVM_start title o a with
    | (Some e, a) => (Some e, a)
    | (None, a) => createAndShowVM_window title o (monitors_receive evs2 a)
    end.

(** An example state: nothing is marked and no monitor is alive. *)
Definition app0 : App := {| runningVMs := ∅; monitors := [] |}.

(** ** main.go: requests from the menu *)

(** [select { case ch <- data: default: }] on a channel of capacity [n]
    with [q] waiting: the send happens when there is room, and is dropped
    otherwise. *)
Definition try_send {A : Type} (n : nat) (data : A) (q : list A) : list A :=
  if decide (length q < n)%nat then q ++ [data] else q.

Definition startVMGoCallback (vmName isoPath : string) (startVMCh : list (string * string))
    : list (string * string) :=
  try_send 10 (vmName, isoPath) startVMCh.

Definition newVMFromURLGoCallback (isoPath vmName : string)
    (createVMCh : list (string * string)) : list (string * string) :=
  try_send 10 (isoPath, vmName) createVMCh.

(** ** main.go: the command line *)

Fixpoint getISOPath (env : string) (args : list string) : string :=
  match args with
  | [] => env
  | arg :: rest =>
    match rest with
    | next :: _ => if decide (arg = "-iso") then next else getISOPath env rest
    | [] => env
    end
  end.

Fixpoint getNameArg (args : list string) : string :=
  match args with
  | [] => ""
  | arg :: rest => if negb (String.prefix "-" arg) then arg else getNameArg rest
  end.

(** What [run] goes on to do after the registry is loaded: the function
    it calls, with its arguments, or the error it returns itself. *)
Inductive Dispatch : Type :=
| call_runGUIOnly
| call_runStartCommand (name isoPath : string)
| call_runCreateCommand (name isoPath : string)
| call_runListCommand
| call_runDeleteCommand (name : string) (force : bool)
| usage
| usage_error (e : error)    (* usage(), then the error *)
| run_error (e : error).

Definition run (osArgs : list string) (envISO envInstaller : string) : Dispatch :=
  match osArgs with
  | [] | [_] => call_runGUIOnly
  | prog :: cmd :: args =>
    if decide (cmd = "-install") then
      if decide (envInstaller = "") then
        run_error (Errorf "must specify INSTALLER_ISO_PATH env with -install")
      else call_runStartCommand DefaultVMName envInstaller
    else if decide (cmd = "start") then
      let name := getNameArg args in
      let name := if decide (name = "") then DefaultVMName else name in
      call_runStartCommand name (getISOPath envISO args)
    else if decide (cmd = "create") then
      let name := getNameArg args in
      let name := if decide (name = "") then DefaultVMName else name in
      let iso := getISOPath envISO args in
      if decide (iso = "") then
        run_error (Errorf "ISO required: use -iso <path> or set ISO env var")
      else call_runCreateCommand name iso
    else if decide (cmd = "list") then call_runListCommand
    else if decide (cmd = "delete") then
      let name := getNameArg args in
      if decide (name = "") then
        run_error (Errorf ("usage: " +:+ prog +:+ " delete <name> [--force]"))
      else
        call_runDeleteCommand name
          (existsb (λ arg, bool_decide (arg = "--force") || bool_decide (arg = "-f")) args)
    else if decide (cmd = "-h" ∨ cmd = "--help" ∨ cmd = "help") then usage
    else usage_error (Errorf ("unknown command: " +:+ cmd))
  end.

(** ** main.go: deleting a VM *)

Inductive DeleteError : Type :=
| ErrDeleteNotFound (name : string)     (* "VM %q not found" *)
| ErrRunningUseForce (name : string)    (* "VM %q is running. Use --force to stop and delete" *)
| ErrRunningElsewhere (name : string)   (* "VM %q is running in another process. ..." *)
| ErrDeleteFailed (e : RegistryError).  (* "failed to delete VM: %w" *)

(** [fmt.Scanln(&confirm)], whose error the source drops.  [typed] is the
    typed line as its space-separated words: the first word is stored, what
    follows it on the line is not, and [confirm] stays empty when the line
    has no word. *)
Definition Scanln (typed : list string) : string := hd "" typed.

Definition runDeleteCommand (registry : Registry) (name : string) (force : bool)
    (names : gmap string bool) (typed : list string) (rmerr werr : option N)
    : option DeleteError * Registry :=
  if negb (Registry_Exists name registry) then (Some (ErrDeleteNotFound name), registry)
  else if isRunning name names then
    if negb force then (Some (ErrRunningUseForce name), registry)
    else (Some (ErrRunningElsewhere name), registry)
  else
  let confirm := Scanln typed in
  if decide (confirm ≠ "yes") then (None, registry)
  else
    match Registry_Remove name true rmerr werr registry with
    | (Some err, registry) => (Some (ErrDeleteFailed err), registry)
    | (None, registry) => (None, registry)
    end.

(** ** main.go: the size of the machine *)

(** [uint] and [uint64] are 64 bits wide. *)
Definition uint (z : Z) : N := Z.to_N (z mod 2 ^ 64).

(** [numCPU] is [runtime.NumCPU()]; the allowed range comes from the
    framework. *)
Definition computeCPUCount (numCPU : Z) (maxAllowed minAllowed : N) : N :=
  let virtualCPUCount := uint (numCPU - 1) in
  let virtualCPUCount := if decide (virtualCPUCount ≤ 1) then 1 else virtualCPUCount in
  let virtualCPUCount :=
    if decide (maxAllowed < virtualCPUCount) then maxAllowed else virtualCPUCount in
  let virtualCPUCount :=
    if decide (virtualCPUCount < minAllowed) then minAllowed else virtualCPUCount in
  virtualCPUCount.

Definition computeMemorySize (maxAllowed minAllowed : N) : N :=
  let memorySize := 4 * 1024 * 1024 * 1024 in
  let memorySize := if decide (maxAllowed < memorySize) then maxAllowed else memorySize in
  let memorySize := if decide (memorySize < minAllowed) then minAllowed else memorySize in
  memorySize.

(** ** The vocabulary of the example's properties *)

(** Names are unique, and every bundle is named after its VM. *)
Record registry_inv (r : Registry) : Prop := {
  ri_names : NoDup (Name <$> VMs r);
  ri_bundle : ∀ e, e ∈ VMs r → BundleName e = Name e +:+ ".bundle"
}.

(** The methods that change a registry, with what the file system and the
    clock answer. *)
Inductive RegistryOp : Type :=
| RAdd (name isoPath : string) (now : Z) (werr : option N)
| RRemove (name : string) (deleteBundle : bool) (rmerr werr : option N)
| RGetOrCreateDefault (now : Z) (werr : option N)
| RUpdateISO (name isoPath : string) (werr : option N).

Definition registry_op (op : RegistryOp) (r : Registry) : Registry :=
  match op with
  | RAdd name isoPath now werr => snd (Registry_Add name isoPath now werr r)
  | RRemove name deleteBundle rmerr werr =>
    snd (Registry_Remove name deleteBundle rmerr werr r)
  | RGetOrCreateDefault now werr => snd (Registry_GetOrCreateDefault now werr r)
  | RUpdateISO name isoPath werr => snd (Registry_UpdateISO name isoPath werr r)
  end.

(** The registry that [LoadRegistry] makes when there is no file yet. *)
Definition empty_registry (p : string) : Registry := {| VMs := []; path := p |}.

(** A registry with two VMs. *)
Definition reg2 : Registry :=
  {| VMs := [ {| Name := "default"; BundleName := "default.bundle"; ISOPath := "";
                 CreatedAt := 10 |};
              {| Name := "dev"; BundleName := "dev.bundle"; ISOPath := "dev.iso";
                 CreatedAt := 20 |} ];
     path := "registry.json" |}.

(** * Properties *)

(** ** The handle table *)

Lemma NewHandle_inv val w h w' :
  NewHandle val w = Ok (h, w') →
  h = (handleIdx w + 1) mod uintptr_modulus ∧ h ≠ 0 ∧
  w' = set_handles h (<[h := val]> (handles w)) w.
Proof.
  unfold NewHandle. case_decide as Hz; [discriminate|].
  intros [= <- <-]. auto.
Qed.

Lemma NewHandle_next val w h w' :
  handleIdx w < uintptr_modulus →
  NewHandle val w = Ok (h, w') →
  h = handleIdx w + 1 ∧ h < uintptr_modulus ∧
  w' = set_handles h (<[h := val]> (handles w)) w.
Proof.
  intros Hlt Hnew. apply NewHandle_inv in Hnew as (Hh & Hnz & ->).
  assert (handleIdx w + 1 < uintptr_modulus) as Hroom.
  { destruct (decide (handleIdx w + 1 = uintptr_modulus)) as [Heq|Hne]; [|lia].
    exfalso. apply Hnz. rewrite Hh, Heq. apply N.Div0.mod_same. }
  rewrite N.mod_small in Hh by exact Hroom. subst h. auto.
Qed.

Lemma NewHandle_fresh val w h w' :
  wf_handles w → NewHandle val w = Ok (h, w') → handles w !! h = None.
Proof.
  intros Hwf Hnew. apply NewHandle_next in Hnew as (-> & _ & _); [|apply Hwf].
  destruct (handles w !! (handleIdx w + 1)) as [x|] eqn:Hx; [|done].
  apply (wf_tbl _ Hwf) in Hx. lia.
Qed.

Lemma NewHandle_wf val w h w' :
  wf_handles w → NewHandle val w = Ok (h, w') → wf_handles w'.
Proof.
  intros Hwf Hnew. apply NewHandle_next in Hnew as (-> & Hlt & ->); [|apply Hwf].
  split; simpl.
  - exact Hlt.
  - intros h val'. rewrite lookup_insert. case_decide; [lia|].
    intros Hh. apply (wf_tbl _ Hwf) in Hh. lia.
  - intros v vm Hv. apply (wf_tok _ Hwf) in Hv. lia.
Qed.

Lemma boot_wf os : wf_handles (boot os).
Proof.
  split; simpl.
  - unfold uintptr_modulus. lia.
  - intros h val. rewrite lookup_empty. discriminate.
  - intros v vm. rewrite lookup_empty. discriminate.
Qed.

Lemma NewVirtualMachine_handles cfg uuid w v w' :
  wf_handles w →
  NewVirtualMachine cfg uuid w = Ok ((Some v, None), w') →
  wf_handles w' ∧ (no_handlers w → no_handlers w').
Proof.
  intros Hwf. unfold NewVirtualMachine.
  destruct (macOSAvailable 11 w); [discriminate|]. simpl.
  match goal with |- context [NewHandle ?val ?w0] =>
    destruct (NewHandle val w0) as [[sh w1]| |] eqn:Hsh; [|discriminate..]
  end. simpl.
  match goal with |- context [NewHandle ?val ?w0] =>
    destruct (NewHandle val w0) as [[dh w2]| |] eqn:Hdh; [|discriminate..]
  end. simpl.
  intros [= <- <-].
  apply NewHandle_next in Hsh as (Hsh & Hlt1 & ->); [|apply Hwf]. simpl in Hsh.
  apply NewHandle_next in Hdh as (Hdh & Hlt2 & ->); [|done]. simpl in Hdh.
  split; [split|]; simpl.
  - done.
  - intros h val. rewrite !lookup_insert. repeat case_decide; try lia.
    intros Hh. apply (wf_tbl _ Hwf) in Hh. lia.
  - intros u vm. rewrite lookup_insert. case_decide.
    + intros [= <-]. simpl. lia.
    + intros Hu. apply (wf_tok _ Hwf) in Hu. lia.
  - intros Hnone h ch. simpl. rewrite !lookup_insert.
    repeat case_decide; try done.
Qed.

(** ** The concrete worlds *)

Lemma w_new_eq : NewVirtualMachine cfg2 "vm" (boot 12) = Ok ((Some 7, None), w_new).
Proof. vm_compute. reflexivity. Qed.

Lemma w_gui_eq : StartGraphicApplication 7 800 600 [] w_new = Ok (None, w_gui).
Proof. vm_compute. reflexivity. Qed.

Lemma w_new_wf : wf_handles w_new ∧ no_handlers w_new.
Proof.
  destruct (NewVirtualMachine_handles cfg2 "vm" (boot 12) 7 w_new (boot_wf 12) w_new_eq)
    as [Hwf Hnone].
  split; [exact Hwf|]. apply Hnone. intros h ch. simpl. by rewrite lookup_empty.
Qed.

(** ** The window-closed callback *)

(** C10: [notifyWindowClosed] with token 0, or with a token registered for
    something that is not a VirtualMachine, returns and leaves the whole
    world (the handle table included) as it was; with the token of a VM it
    sets that VM's [hasGUIWindow] to false, changes no other field of it,
    no other VM, and deletes no handle. *)
Theorem notifyWindowClosed_effect (h : Handle) (w : World) :
  (h = 0 ∨ (∃ val, handles w !! h = Some val ∧ ∀ p, val ≠ VVirtualMachine p) →
   notifyWindowClosed h w = Ok w) ∧
  (∀ p vm, h ≠ 0 → handles w !! h = Some (VVirtualMachine p) →
   vms w !! p = Some vm →
   ∃ vm', notifyWindowClosed h w = Ok (set_vms (<[p := vm']> (vms w)) w) ∧
          hasGUIWindow vm' = false ∧ same_but_hasGUIWindow vm vm').
Proof.
  split.
  - intros [-> | (val & Hval & Hnot)]; [reflexivity|].
    unfold notifyWindowClosed. case_decide; [reflexivity|].
    unfold Handle_Value. rewrite Hval. simpl.
    destruct val; try reflexivity. by destruct (Hnot p).
  - intros p vm Hnz Hh Hvm. exists (with_hasGUIWindow false vm).
    unfold notifyWindowClosed. case_decide; [done|].
    unfold Handle_Value. rewrite Hh. simpl. rewrite Hvm. simpl.
    repeat split; reflexivity.
Qed.

Lemma notifyWindowClosed_effect_witness :
  notifyWindowClosed 0 w_gui = Ok w_gui ∧
  notifyWindowClosed 1 w_gui = Ok w_gui ∧
  ∃ vm', notifyWindowClosed 3 w_gui = Ok (set_vms (<[7 := vm']> (vms w_gui)) w_gui) ∧
         hasGUIWindow vm' = false.
Proof.
  split; [|split].
  - apply (notifyWindowClosed_effect 0 w_gui). left. reflexivity.
  - apply (notifyWindowClosed_effect 1 w_gui). right.
    exists (VMachineState 3). split; [vm_compute; reflexivity | discriminate].
  - destruct (proj2 (notifyWindowClosed_effect 3 w_gui) 7
                (with_windowClosedHandle 3
                   (with_hasGUIWindow true
                      vm_new)))
      as (vm' & Hrun & Hflag & _).
    + discriminate.
    + vm_compute. reflexivity.
    + vm_compute. reflexivity.
    + exists vm'. split; assumption.
Defined.

(** ** StartGraphicApplication and its dimensions *)

(** C2: [StartGraphicApplication] with a zero or negative width or height
    is not rejected: on macOS 12 the call returns the nil error, sets the
    flag, registers a token and makes the window-creation call with the
    dimensions as given. *)
Theorem StartGraphicApplication_zero_dimension :
  (∃ w', StartGraphicApplication 7 0 600 [] w_new = Ok (None, w') ∧
         calls w' = calls w_new ++
                    [C_startVirtualMachineWindow 6 1 0 600 "" false 3 true] ∧
         hasGUIWindow <$> vms w' !! 7 = Some true) ∧
  (∃ w', StartGraphicApplication 7 800 0 [] w_new = Ok (None, w') ∧
         calls w' = calls w_new ++
                    [C_startVirtualMachineWindow 6 1 800 0 "" false 3 true] ∧
         hasGUIWindow <$> vms w' !! 7 = Some true) ∧
  (∃ w', StartGraphicApplication 7 (-800) 600 [] w_new = Ok (None, w') ∧
         calls w' = calls w_new ++
                    [C_startVirtualMachineWindow 6 1 (-800) 600 "" false 3 true]).
Proof.
  split; [|split]; eexists; (split; [vm_compute; reflexivity|]);
    repeat split; vm_compute; reflexivity.
Qed.

(** ** Teardown *)

Lemma finalize_done (w : World) (v : loc) (vm : VirtualMachine) :
  vms w !! v = Some vm → finalizeOnce vm = true → finalize v w = Ok w.
Proof. intros H1 H2. unfold finalize. rewrite H1. simpl. by rewrite H2. Qed.

Lemma repeat_call_fixed (f : World -> Result World) (w : World) :
  f w = Ok w → ∀ n, repeat_call n f w = Ok w.
Proof.
  intros H n. induction n as [|n IH]; [reflexivity|].
  simpl. rewrite H. simpl. exact IH.
Qed.

Lemma finalize_first (w : World) (v : loc) (vm : VirtualMachine) :
  vms w !! v = Some vm →
  finalizeOnce vm = false →
  windowClosedHandle vm = 0 ∨ is_Some (handles w !! windowClosedHandle vm) →
  ∃ w1, finalize v w = Ok w1 ∧
        calls w1 = calls w ++ [objc_ReleaseDispatch (dispatchQueue vm);
                               objc_Release (pointer vm)] ∧
        handles w1 = (if decide (windowClosedHandle vm = 0) then handles w
                      else delete (windowClosedHandle vm) (handles w)) ∧
        vms w1 !! v = Some (with_finalizeOnce true (with_windowClosedHandle 0 vm)).
Proof.
  intros Hvm Hfin Htok.
  unfold finalize, finalize_body. rewrite Hvm. simpl. rewrite Hfin.
  destruct (decide (windowClosedHandle vm = 0)) as [Hz|Hnz].
  - rewrite decide_False by (intros Hc; by apply Hc).
    simpl. rewrite Hvm. simpl. rewrite Hvm. simpl.
    eexists. split; [reflexivity|]. simpl.
    rewrite <- app_assoc. simpl.
    split; [reflexivity|]. split; [reflexivity|].
    rewrite lookup_insert_eq. destruct vm; simpl in *. by rewrite Hz.
  - destruct Htok as [Hz | [val Hval]]; [done|].
    rewrite decide_True by done.
    unfold Handle_Delete. rewrite Hval. simpl.
    rewrite lookup_insert_eq. simpl. rewrite lookup_insert_eq. simpl.
    eexists. split; [reflexivity|]. simpl.
    rewrite <- app_assoc. simpl.
    split; [reflexivity|]. split; [reflexivity|].
    by rewrite lookup_insert_eq.
Qed.

(** C6: on a VM that has not been finalized, the first [finalize] runs the
    guarded release logic (the window token is deleted and cleared, the
    dispatch queue and the VM object are released, in that order) and every
    further [finalize] changes nothing: the release logic runs exactly once
    however often teardown is invoked. *)
Theorem finalize_runs_once (w : World) (v : loc) (vm : VirtualMachine) :
  vms w !! v = Some vm →
  finalizeOnce vm = false →
  windowClosedHandle vm = 0 ∨ is_Some (handles w !! windowClosedHandle vm) →
  ∃ w1, finalize v w = Ok w1 ∧
        calls w1 = calls w ++ [objc_ReleaseDispatch (dispatchQueue vm);
                               objc_Release (pointer vm)] ∧
        handles w1 = (if decide (windowClosedHandle vm = 0) then handles w
                      else delete (windowClosedHandle vm) (handles w)) ∧
        windowClosedHandle <$> vms w1 !! v = Some 0 ∧
        finalize v w1 = Ok w1 ∧
        ∀ n, repeat_call n (finalize v) w1 = Ok w1.
Proof.
  intros Hvm Hfin Htok.
  destruct (finalize_first w v vm Hvm Hfin Htok) as (w1 & Hrun & Hc & Hh & Hv1).
  assert (finalize v w1 = Ok w1) as Hfix.
  { eapply finalize_done; [exact Hv1 | reflexivity]. }
  exists w1. repeat split; try assumption.
  - rewrite Hv1. reflexivity.
  - by apply repeat_call_fixed.
Qed.

Lemma finalize_runs_once_witness :
  ∃ w1, finalize 7 w_gui = Ok w1 ∧
        calls w1 = calls w_gui ++ [objc_ReleaseDispatch 1; objc_Release 6] ∧
        handles w1 !! 3 = None ∧
        repeat_call 2 (finalize 7) w_gui = Ok w1.
Proof.
  destruct (finalize_runs_once w_gui 7
              (with_windowClosedHandle 3
                 (with_hasGUIWindow true
                    vm_new)))
    as (w1 & Hrun & Hcalls & Hh & _ & Hagain & _).
  - vm_compute. reflexivity.
  - reflexivity.
  - right. exists (VVirtualMachine 7). vm_compute. reflexivity.
  - exists w1. split; [exact Hrun|]. split; [exact Hcalls|]. split.
    + rewrite Hh. rewrite decide_False by discriminate. apply lookup_delete_eq.
    + unfold repeat_call. rewrite Hrun. unfold mbind, Result_bind.
      rewrite Hagain. reflexivity.
Defined.

(** ** The window token *)

(** What a successful [StartGraphicApplication] did. *)
Lemma StartGraphicApplication_inv v width height opts w w' :
  StartGraphicApplication v width height opts w = Ok (None, w') →
  ∃ vm o h w1,
    macOSAvailable 12 w = None ∧
    apply_options opts defaultOpts = (o, None) ∧
    vms w !! v = Some vm ∧
    NewHandle (VVirtualMachine v) w = Ok (h, w1) ∧
    w' = foreign (C_startVirtualMachineWindow
                    (pointer vm) (dispatchQueue vm) width height (title o)
                    (enableController o) h (confirmStopOnClose o))
           (store_vm v (with_windowClosedHandle h (with_hasGUIWindow true vm)) w1).
Proof.
  unfold StartGraphicApplication. fold defaultOpts.
  destruct (macOSAvailable 12 w) eqn:Hos; [discriminate|].
  destruct (apply_options opts defaultOpts) as [o [e|]] eqn:Hopts; [discriminate|].
  destruct (vms w !! v) as [vm|] eqn:Hvm; [|discriminate]. simpl.
  destruct (NewHandle (VVirtualMachine v) w) as [[h w1]| |] eqn:Hnew;
    [|discriminate..]. simpl.
  unfold store_vm at 1. simpl. rewrite lookup_insert_eq. simpl.
  intros [= <-]. by exists vm, o, h, w1.
Qed.

Lemma ShowWindow_inv v w e w' :
  ShowWindow v w = Ok (e, w') →
  (e = Some (ErrUnsupported 12) ∧ macOSAvailable 12 w = Some (ErrUnsupported 12) ∧ w' = w) ∨
  (∃ vm, macOSAvailable 12 w = None ∧ vms w !! v = Some vm ∧
         ((windowClosedHandle vm = 0 ∧ w' = w ∧
           e = Some (Errorf "GUI was never initialized; call StartGraphicApplication first")) ∨
          (windowClosedHandle vm ≠ 0 ∧ e = None ∧
           w' = foreign C_showVirtualMachineWindow
                  (store_vm v (with_hasGUIWindow true vm) w)))).
Proof.
  unfold ShowWindow, macOSAvailable. case_decide.
  - intros [= <- <-]. left. auto.
  - destruct (vms w !! v) as [vm|] eqn:Hvm; [|discriminate]. simpl.
    case_decide; intros [= <- <-]; right; exists vm;
      (split; [reflexivity|]; split; [reflexivity|]); [left | right]; auto.
Qed.

Lemma notifyWindowClosed_inv h w w' :
  notifyWindowClosed h w = Ok w' →
  w' = w ∨ ∃ p vm, vms w !! p = Some vm ∧
                   w' = store_vm p (with_hasGUIWindow false vm) w.
Proof.
  unfold notifyWindowClosed. case_decide; [intros [= <-]; by left|].
  destruct (Handle_Value h w) as [val| |]; [|discriminate..]. simpl.
  destruct val; try (intros [= <-]; by left).
  destruct (vms w !! p) as [vm|] eqn:Hvm; [|discriminate]. simpl.
  intros [= <-]. right. eauto.
Qed.

(** C7, as the code has it: two [StartGraphicApplication] calls on one VM
    leave two different tokens; the second call registers token 4 although
    token 3 of the first call is still registered. *)
Lemma window_token_not_reused :
  ∃ w2, StartGraphicApplication 7 800 600 [] w_gui = Ok (None, w2) ∧
        windowClosedHandle <$> vms w_gui !! 7 = Some 3 ∧
        windowClosedHandle <$> vms w2 !! 7 = Some 4 ∧
        windowClosedHandle <$> vms w2 !! 7 ≠ windowClosedHandle <$> vms w_gui !! 7 ∧
        handles w_gui !! 4 = None ∧
        handles w2 !! 4 = Some (VVirtualMachine 7).
Proof.
  eexists. split; [vm_compute; reflexivity|].
  repeat split; try (vm_compute; reflexivity).
  vm_compute. discriminate.
Qed.

(** C7 amended: every successful [StartGraphicApplication] call registers
    a token that was not in the table before and stores it in the VM in
    place of the previous one; [ShowWindow] and the window-closed callback
    (a show cycle) register nothing and leave every VM's token as it is. *)
Theorem window_token_per_call (w : World) (v : loc) :
  wf_handles w →
  (∀ width height opts w',
     StartGraphicApplication v width height opts w = Ok (None, w') →
     ∃ h, windowClosedHandle <$> vms w' !! v = Some h ∧
          h ≠ 0 ∧
          handles w !! h = None ∧
          handles w' = <[h := VVirtualMachine v]> (handles w) ∧
          windowClosedHandle <$> vms w !! v ≠ Some h ∧
          wf_handles w') ∧
  (∀ e w', ShowWindow v w = Ok (e, w') →
     handles w' = handles w ∧ wf_handles w' ∧
     ∀ q, windowClosedHandle <$> vms w' !! q = windowClosedHandle <$> vms w !! q) ∧
  (∀ h w', notifyWindowClosed h w = Ok w' →
     handles w' = handles w ∧ wf_handles w' ∧
     ∀ q, windowClosedHandle <$> vms w' !! q = windowClosedHandle <$> vms w !! q).
Proof.
  intros Hwf.
  assert (∀ p vm b, vms w !! p = Some vm →
            wf_handles (store_vm p (with_hasGUIWindow b vm) w) ∧
            ∀ q, windowClosedHandle <$> vms (store_vm p (with_hasGUIWindow b vm) w) !! q
                 = windowClosedHandle <$> vms w !! q) as Hflag.
  { intros p vm b Hp. split.
    - split; simpl; [apply Hwf | apply Hwf |].
      intros q vmq. rewrite lookup_insert. case_decide as Hq.
      + intros [= <-]. simpl. by apply (wf_tok _ Hwf p).
      + apply (wf_tok _ Hwf).
    - intros q. simpl. rewrite lookup_insert. case_decide as Hq; [|done].
      subst q. by rewrite Hp. }
  split; [|split].
  - intros width height opts w' Hrun.
    apply StartGraphicApplication_inv in Hrun
      as (vm & o & h & w1 & _ & _ & Hvm & Hnew & ->).
    pose proof (NewHandle_fresh _ _ _ _ Hwf Hnew) as Hfresh.
    pose proof (NewHandle_wf _ _ _ _ Hwf Hnew) as Hwf1.
    apply NewHandle_next in Hnew as (Hh & Hlt & ->); [|apply Hwf].
    exists h. simpl. rewrite lookup_insert_eq. simpl.
    split; [done|]. split; [lia|]. split; [done|]. split; [done|]. split.
    + rewrite Hvm. simpl. intros [= Heq].
      pose proof (wf_tok _ Hwf _ _ Hvm). lia.
    + split; simpl; [apply Hwf1 | apply Hwf1 |].
      intros q vmq. rewrite lookup_insert. case_decide as Hq.
      * intros [= <-]. simpl. reflexivity.
      * intros Hq'. apply (wf_tok _ Hwf1 q). exact Hq'.
  - intros e w' Hrun. apply ShowWindow_inv in Hrun
      as [(_ & _ & ->) | (vm & _ & Hvm & [(_ & -> & _) | (_ & _ & ->)])];
      try done.
    destruct (Hflag v vm true Hvm) as [Hwf' Hsame].
    split; [done|]. split; [|exact Hsame].
    destruct Hwf'. by split.
  - intros h w' Hrun. apply notifyWindowClosed_inv in Hrun
      as [-> | (p & vm & Hp & ->)]; [done|].
    destruct (Hflag p vm false Hp) as [Hwf' Hsame]. done.
Qed.

Lemma window_token_per_call_witness :
  ∃ w2 h, StartGraphicApplication 7 800 600 [] w_gui = Ok (None, w2) ∧
          windowClosedHandle <$> vms w2 !! 7 = Some h ∧
          handles w_gui !! h = None.
Proof.
  destruct (proj1 (window_token_per_call w_new 7 (proj1 w_new_wf))
              800%float 600%float [] w_gui w_gui_eq)
    as (h1 & _ & _ & _ & _ & _ & Hwf).
  destruct (proj1 (window_token_per_call w_gui 7 Hwf) 800%float 600%float []
              (snd (from_ok (StartGraphicApplication 7 800 600 [] w_gui) (None, w_gui))))
    as (h & Htok & _ & Hfresh & _).
  - vm_compute. reflexivity.
  - eexists _, h. split; [vm_compute; reflexivity|]. split; assumption.
Defined.

(** ** The window of a new VM *)

Lemma NewHandle_twice_ne val1 val2 w h1 w1 w1' h2 w2 :
  NewHandle val1 w = Ok (h1, w1) → handleIdx w1' = handleIdx w1 →
  NewHandle val2 w1' = Ok (h2, w2) → h1 ≠ h2.
Proof.
  intros H1 Hidx H2.
  apply NewHandle_inv in H1 as (Hh1 & Hnz1 & ->).
  apply NewHandle_inv in H2 as (Hh2 & Hnz2 & ->).
  rewrite Hidx in Hh2. simpl in Hh2.
  assert (h1 < uintptr_modulus) as Hlt.
  { rewrite Hh1. apply N.mod_lt. unfold uintptr_modulus. lia. }
  intros <-. destruct (decide (h1 + 1 = uintptr_modulus)) as [Heq|Hne].
  - apply Hnz1. rewrite Hh2 at 1. rewrite Heq. apply N.Div0.mod_same.
  - rewrite N.mod_small in Hh2 by lia. lia.
Qed.

Lemma NewVirtualMachine_fresh cfg uuid w v w' :
  NewVirtualMachine cfg uuid w = Ok ((Some v, None), w') →
  ∃ vm sh dh, fresh_vm w' v vm sh dh ∧ config vm = cfg ∧
              osVersion w' = osVersion w ∧ goroutines w' = goroutines w.
Proof.
  unfold NewVirtualMachine.
  destruct (macOSAvailable 11 w); [discriminate|]. simpl.
  match goal with |- context [NewHandle ?val ?w0] =>
    destruct (NewHandle val w0) as [[sh w1]| |] eqn:Hsh; [|discriminate..]
  end. simpl.
  match goal with |- context [NewHandle ?val ?w0] =>
    destruct (NewHandle val w0) as [[dh w2]| |] eqn:Hdh; [|discriminate..]
  end. simpl.
  intros [= <- <-].
  assert (sh ≠ dh) as Hne
    by (eapply NewHandle_twice_ne; [exact Hsh | | exact Hdh]; reflexivity).
  apply NewHandle_inv in Hdh as (_ & _ & ->).
  apply NewHandle_inv in Hsh as (_ & _ & ->).
  eexists _, sh, dh. split; [split; simpl|].
  - apply lookup_insert_eq.
  - reflexivity.
  - reflexivity.
  - reflexivity.
  - reflexivity.
  - rewrite lookup_insert_ne by done. apply lookup_insert_eq.
  - apply lookup_insert_eq.
  - eexists. split; [apply lookup_insert_eq|]. apply lookup_insert_eq.
  - apply lookup_insert_eq.
  - apply lookup_insert_eq.
  - split; [reflexivity|]. split; reflexivity.
Qed.

Lemma BringWindowToFront_vms v w e w' :
  BringWindowToFront v w = Ok (e, w') → vms w' = vms w.
Proof.
  unfold BringWindowToFront. destruct (macOSAvailable 12 w); [by intros [= <- <-]|].
  destruct (vms w !! v) as [vm|]; [|discriminate]. simpl.
  destruct (hasGUIWindow vm); simpl; [|by intros [= <- <-]].
  destruct (windowLive w); simpl; by intros [= <- <-].
Qed.

Lemma HasGUIWindow_vms v w b w' :
  HasGUIWindow v w = Ok (b, w') → vms w' = vms w.
Proof.
  unfold HasGUIWindow. destruct (vms w !! v) as [vm|]; [|discriminate]. simpl.
  destruct (hasGUIWindow vm); by intros [= <- <-].
Qed.

(** No operation on the window other than [StartGraphicApplication]
    leaves that state. *)
Lemma never_started_preserved (w : World) (v : loc) :
  never_started w v →
  (∀ u e w', BringWindowToFront u w = Ok (e, w') → never_started w' v) ∧
  (∀ u e w', ShowWindow u w = Ok (e, w') → u = v ∨ never_started w' v) ∧
  (∀ e w', ShowWindow v w = Ok (e, w') → never_started w' v) ∧
  (∀ u b w', HasGUIWindow u w = Ok (b, w') → never_started w' v) ∧
  (∀ h w', notifyWindowClosed h w = Ok w' → never_started w' v).
Proof.
  intros (vm & Hvm & Hflag & Htok).
  split; [|split; [|split; [|split]]].
  - intros u e w' Hrun. apply BringWindowToFront_vms in Hrun.
    exists vm. by rewrite Hrun.
  - intros u e w' Hrun. destruct (decide (u = v)) as [|Hne]; [by left|right].
    apply ShowWindow_inv in Hrun
      as [(_ & _ & ->) | (vmu & _ & Hu & [(_ & -> & _) | (_ & _ & ->)])];
      try by exists vm.
    exists vm. simpl. by rewrite lookup_insert_ne.
  - intros e w' Hrun. apply ShowWindow_inv in Hrun
      as [(_ & _ & ->) | (vm' & _ & Hv & [(_ & -> & _) | (Hnz & _ & ->)])];
      try by exists vm.
    rewrite Hvm in Hv. injection Hv as <-. done.
  - intros u b w' Hrun. apply HasGUIWindow_vms in Hrun.
    exists vm. by rewrite Hrun.
  - intros h w' Hrun. apply notifyWindowClosed_inv in Hrun
      as [-> | (p & vmp & Hp & ->)]; [by exists vm|].
    destruct (decide (p = v)) as [->|Hne].
    + rewrite Hvm in Hp. injection Hp as <-.
      exists (with_hasGUIWindow false vm). simpl. by rewrite lookup_insert_eq.
    + exists vm. simpl. by rewrite lookup_insert_ne.
Qed.

(** C8: on macOS 12 or newer, before any [StartGraphicApplication] call
    on a VM both [BringWindowToFront] and [ShowWindow] return their
    precondition error (and do nothing); after one successful
    [StartGraphicApplication] and a window-closed notification for the
    token of that call, [HasGUIWindow] is false, [ShowWindow] returns nil
    and [HasGUIWindow] is true again. *)
Theorem window_lifecycle (w : World) (v : loc) :
  macOSAvailable 12 w = None →
  never_started w v →
  BringWindowToFront v w
    = Ok (Some (Errorf "GUI window does not exist; call StartGraphicApplication first"), w) ∧
  ShowWindow v w
    = Ok (Some (Errorf "GUI was never initialized; call StartGraphicApplication first"), w) ∧
  ∀ width height opts w1 vm1 live w2,
    StartGraphicApplication v width height opts w = Ok (None, w1) →
    vms w1 !! v = Some vm1 →
    notifyWindowClosed (windowClosedHandle vm1) (set_windowLive live w1) = Ok w2 →
    HasGUIWindow v w2 = Ok (false, w2) ∧
    ∃ w3 w4, ShowWindow v w2 = Ok (None, w3) ∧ HasGUIWindow v w3 = Ok (true, w4).
Proof.
  intros Hos (vm & Hvm & Hflag & Htok).
  split; [|split].
  - unfold BringWindowToFront. rewrite Hos, Hvm. simpl. by rewrite Hflag.
  - unfold ShowWindow. rewrite Hos, Hvm. simpl. by rewrite Htok.
  - intros width height opts w1 vm1 live w2 Hstart Hvm1 Hclosed.
    apply StartGraphicApplication_inv in Hstart
      as (vm0 & o & h & w0 & _ & _ & Hvm0 & Hnew & ->).
    rewrite Hvm in Hvm0. injection Hvm0 as <-.
    apply NewHandle_inv in Hnew as (_ & Hnz & ->).
    simpl in Hvm1. rewrite lookup_insert_eq in Hvm1. injection Hvm1 as <-.
    simpl in Hclosed. unfold notifyWindowClosed in Hclosed.
    rewrite decide_False in Hclosed by done.
    unfold Handle_Value in Hclosed. simpl in Hclosed.
    rewrite lookup_insert_eq in Hclosed. simpl in Hclosed.
    rewrite lookup_insert_eq in Hclosed. simpl in Hclosed.
    injection Hclosed as <-.
    split.
    + unfold HasGUIWindow. simpl. rewrite lookup_insert_eq. reflexivity.
    + unfold ShowWindow. unfold macOSAvailable in *. simpl.
      destruct (decide (osVersion w < 12)); [discriminate|].
      rewrite lookup_insert_eq. simpl. rewrite decide_False by done.
      eexists _, _. split; [reflexivity|].
      unfold HasGUIWindow. simpl. rewrite lookup_insert_eq. reflexivity.
Qed.

Lemma window_lifecycle_witness :
  BringWindowToFront 7 w_new
    = Ok (Some (Errorf "GUI window does not exist; call StartGraphicApplication first"), w_new) ∧
  ShowWindow 7 w_new
    = Ok (Some (Errorf "GUI was never initialized; call StartGraphicApplication first"), w_new) ∧
  ∃ w2 w3 w4, notifyWindowClosed 3 (set_windowLive false w_gui) = Ok w2 ∧
              ShowWindow 7 w2 = Ok (None, w3) ∧ HasGUIWindow 7 w3 = Ok (true, w4).
Proof.
  assert (macOSAvailable 12 w_new = None) as Hos by (vm_compute; reflexivity).
  assert (never_started w_new 7) as Hnever.
  { eexists. split; [vm_compute; reflexivity|]. split; reflexivity. }
  destruct (window_lifecycle w_new 7 Hos Hnever) as (Hfront & Hshow & Hcycle).
  split; [exact Hfront|]. split; [exact Hshow|].
  destruct (Hcycle 800%float 600%float [] w_gui
              (with_windowClosedHandle 3
                 (with_hasGUIWindow true
                    vm_new))
              false
              (snd (from_ok (w ← notifyWindowClosed 3 (set_windowLive false w_gui); Ok ((), w))
                            ((), w_gui))))
    as (_ & w3 & w4 & Hs & Hh).
  - vm_compute. reflexivity.
  - vm_compute. reflexivity.
  - vm_compute. reflexivity.
  - eexists _, w3, w4. split; [vm_compute; reflexivity|]. split; assumption.
Defined.

(** ** The state channel *)

Lemma state_step_inv v sh ms notify past cur a r :
  state_inv v sh ms notify past cur r →
  ∃ r', state_step v sh a r = Ok r' ∧
        state_inv v sh ms notify
          (past ++ fired [a])
          (match a with Fire s => s | _ => cur end) r'.
Proof.
  intros [(vm & Hvm & Hms) Hh Hst (pend & Hch & Hlog) Hsubs].
  destruct a as [who|s|who]; simpl.
  - unfold StateChangedNotify. rewrite Hvm. simpl. rewrite Hms, Hst. simpl.
    eexists. split; [reflexivity|]. rewrite app_nil_r.
    split; simpl; eauto.
    intros who' ch. rewrite lookup_insert. case_decide; [congruence|]. apply Hsubs.
  - unfold changeStateOnObserver, Handle_Value. rewrite Hh. simpl.
    rewrite Hst. simpl. rewrite Hch. simpl.
    eexists. split; [reflexivity|].
    split; simpl; eauto.
    + by rewrite lookup_insert_eq.
    + eexists. split; [by rewrite lookup_insert_eq|].
      by rewrite app_assoc, Hlog.
  - rewrite app_nil_r.
    destruct (sr_subs r !! who) as [ch|] eqn:Hwho.
    2:{ eexists. split; [reflexivity|]. split; eauto. }
    apply Hsubs in Hwho as ->.
    unfold receive_state. rewrite Hch. simpl. unfold chan_recv. simpl.
    destruct pend as [|s pend]; simpl.
    + eexists. split; [reflexivity|]. split; eauto.
    + eexists. split; [reflexivity|]. split; simpl; eauto.
      eexists. split; [by rewrite lookup_insert_eq|].
      rewrite map_app. simpl. rewrite <- app_assoc. exact Hlog.
Qed.

Lemma state_run_inv v sh ms notify acts : ∀ past cur r,
  state_inv v sh ms notify past cur r →
  ∃ r', state_run v sh acts r = Ok r' ∧
        state_inv v sh ms notify
          (past ++ fired acts) (default cur (last (fired acts))) r'.
Proof.
  induction acts as [|a acts IH]; intros past cur r Hinv.
  - exists r. split; [reflexivity|]. simpl. by rewrite app_nil_r.
  - destruct (state_step_inv v sh ms notify past cur a r Hinv) as (r1 & Hstep & Hinv1).
    cbn [state_run]. rewrite Hstep. cbn [mbind Result_bind].
    destruct (IH _ _ _ Hinv1) as (r2 & Hrun & Hinv2).
    exists r2. split; [exact Hrun|].
    assert (past ++ fired (a :: acts) = (past ++ fired [a]) ++ fired acts) as ->.
    { rewrite <- app_assoc. f_equal. destruct a; reflexivity. }
    assert (default cur (last (fired (a :: acts)))
            = default (match a with Fire s => s | _ => cur end) (last (fired acts)))
      as ->; [|exact Hinv2].
    destruct a as [who|s|who]; try reflexivity.
    change (fired (Fire s :: acts)) with (s :: fired acts).
    rewrite last_cons. by destruct (last (fired acts)).
Qed.

Lemma start_run_inv w v vm sh dh :
  fresh_vm w v vm sh dh →
  ∃ notify, state_inv v sh (vm_machineState vm) notify []
              VirtualMachineStateStopped (start_run w).
Proof.
  intros Hf. destruct (fresh_state _ _ _ _ _ Hf) as (notify & Hst & Hch).
  exists notify. split; simpl.
  - exists vm. split; [apply Hf | reflexivity].
  - apply Hf.
  - exact Hst.
  - exists []. split; [exact Hch | reflexivity].
  - intros who ch. rewrite lookup_empty. discriminate.
Qed.




(** A consumer that keeps receiving takes everything that is buffered, in
    order, and then waits. *)
Lemma state_drain v sh who notify n : ∀ r pend,
  sr_subs r !! who = Some notify →
  stateChans (sr_world r) !! notify = Some {| buffer := pend; inClosed := false |} →
  (length pend ≤ n)%nat →
  ∃ r', state_run v sh (replicate n (Receive who)) r = Ok r' ∧
        sr_got r' = sr_got r ++ map (pair who) pend ∧
        sr_subs r' !! who = Some notify ∧
        stateChans (sr_world r') !! notify = Some {| buffer := []; inClosed := false |}.
Proof.
  induction n as [|n IH]; intros r pend Hsub Hch Hlen.
  - destruct pend; [|simpl in Hlen; lia].
    exists r. simpl. by rewrite app_nil_r.
  - cbn [replicate state_run state_step]. rewrite Hsub.
    unfold receive_state. rewrite Hch. cbn.
    destruct pend as [|s pend]; cbn.
    + apply (IH r []); [done|done|simpl; lia].
    + match goal with |- context [state_run _ _ _ ?r1] =>
        destruct (IH r1 pend) as (r' & Hrun & Hgot & Hsub' & Hch')
      end; simpl; [done|by rewrite lookup_insert_eq|simpl in Hlen; lia|].
      exists r'. split; [exact Hrun|]. split; [|done].
      rewrite Hgot. simpl. by rewrite <- app_assoc.
Qed.



Lemma w_new_fresh : fresh_vm w_new 7 vm_new 1 2.
Proof.
  split; try (vm_compute; reflexivity).
  exists 2. split; vm_compute; reflexivity.
Qed.



(** C4, as the code has it: two consumers call [StateChangedNotify] and get
    the same channel; one state is then published; the first consumer
    takes it and the second, however often it tries, receives nothing. *)
Lemma second_subscriber_starved :
  ∃ r, state_run 7 1 [Subscribe 0; Subscribe 1; Fire VirtualMachineStateRunning;
                      Receive 0; Receive 1] (start_run w_new) = Ok r ∧
       sr_subs r !! 0%nat = Some 2 ∧
       sr_subs r !! 1%nat = Some 2 ∧
       received_by 0 (sr_got r) = [VirtualMachineStateRunning] ∧
       received_by 1 (sr_got r) ≠ [VirtualMachineStateRunning] ∧
       ∀ n, ∃ r', state_run 7 1 (replicate n (Receive 1)) r = Ok r' ∧
                  received_by 1 (sr_got r') = [].
Proof.
  eexists. split; [vm_compute; reflexivity|].
  split; [vm_compute; reflexivity|].
  split; [vm_compute; reflexivity|].
  split; [vm_compute; reflexivity|].
  split; [vm_compute; discriminate|].
  intros n.
  match goal with |- context [state_run _ _ _ ?r] =>
    destruct (state_drain 7 1 1%nat 2 n r []) as (r' & Hrun & Hgot & _)
  end.
  - vm_compute. reflexivity.
  - vm_compute. reflexivity.
  - simpl. lia.
  - exists r'. split; [exact Hrun|]. rewrite Hgot. vm_compute. reflexivity.
Qed.

(** C4 amended: [StateChangedNotify] may be called any number of times and
    always returns the one channel of the VM.  Under any interleaving of
    subscriptions, callbacks and receives by any number of consumers, the
    deliveries (each to the one consumer that took it), in the order they
    happened, followed by what is still buffered, are exactly the states
    published, in publish order: every state goes to exactly one consumer,
    whether it was published before or after that consumer subscribed. *)
Theorem state_stream_shared (w : World) (v : loc) (vm : VirtualMachine)
    (sh dh : Handle) (acts : list StateAction) :
  fresh_vm w v vm sh dh →
  ∃ r notify pend,
    state_run v sh acts (start_run w) = Ok r ∧
    StateChangedNotify v (sr_world r) = Ok notify ∧
    (∀ who ch, sr_subs r !! who = Some ch → ch = notify) ∧
    stateChans (sr_world r) !! notify = Some {| buffer := pend; inClosed := false |} ∧
    map snd (sr_got r) ++ pend = fired acts.
Proof.
  intros Hfresh.
  destruct (start_run_inv _ _ _ _ _ Hfresh) as (notify & Hinv0).
  destruct (state_run_inv v sh _ notify acts _ _ _ Hinv0) as (r & Hrun & Hinv).
  destruct Hinv as [(vm' & Hvm & Hms) Hh Hst (pend & Hch & Hlog) Hsubs].
  assert (StateChangedNotify v (sr_world r) = Ok notify) as Hnotify.
  { unfold StateChangedNotify. rewrite Hvm. simpl. rewrite Hms, Hst. reflexivity. }
  exists r, notify, pend. split; [exact Hrun|].
  split; [exact Hnotify|]. split; [exact Hsubs|]. split; [exact Hch | exact Hlog].
Qed.

Lemma state_stream_shared_witness :
  ∃ r pend,
    state_run 7 1 [Fire VirtualMachineStateStarting; Subscribe 0; Subscribe 1;
                   Fire VirtualMachineStateRunning; Receive 1; Receive 0;
                   Fire VirtualMachineStateStopped] (start_run w_new) = Ok r ∧
    map snd (sr_got r) ++ pend
      = [VirtualMachineStateStarting; VirtualMachineStateRunning;
         VirtualMachineStateStopped].
Proof.
  destruct (state_stream_shared w_new 7 vm_new 1 2
              [Fire VirtualMachineStateStarting; Subscribe 0; Subscribe 1;
               Fire VirtualMachineStateRunning; Receive 1; Receive 0;
               Fire VirtualMachineStateStopped] w_new_fresh)
    as (r & notify & pend & Hrun & _ & _ & _ & Hlog).
  exists r, pend. split; [exact Hrun | exact Hlog].
Defined.

(** ** The disconnect pipeline *)

Lemma enrich_published cfgs d : published_for cfgs d (enrich cfgs d).
Proof.
  unfold published_for, enrich, FindValueByIndex. simpl.
  split; [reflexivity|]. split.
  - intros i Hi Hlt. rewrite decide_False by lia.
    rewrite Hi, Nat2Z.id.
    destruct (cfgs !! i) as [c|] eqn:Hc.
    + f_equal. symmetry. by apply nth_lookup_Some with (d := None) in Hc.
    + apply lookup_ge_None in Hc. lia.
  - intros Hout. by rewrite decide_True.
Qed.

(** One turn of the worker on a buffered event. *)
Lemma watchDisconnected_step_event (w : World) (v : loc) (vm : VirtualMachine)
    d rest cl pout :
  vms w !! v = Some vm →
  inChans w !! disconnectedIn vm = Some {| buffer := d :: rest; inClosed := cl |} →
  outChans w !! disconnectedOut vm = Some {| buffer := pout; inClosed := false |} →
  ∃ w', watchDisconnected_step v w = Ok w' ∧
        vms w' = vms w ∧ goroutines w' = goroutines w ∧ calls w' = calls w ∧
        handles w' = handles w ∧
        inChans w' = <[disconnectedIn vm := {| buffer := rest; inClosed := cl |}]> (inChans w) ∧
        outChans w' = <[disconnectedOut vm :=
                         {| buffer := pout ++ [enrich (networkDeviceConfiguration (config vm)) d];
                            inClosed := false |}]> (outChans w).
Proof.
  intros Hvm Hin Hout. unfold watchDisconnected_step.
  rewrite Hvm. simpl. rewrite Hin. simpl. rewrite Hout. simpl.
  eexists. split; [reflexivity|]. by repeat split.
Qed.

(** The worker run for as many turns as there are buffered events. *)
Lemma watchDisconnected_drain (v : loc) (vm : VirtualMachine) ds : ∀ w cl pout,
  vms w !! v = Some vm →
  inChans w !! disconnectedIn vm = Some {| buffer := ds; inClosed := cl |} →
  outChans w !! disconnectedOut vm = Some {| buffer := pout; inClosed := false |} →
  ∃ w', repeat_call (length ds) (watchDisconnected_step v) w = Ok w' ∧
        vms w' = vms w ∧ goroutines w' = goroutines w ∧ calls w' = calls w ∧
        handles w' = handles w ∧
        inChans w' !! disconnectedIn vm = Some {| buffer := []; inClosed := cl |} ∧
        outChans w' !! disconnectedOut vm
          = Some {| buffer := pout ++ map (enrich (networkDeviceConfiguration (config vm))) ds;
                    inClosed := false |}.
Proof.
  induction ds as [|d ds IH]; intros w cl pout Hvm Hin Hout.
  - exists w. simpl. by rewrite app_nil_r.
  - destruct (watchDisconnected_step_event w v vm d ds cl pout Hvm Hin Hout)
      as (w1 & Hstep & Hvms & Hgo & Hcalls & Hh & Hin1 & Hout1).
    cbn [length repeat_call]. rewrite Hstep. cbn [mbind Result_bind].
    destruct (IH w1 cl (pout ++ [enrich (networkDeviceConfiguration (config vm)) d]))
      as (w' & Hrun & Hvms' & Hgo' & Hcalls' & Hh' & Hin' & Hout').
    + by rewrite Hvms.
    + rewrite Hin1. apply lookup_insert_eq.
    + rewrite Hout1. apply lookup_insert_eq.
    + exists w'. split; [exact Hrun|].
      rewrite Hvms', Hgo', Hcalls', Hh'. repeat split; try done.
      rewrite Hout'. by rewrite <- app_assoc.
Qed.

(** C5: a running worker whose stage-1 channel holds the events [ds]
    publishes, turn by turn, one [DisconnectedError] per event, in order:
    each has the event's cause, the configuration of the device at the
    event's index when that index is in the configuration list, and the nil
    configuration when the index is out of range.  After every event the
    worker is still running (it was not removed and nothing panicked), so an
    out-of-range event does not stop the events behind it. *)
Theorem disconnect_events_enriched (w : World) (v : loc) (vm : VirtualMachine)
    (ds : list disconnected) (cl : bool) (pout : list DisconnectedError) :
  vms w !! v = Some vm →
  v ∈ goroutines w →
  inChans w !! disconnectedIn vm = Some {| buffer := ds; inClosed := cl |} →
  outChans w !! disconnectedOut vm = Some {| buffer := pout; inClosed := false |} →
  ∃ w' es,
    repeat_call (length ds) (watchDisconnected_step v) w = Ok w' ∧
    outChans w' !! disconnectedOut vm = Some {| buffer := pout ++ es; inClosed := false |} ∧
    Forall2 (published_for (networkDeviceConfiguration (config vm))) ds es ∧
    inChans w' !! disconnectedIn vm = Some {| buffer := []; inClosed := cl |} ∧
    v ∈ goroutines w'.
Proof.
  intros Hvm Hrun Hin Hout.
  destruct (watchDisconnected_drain v vm ds w cl pout Hvm Hin Hout)
    as (w' & Hsteps & _ & Hgo & _ & _ & Hin' & Hout').
  exists w', (map (enrich (networkDeviceConfiguration (config vm))) ds).
  split; [exact Hsteps|]. split; [exact Hout'|]. split; [|split].
  - clear. induction ds as [|d ds IH]; simpl; constructor; [|exact IH].
    apply enrich_published.
  - exact Hin'.
  - by rewrite Hgo.
Qed.

Lemma disconnect_events_enriched_witness :
  ∃ w' e1 e2 e3 e4,
    repeat_call 4 (watchDisconnected_step 7) w_pipe = Ok w' ∧
    outChans w' !! 5 = Some {| buffer := [e1; e2; e3; e4]; inClosed := false |} ∧
    Err e1 = Some (ErrNS 40) ∧ Config e1 = Some 101 ∧
    Err e2 = Some (ErrNS 41) ∧ Config e2 = None ∧
    Config e3 = None ∧ Config e4 = Some 100 ∧
    7 ∈ goroutines w'.
Proof.
  destruct (disconnect_events_enriched w_pipe 7
              (with_watchDisconnectedOnce true vm_new)
              [ {| err := Some (ErrNS 40); index := 1 |};
                {| err := Some (ErrNS 41); index := 5 |};
                {| err := Some ErrNilNSError; index := -1 |};
                {| err := Some (ErrNS 42); index := 0 |} ] false [])
    as (w' & es & Hrun & Hout & Hall & _ & Hgo).
  - vm_compute. reflexivity.
  - vm_compute. apply list_elem_of_here.
  - vm_compute. reflexivity.
  - vm_compute. reflexivity.
  - inversion Hall as [|d1 e1 ds1 es1 H1 Hall1]; subst.
    inversion Hall1 as [|d2 e2 ds2 es2 H2 Hall2]; subst.
    inversion Hall2 as [|d3 e3 ds3 es3 H3 Hall3]; subst.
    inversion Hall3 as [|d4 e4 ds4 es4 H4 Hall4]; subst.
    inversion Hall4; subst.
    exists w', e1, e2, e3, e4. split; [exact Hrun|]. split; [exact Hout|].
    destruct H1 as (He1 & Hin1 & _), H2 as (He2 & _ & Hout2),
             H3 as (_ & _ & Hout3), H4 as (_ & Hin4 & _).
    split; [exact He1|]. split.
    { specialize (Hin1 1%nat eq_refl). simpl in Hin1.
      assert (Some (Some 101) = Some (Config e1)) as [= <-] by (apply Hin1; lia).
      reflexivity. }
    split; [exact He2|]. split; [apply Hout2; simpl; lia|].
    split; [apply Hout3; simpl; lia|]. split; [|exact Hgo].
    specialize (Hin4 0%nat eq_refl). simpl in Hin4.
    assert (Some (Some 100) = Some (Config e4)) as [= <-] by (apply Hin4; lia).
    reflexivity.
Defined.

(** ** The worker's life *)

Lemma running_spawn v w c :
  running v (set_goroutines (goroutines w ++ [v]) (foreign c w)) = S (running v w).
Proof.
  unfold running. simpl. rewrite filter_app, length_app.
  rewrite filter_cons_True by done. simpl. lia.
Qed.

Lemma remove_first_running v l :
  length (filter (λ u, u = v) (remove_first v l))
  = pred (length (filter (λ u, u = v) l)).
Proof.
  induction l as [|x l IH]; [done|]. simpl.
  case_decide as Hx.
  - subst x. by rewrite filter_cons_True.
  - by rewrite !filter_cons_False.
Qed.

Lemma running_elem v w : v ∈ goroutines w → running v w ≠ 0%nat.
Proof.
  unfold running. intros Hin Hz. apply length_zero_iff_nil in Hz.
  assert (v ∈ filter (λ u, u = v) (goroutines w)) as Hf
    by (apply list_elem_of_filter; done).
  rewrite Hz in Hf. by apply not_elem_of_nil in Hf.
Qed.

Lemma spawned_go v w :
  spawned v (foreign (go_watchDisconnected v) w) = S (spawned v w).
Proof.
  unfold spawned. simpl. rewrite List.filter_app, length_app. simpl.
  rewrite bool_decide_eq_true_2 by done. simpl. lia.
Qed.

Lemma pipe_step_inv v dh vm0 os sub closed emitted ph a r :
  pipe_inv v dh vm0 os sub closed emitted ph r →
  compliant closed [a] →
  ∃ r' ph', pipe_step v dh a r = Ok r' ∧
            pipe_inv v dh vm0 os (sub || is_PSubscribe a) (closed || is_PClose a)
              (emitted ++ emitted_by a) ph' r' ∧
            phase_le ph ph'.
Proof.
  assert (∀ p, phase_le p p) as Hrefl by (by intros []).
  intros [once pin pout oclosed Hvm Hh Hin Hout Hlog Hchan Hos Hsub Hph] Hok.
  destruct a as [|idx errPtr| | |]; simpl in Hok; cbn [pipe_step emitted_by is_PClose is_PSubscribe];
    rewrite ?orb_false_r, ?orb_true_r, ?app_nil_r.
  - (* PSubscribe *)
    unfold NetworkDeviceAttachmentWasDisconnected, macOSAvailable.
    case_decide as Hlt; simpl.
    { eexists _, ph. split; [reflexivity|]. split; [|done].
      apply (PipeInv _ _ _ _ _ _ _ _ _ once pin pout oclosed); pipe_facts.
      intros _ Hge. lia. }
    rewrite Hvm. simpl. destruct once; simpl.
    + rewrite Hvm. simpl. eexists _, ph. split; [reflexivity|]. split; [|done].
      apply (PipeInv _ _ _ _ _ _ _ _ _ true pin pout oclosed); pipe_facts.
      intros ch [= <-]. reflexivity.
    + rewrite lookup_insert_eq. simpl.
      destruct ph; simpl in Hph; [|by destruct Hph..].
      eexists _, Working. split; [reflexivity|]. split; [|done].
      destruct Hph as (_ & Hrun & Hsp & ->).
      apply (PipeInv _ _ _ _ _ _ _ _ _ true pin pout false); pipe_facts.
      * intros ch [= <-]. reflexivity.
      * split; [done|]. split; [|split; [|done]].
        -- change (running v _) with
             (running v (set_goroutines (goroutines (pr_world r) ++ [v])
                           (foreign (go_watchDisconnected v) (pr_world r)))).
           rewrite running_spawn, Hrun. reflexivity.
        -- change (spawned v _) with
             (spawned v (foreign (go_watchDisconnected v) (pr_world r))).
           rewrite spawned_go, Hsp. reflexivity.
  - (* PEmit *)
    destruct Hok as [-> _].
    unfold emitAttachmentWasDisconnected, Handle_Value. rewrite Hh. simpl.
    rewrite Hin. simpl. eexists _, ph. split; [reflexivity|]. split; [|done].
    apply (PipeInv _ _ _ _ _ _ _ _ _ once
             (pin ++ [{| err := NSError_as_error (newNSError errPtr); index := idx |}])
             pout oclosed);
      pipe_facts.
    + rewrite !map_app, !app_assoc. rewrite <- (app_assoc (pr_got r)), Hlog.
      reflexivity.
    + destruct ph; simpl in *; try done. by destruct Hph as (_ & _ & _ & _ & ? & _).
  - (* PClose *)
    destruct Hok as [-> _].
    unfold closeAttachmentWasDisconnectedChannel, Handle_Value. rewrite Hh. simpl.
    rewrite Hin. simpl. eexists _, ph. split; [reflexivity|]. split; [|done].
    apply (PipeInv _ _ _ _ _ _ _ _ _ once pin pout oclosed); pipe_facts.
    destruct ph; simpl in *; try done. by destruct Hph as (_ & _ & _ & _ & ? & _).
  - (* PWork *)
    case_decide as Hgo.
    2:{ eexists _, ph. split; [reflexivity|]. split; [|done].
        by apply (PipeInv _ _ _ _ _ _ _ _ _ once pin pout oclosed). }
    apply running_elem in Hgo.
    destruct ph; simpl in Hph; [by destruct Hph as (_ & ? & _)| |by destruct Hph as (_ & ? & _)].
    destruct Hph as (-> & Hrun & Hsp & ->).
    unfold watchDisconnected_step. rewrite Hvm. simpl. rewrite Hin. simpl.
    unfold chan_recv. simpl. destruct pin as [|d pin]; simpl.
    + destruct closed; simpl.
      * rewrite Hout. simpl. eexists _, Done. split; [reflexivity|]. split; [|done].
        apply (PipeInv _ _ _ _ _ _ _ _ _ true [] pout true); pipe_facts.
        split; [done|]. split; [|done].
        unfold running. simpl. rewrite remove_first_running.
        unfold running in Hrun. by rewrite Hrun.
      * eexists _, Working. split; [reflexivity|]. split; [|done].
        by apply (PipeInv _ _ _ _ _ _ _ _ _ true [] pout false).
    + rewrite Hout. simpl. eexists _, Working. split; [reflexivity|]. split; [|done].
      apply (PipeInv _ _ _ _ _ _ _ _ _ true pin
               (pout ++ [enrich (networkDeviceConfiguration (config vm0)) d]) false);
        pipe_facts.
      rewrite <- Hlog. simpl. by rewrite <- !app_assoc.
  - (* PReceive *)
    destruct (pr_chan r) as [ch|] eqn:Hch.
    2:{ eexists _, ph. split; [reflexivity|]. split; [|done].
        apply (PipeInv _ _ _ _ _ _ _ _ _ once pin pout oclosed); try done.
        intros ch. by rewrite Hch. }
    pose proof (Hchan ch eq_refl) as ->.
    unfold receive_disconnected. rewrite Hout. simpl. unfold chan_recv. simpl.
    destruct pout as [|e pout]; simpl.
    + destruct oclosed; simpl.
      * eexists _, ph. split; [reflexivity|]. split; [|done].
        apply (PipeInv _ _ _ _ _ _ _ _ _ once pin [] true); pipe_facts.
        all: try (intros c; rewrite Hch; apply Hchan).
        all: try (rewrite lookup_insert_eq; reflexivity).
      * eexists _, ph. split; [reflexivity|]. split; [|done].
        apply (PipeInv _ _ _ _ _ _ _ _ _ once pin [] false); pipe_facts.
        all: try (intros c; rewrite Hch; apply Hchan).
    + eexists _, ph. split; [reflexivity|]. split; [|done].
      apply (PipeInv _ _ _ _ _ _ _ _ _ once pin pout oclosed); pipe_facts.
      all: try (intros c; rewrite Hch; apply Hchan).
      rewrite <- Hlog. by rewrite <- !app_assoc.
Qed.

Lemma compliant_cons closed a acts :
  compliant closed (a :: acts) →
  compliant closed [a] ∧ compliant (closed || is_PClose a) acts.
Proof.
  destruct a; simpl; rewrite ?orb_false_r, ?orb_true_r; try done.
  - by intros [-> ?].
  - by intros [-> ?].
Qed.

Lemma phase_le_trans a b c : phase_le a b → phase_le b c → phase_le a c.
Proof. by destruct a, b, c. Qed.

Lemma pipe_run_inv v dh vm0 os acts : ∀ sub closed emitted ph r,
  pipe_inv v dh vm0 os sub closed emitted ph r →
  compliant closed acts →
  ∃ r' ph', pipe_run v dh acts r = Ok r' ∧
            pipe_inv v dh vm0 os (sub || existsb is_PSubscribe acts)
              (closed || existsb is_PClose acts)
              (emitted ++ flat_map emitted_by acts) ph' r' ∧
            phase_le ph ph'.
Proof.
  induction acts as [|a acts IH]; intros sub closed emitted ph r Hinv Hok.
  - exists r, ph. simpl. rewrite !orb_false_r, app_nil_r.
    split; [done|]. split; [done|]. by destruct ph.
  - apply compliant_cons in Hok as [Ha Hacts].
    destruct (pipe_step_inv _ _ _ _ _ _ _ _ a _ Hinv Ha) as (r1 & ph1 & Hstep & Hinv1 & Hle1).
    destruct (IH _ _ _ _ _ Hinv1 Hacts) as (r2 & ph2 & Hrun & Hinv2 & Hle2).
    exists r2, ph2. cbn [pipe_run]. rewrite Hstep. cbn [mbind Result_bind].
    split; [exact Hrun|]. split; [|by eapply phase_le_trans].
    cbn [existsb flat_map]. by rewrite !orb_assoc, app_assoc.
Qed.

Lemma start_pipe_inv w v vm sh dh :
  fresh_vm w v vm sh dh → running v w = 0%nat → spawned v w = 0%nat →
  pipe_inv v dh vm (osVersion w) false false [] Idle (start_pipe w).
Proof.
  intros Hf Hrun Hsp.
  apply (PipeInv _ _ _ _ _ _ _ _ _ false [] [] false); simpl; try done.
  - rewrite (fresh_lookup _ _ _ _ _ Hf). f_equal.
    pose proof (fresh_once _ _ _ _ _ Hf) as Honce.
    destruct vm; simpl in *. by rewrite Honce.
  - apply Hf.
  - apply Hf.
  - apply Hf.
Qed.






(** ** The completion bridge *)

Lemma control_call_returned op v w e w' :
  control_call op v w = Ok (Returned e, w') → w' = w.
Proof.
  destruct op as [opts| | |]; simpl.
  - unfold Start_call.
    destruct (apply_options opts _) as [o [e0|]]; [by intros [= _ <-]|].
    simpl. destruct (NewHandle _ _) as [[hd w1]| |]; [|discriminate..]. simpl.
    destruct (vms w1 !! v); [|discriminate]. simpl.
    destruct (macOSVirtualMachineStartOptionsPtr o); discriminate.
  - unfold Pause_call. simpl.
    destruct (NewHandle _ _) as [[hd w1]| |]; [|discriminate..]. simpl.
    destruct (vms w1 !! v); discriminate.
  - unfold Resume_call. simpl.
    destruct (NewHandle _ _) as [[hd w1]| |]; [|discriminate..]. simpl.
    destruct (vms w1 !! v); discriminate.
  - unfold Stop_call. destruct (macOSAvailable 12 w); [by intros [= _ <-]|].
    simpl. destruct (NewHandle _ _) as [[hd w1]| |]; [|discriminate..]. simpl.
    destruct (vms w1 !! v); discriminate.
Qed.

Lemma registered_intro w h w1 c :
  NewHandle (VFunc (nextLoc w))
    (set_errChans (<[nextLoc w := open_chan]> (errChans w))
       (set_nextLoc (nextLoc w + 1) w)) = Ok (h, w1) →
  registered w h (nextLoc w) (foreign c w1).
Proof.
  intros Hnew. apply NewHandle_inv in Hnew as (Hh & Hnz & ->).
  by split.
Qed.

Lemma control_call_awaiting op v w h ch w' :
  control_call op v w = Ok (Awaiting h ch, w') → registered w h ch w'.
Proof.
  destruct op as [opts| | |]; simpl.
  - unfold Start_call.
    destruct (apply_options opts _) as [o [e0|]]; [discriminate|].
    simpl. fold open_chan.
    destruct (NewHandle _ _) as [[hd w1]| |] eqn:Hnew; [|discriminate..]. simpl.
    destruct (vms w1 !! v); [|discriminate]. simpl.
    destruct (macOSVirtualMachineStartOptionsPtr o);
      intros [= <- <- <-]; by apply registered_intro.
  - unfold Pause_call. simpl. fold open_chan.
    destruct (NewHandle _ _) as [[hd w1]| |] eqn:Hnew; [|discriminate..]. simpl.
    destruct (vms w1 !! v); [|discriminate]. simpl.
    intros [= <- <- <-]; by apply registered_intro.
  - unfold Resume_call. simpl. fold open_chan.
    destruct (NewHandle _ _) as [[hd w1]| |] eqn:Hnew; [|discriminate..]. simpl.
    destruct (vms w1 !! v); [|discriminate]. simpl.
    intros [= <- <- <-]; by apply registered_intro.
  - unfold Stop_call. destruct (macOSAvailable 12 w); [discriminate|].
    simpl. fold open_chan.
    destruct (NewHandle _ _) as [[hd w1]| |] eqn:Hnew; [|discriminate..]. simpl.
    destruct (vms w1 !! v); [|discriminate]. simpl.
    intros [= <- <- <-]; by apply registered_intro.
Qed.

Lemma completion_inv h errPtr w w' :
  virtualMachineCompletionHandler h errPtr w = Ok w' →
  ∃ ch c, handles w !! h = Some (VFunc ch) ∧
          errChans w !! ch = Some c ∧
          cclosed c = false ∧ (length (cbuf c) < cap c)%nat ∧
          w' = set_errChans
                 (<[ch := {| cap := cap c; cbuf := cbuf c ++ [newNSError errPtr];
                             cclosed := true |}]> (errChans w)) w.
Proof.
  unfold virtualMachineCompletionHandler, Handle_Value.
  destruct (handles w !! h) as [[p|p|ch|p]|] eqn:Hh; try discriminate. simpl.
  assert (∀ e, call_handler ch e w = Ok w' →
            ∃ c, errChans w !! ch = Some c ∧ cclosed c = false ∧
                 (length (cbuf c) < cap c)%nat ∧
                 w' = set_errChans
                        (<[ch := {| cap := cap c; cbuf := cbuf c ++ [e];
                                    cclosed := true |}]> (errChans w)) w) as Hcall.
  { intros e. unfold call_handler.
    destruct (errChans w !! ch) as [c|] eqn:Hc; [|discriminate]. simpl.
    unfold gochan_send. destruct (cclosed c) eqn:Hcl; [discriminate|].
    case_decide; [|discriminate]. simpl. intros [= <-]. eauto. }
  destruct errPtr as [p|]; simpl; intros Hrun;
    destruct (Hcall _ Hrun) as (c & ? & ? & ? & ?); eauto 10.
Qed.

Lemma await_inv h ch w r w' :
  await h ch w = Ok (r, w') →
  ∃ c c', errChans w !! ch = Some c ∧
          gochan_recv c = Ok (r, c') ∧
          is_Some (handles w !! h) ∧
          w' = set_handles (handleIdx w) (delete h (handles w))
                 (set_errChans (<[ch := c']> (errChans w)) w).
Proof.
  unfold await. destruct (errChans w !! ch) as [c|] eqn:Hc; [|discriminate]. simpl.
  destruct (gochan_recv c) as [[r0 c']| |] eqn:Hrecv; [|discriminate..]. simpl.
  unfold Handle_Delete. simpl.
  destruct (handles w !! h) eqn:Hh; [|discriminate]. simpl.
  intros [= <- <-]. eauto 10.
Qed.

Lemma snoc_inv {A : Type} (tr : list A) (ev : A) (i : nat) (x : A) :
  (tr ++ [ev]) !! i = Some x → tr !! i = Some x ∨ (i = length tr ∧ x = ev).
Proof. rewrite lookup_snoc_Some. intros [[_ ?]|[? ?]]; auto. Qed.

Lemma waiting_ok_snoc b b' tid h ch ev :
  waiting_ok b tid h ch →
  br_trace b' = br_trace b ++ [ev] →
  handles (br_world b') !! h = handles (br_world b) !! h →
  errChans (br_world b') !! ch = errChans (br_world b) !! ch →
  (∀ e, ev ≠ EvCompleted h e) →
  waiting_ok b' tid h ch.
Proof.
  intros (Hh & j & Hj & Hst) Htr Hh' Hc' Hev. split; [by rewrite Hh'|].
  exists j. rewrite Htr, Hc'. split; [by apply lookup_app_l_Some|].
  destruct Hst as [[Hopen Hnone] | (k & e & Hdone & Hjk & Hk)]; [left|right].
  - split; [done|]. intros k e Hk. apply snoc_inv in Hk as [Hk | [_ Hk]].
    + by apply (Hnone k e).
    + by apply (Hev e).
  - exists k, e. split; [done|]. split; [done|]. by apply lookup_app_l_Some.
Qed.

Lemma returns_follow_snoc tr ev :
  returns_follow tr → (∀ tid r, ev ≠ EvReturned tid r) → returns_follow (tr ++ [ev]).
Proof.
  intros Hret Hev i tid r Hi. apply snoc_inv in Hi as [Hi | [_ Hi]].
  - destruct (Hret i tid r Hi) as (j & k & h & e & ? & ? & Hj & Hk & ?).
    exists j, k, h, e. repeat split; try done; by apply lookup_app_l_Some.
  - by destruct (Hev tid r).
Qed.

Lemma registered_once_snoc tr ev :
  registered_once tr →
  (∀ tid h, ev = EvRegistered tid h → ∀ j tid', tr !! j ≠ Some (EvRegistered tid' h)) →
  registered_once (tr ++ [ev]).
Proof.
  intros Hreg Hev j j' tid tid' h Hj Hj'.
  apply snoc_inv in Hj as [Hj | [-> Hj]]; apply snoc_inv in Hj' as [Hj' | [-> Hj']].
  - by apply (Hreg j j' tid tid' h).
  - symmetry in Hj'. by destruct (Hev _ _ Hj' j tid).
  - symmetry in Hj. by destruct (Hev _ _ Hj j' tid').
  - reflexivity.
Qed.

Lemma completed_once_snoc tr ev :
  completed_once tr →
  (∀ h e, ev = EvCompleted h e → ∀ k e', tr !! k ≠ Some (EvCompleted h e')) →
  completed_once (tr ++ [ev]).
Proof.
  intros Hc Hev k k' h e e' Hk Hk'.
  apply snoc_inv in Hk as [Hk | [-> Hk]]; apply snoc_inv in Hk' as [Hk' | [-> Hk']].
  - by apply (Hc k k' h e e').
  - symmetry in Hk'. by destruct (Hev _ _ Hk' k e).
  - symmetry in Hk. by destruct (Hev _ _ Hk k' e').
  - reflexivity.
Qed.

Lemma bridge_inv_rejected b e :
  bridge_inv b →
  bridge_inv {| br_world := br_world b; br_waiting := br_waiting b;
                br_next := S (br_next b);
                br_trace := br_trace b ++ [EvRejected (br_next b) e] |}.
Proof.
  intros [Hwait Hinj Hidx Htbl Hchan Hfunc Htid Hreg Hcomp Hreg1 Hcomp1 Hret].
  split; simpl; try done.
  - intros tid h ch Hw. eapply waiting_ok_snoc; [by apply Hwait|done..].
  - intros tid x Hw. apply Htid in Hw. lia.
  - intros j tid h Hj. apply snoc_inv in Hj as [Hj | [_ Hj]]; [by eapply Hreg|done].
  - intros k h e' Hk. apply snoc_inv in Hk as [Hk | [_ Hk]]; [by eapply Hcomp|done].
  - by apply registered_once_snoc.
  - by apply completed_once_snoc.
  - by apply returns_follow_snoc.
Qed.

Lemma registered_next w h ch w' :
  handleIdx w < uintptr_modulus → registered w h ch w' → h = handleIdx w + 1.
Proof.
  intros Hlt [_ Hh Hnz _ _ _ _].
  destruct (decide (handleIdx w + 1 = uintptr_modulus)) as [Heq|Hne].
  - exfalso. apply Hnz. rewrite Hh, Heq. apply N.Div0.mod_same.
  - rewrite N.mod_small in Hh by lia. exact Hh.
Qed.

Lemma bridge_inv_registered b h ch w' :
  bridge_inv b →
  registered (br_world b) h ch w' →
  bridge_inv {| br_world := w';
                br_waiting := <[br_next b := (h, ch)]> (br_waiting b);
                br_next := S (br_next b);
                br_trace := br_trace b ++ [EvRegistered (br_next b) h] |}.
Proof.
  intros [Hwait Hinj Hidx Htbl Hchan Hfunc Htid Hreg Hcomp Hreg1 Hcomp1 Hret] Hrg.
  pose proof (registered_next _ _ _ _ Hidx Hrg) as Hh.
  destruct Hrg as [Hch Hmod Hnz Hhandles Hidx' Hchans Hnext].
  assert (br_waiting b !! br_next b = None) as Hfresh.
  { destruct (br_waiting b !! br_next b) as [x|] eqn:Hx; [|done].
    apply Htid in Hx. lia. }
  assert (∀ tid h0 c0, br_waiting b !! tid = Some (h0, c0) → h0 ≠ h ∧ c0 ≠ ch) as Hold.
  { intros tid h0 c0 Hw. pose proof (Hchan _ _ _ Hw).
    destruct (Hwait _ _ _ Hw) as (Hh0 & _). apply Htbl in Hh0. lia. }
  split; simpl.
  - intros tid h0 c0. rewrite lookup_insert. case_decide as Htidq.
    + intros [= <- <-]. subst tid. split; simpl.
      * rewrite Hhandles. apply lookup_insert_eq.
      * exists (length (br_trace b)). split; [apply list_lookup_middle; done|].
        left. split; [rewrite Hchans; apply lookup_insert_eq|].
        intros k e Hk. apply snoc_inv in Hk as [Hk | [_ Hk]]; [|done].
        apply Hcomp in Hk. lia.
    + intros Hw. destruct (Hold _ _ _ Hw) as [Hne1 Hne2].
      eapply waiting_ok_snoc; [by apply Hwait|done| | |done]; simpl.
      * rewrite Hhandles. by rewrite lookup_insert_ne.
      * rewrite Hchans. by rewrite lookup_insert_ne.
  - intros t1 t2 h1 h2 c1 c2. rewrite !lookup_insert.
    repeat case_decide; subst; try done.
    + intros [= <- <-] Hw Heq. destruct (Hold _ _ _ Hw). destruct Heq; congruence.
    + intros Hw [= <- <-] Heq. destruct (Hold _ _ _ Hw). destruct Heq; congruence.
    + apply Hinj.
  - rewrite Hidx', Hh. destruct (decide (handleIdx (br_world b) + 1 = uintptr_modulus)) as [Heq|]; [|lia].
    exfalso. apply Hnz. rewrite Hmod, Heq. apply N.Div0.mod_same.
  - intros h0 val. rewrite Hhandles, Hidx', lookup_insert. case_decide; [lia|].
    intros Hh0. apply Htbl in Hh0. lia.
  - intros tid h0 c0. rewrite lookup_insert, Hnext. case_decide.
    + intros [= <- <-]. lia.
    + intros Hw. apply Hchan in Hw. lia.
  - intros h0 c0. rewrite Hhandles, lookup_insert. case_decide as Hq.
    + intros [= <-]. subst h0. exists (br_next b). apply lookup_insert_eq.
    + intros Hh0. destruct (Hfunc _ _ Hh0) as [tid Hw]. exists tid.
      rewrite lookup_insert_ne; [done|]. intros <-. by rewrite Hfresh in Hw.
  - intros tid x. rewrite lookup_insert. case_decide; [lia|].
    intros Hw. apply Htid in Hw. lia.
  - intros j tid h0 Hj. rewrite Hidx'.
    apply snoc_inv in Hj as [Hj | [_ [= -> ->]]]; [|lia].
    apply Hreg in Hj. lia.
  - intros k h0 e Hk. rewrite Hidx'.
    apply snoc_inv in Hk as [Hk | [_ Hk]]; [|done].
    apply Hcomp in Hk. lia.
  - apply registered_once_snoc; [done|].
    intros tid h0 [= <- <-] j tid' Hj. apply Hreg in Hj. lia.
  - by apply completed_once_snoc.
  - by apply returns_follow_snoc.
Qed.

Lemma bridge_inv_completed b h errPtr w' :
  bridge_inv b →
  virtualMachineCompletionHandler h errPtr (br_world b) = Ok w' →
  bridge_inv {| br_world := w'; br_waiting := br_waiting b; br_next := br_next b;
                br_trace := br_trace b ++ [EvCompleted h errPtr] |}.
Proof.
  intros [Hwait Hinj Hidx Htbl Hchan Hfunc Htid Hreg Hcomp Hreg1 Hcomp1 Hret] Hrun.
  apply completion_inv in Hrun as (ch & c & Hh & Hc & Hopen & Hroom & ->).
  destruct (Hfunc _ _ Hh) as [tid Hw].
  destruct (Hwait _ _ _ Hw) as (_ & j & Hj & Hst).
  destruct Hst as [[Hc0 Hnone] | (k & e & Hdone & _)].
  2:{ rewrite Hc in Hdone. injection Hdone as ->. discriminate. }
  rewrite Hc in Hc0. injection Hc0 as ->.
  split; simpl; try done.
  - intros tid2 h2 c2 Hw2.
    destruct (decide (tid2 = tid)) as [->|Hne].
    + rewrite Hw in Hw2. injection Hw2 as <- <-.
      split; simpl; [done|]. exists j. split; [by apply lookup_app_l_Some|].
      right. exists (length (br_trace b)), errPtr.
      split; [by rewrite lookup_insert_eq|].
      split; [by apply lookup_lt_Some in Hj|].
      by apply list_lookup_middle.
    + assert (h2 ≠ h ∧ c2 ≠ ch) as [Hh2 Hc2].
      { split; intros ->; apply Hne; eapply Hinj; eauto. }
      eapply waiting_ok_snoc; [by apply Hwait|done|done| |]; simpl.
      * by rewrite lookup_insert_ne.
      * intros e [= ?]. done.
  - intros j' tid' h' Hj'. apply snoc_inv in Hj' as [Hj' | [_ Hj']]; [by eapply Hreg|done].
  - intros k h' e Hk. apply snoc_inv in Hk as [Hk | [_ [= -> ->]]]; [by eapply Hcomp|].
    by eapply Htbl.
  - by apply registered_once_snoc.
  - apply completed_once_snoc; [done|].
    intros h' e [= <- <-] k e' Hk. by apply (Hnone k e').
  - by apply returns_follow_snoc.
Qed.

Lemma bridge_inv_returned b tid h ch r w' :
  bridge_inv b →
  br_waiting b !! tid = Some (h, ch) →
  await h ch (br_world b) = Ok (r, w') →
  bridge_inv {| br_world := w'; br_waiting := delete tid (br_waiting b);
                br_next := br_next b;
                br_trace := br_trace b ++ [EvReturned tid r] |}.
Proof.
  intros [Hwait Hinj Hidx Htbl Hchan Hfunc Htid Hreg Hcomp Hreg1 Hcomp1 Hret] Hw Hrun.
  apply await_inv in Hrun as (c & c' & Hc & Hrecv & _ & ->).
  destruct (Hwait _ _ _ Hw) as (Hh & j & Hj & Hst).
  destruct Hst as [[Hc0 _] | (k & e & Hdone & Hjk & Hk)].
  { rewrite Hc in Hc0. injection Hc0 as ->. discriminate. }
  rewrite Hc in Hdone. injection Hdone as ->.
  injection Hrecv as <- <-.
  assert (∀ tid2 h2 c2, tid2 ≠ tid → br_waiting b !! tid2 = Some (h2, c2) →
                        h2 ≠ h ∧ c2 ≠ ch) as Hother.
  { intros tid2 h2 c2 Hne Hw2. split; intros ->; apply Hne; eapply Hinj; eauto. }
  split; simpl.
  - intros tid2 h2 c2. rewrite lookup_delete. case_decide as Hq; [done|].
    intros Hw2. destruct (Hother _ _ _ (not_eq_sym Hq) Hw2) as [Hh2 Hc2].
    eapply waiting_ok_snoc; [by apply Hwait|done| | |done]; simpl.
    + by rewrite lookup_delete_ne.
    + by rewrite lookup_insert_ne.
  - intros t1 t2 h1 h2 c1 c2. rewrite !lookup_delete.
    repeat case_decide; try done. apply Hinj.
  - done.
  - intros h0 val. rewrite lookup_delete. case_decide; [done|]. apply Htbl.
  - intros tid2 h2 c2. rewrite lookup_delete. case_decide; [done|]. apply Hchan.
  - intros h0 c0. rewrite lookup_delete. case_decide as Hq; [done|].
    intros Hh0. destruct (Hfunc _ _ Hh0) as [tid2 Hw2]. exists tid2.
    rewrite lookup_delete_ne; [done|]. intros <-.
    rewrite Hw in Hw2. by injection Hw2.
  - intros tid2 x. rewrite lookup_delete. case_decide; [done|]. apply Htid.
  - intros j' tid' h' Hj'. apply snoc_inv in Hj' as [Hj' | [_ Hj']]; [by eapply Hreg|done].
  - intros k' h' e' Hk'. apply snoc_inv in Hk' as [Hk' | [_ Hk']]; [by eapply Hcomp|done].
  - by apply registered_once_snoc.
  - by apply completed_once_snoc.
  - intros i tid' r' Hi. apply snoc_inv in Hi as [Hi | [-> [= -> ->]]].
    + destruct (Hret i tid' r' Hi) as (j' & k' & h' & e' & ? & ? & Hj' & Hk' & ?).
      exists j', k', h', e'. repeat split; try done; by apply lookup_app_l_Some.
    + exists j, k, h, e. split; [done|]. split; [by apply lookup_lt_Some in Hk|].
      split; [by apply lookup_app_l_Some|]. split; [by apply lookup_app_l_Some|done].
Qed.

Lemma bridge_step_inv b b' : bridge_step b b' → bridge_inv b → bridge_inv b'.
Proof.
  intros Hstep Hinv. destruct Hstep as [b op v e w' Hcall | b op v h ch w' Hcall
                                        | b h errPtr w' Hrun | b tid h ch r w' Hw Hrun].
  - apply control_call_returned in Hcall as ->. by apply bridge_inv_rejected.
  - apply control_call_awaiting in Hcall. by apply bridge_inv_registered.
  - by apply bridge_inv_completed.
  - by eapply bridge_inv_returned.
Qed.

Lemma start_bridge_inv w :
  wf_handles w → no_handlers w → bridge_inv (start_bridge w).
Proof.
  intros Hwf Hnone. split; simpl; try done.
  - apply Hwf.
  - apply Hwf.
  - intros h ch Hh. by destruct (Hnone h ch).
Qed.

Lemma bridge_reach_inv w b :
  wf_handles w → no_handlers w →
  rtc bridge_step (start_bridge w) b → bridge_inv b.
Proof.
  intros Hwf Hnone. revert b. apply rtc_ind_r.
  - by apply start_bridge_inv.
  - intros b1 b2 _ Hstep IH. by eapply bridge_step_inv.
Qed.




Lemma br6_reachable : rtc bridge_step (start_bridge w_new) br6.
Proof.
  apply rtc_l with br1.
  { apply (step_registered br0 (OpStart []) 7 3 8). vm_compute. reflexivity. }
  apply rtc_l with br2.
  { apply (step_registered br1 OpPause 7 4 9). vm_compute. reflexivity. }
  apply rtc_l with br3.
  { apply (step_completed br2 4 (Some 9)). vm_compute. reflexivity. }
  apply rtc_l with br4.
  { apply (step_completed br3 3 None). vm_compute. reflexivity. }
  apply rtc_l with br5.
  { apply (step_returned br4 0%nat 3 8 None); vm_compute; reflexivity. }
  apply rtc_l with br6.
  { apply (step_returned br5 1%nat 4 9 (Some (ErrNS 9))); vm_compute; reflexivity. }
  apply rtc_refl.
Qed.


(** ** More on the completion bridge *)

Lemma bridge_frame_start w : bridge_frame w (start_bridge w).
Proof. split; simpl; try done; eauto. Qed.

Lemma bridge_frame_step w b b' :
  wf_handles w → bridge_inv b → bridge_frame w b → bridge_step b b' →
  bridge_frame w b'.
Proof.
  intros Hwf Hinv [Hkeep Honly Hidx Hnew Hcomp] Hstep.
  destruct Hstep as [b op v e w' Hcall | b op v h ch w' Hcall
                     | b h errPtr w' Hrun | b tid h ch r w' Hw Hrun].
  - apply control_call_returned in Hcall as ->. split; simpl; try done.
    intros k h e' Hk. apply snoc_inv in Hk as [Hk | [_ Hk]]; [by eapply Hcomp|done].
  - apply control_call_awaiting in Hcall.
    pose proof (registered_next _ _ _ _ (bi_idx _ Hinv) Hcall) as Hh.
    destruct Hcall as [_ _ _ Hhandles Hidx' _ _].
    assert (br_waiting b !! br_next b = None) as Hfresh.
    { destruct (br_waiting b !! br_next b) as [x|] eqn:Hx; [|done].
      apply (bi_tid _ Hinv) in Hx. lia. }
    split; simpl.
    + intros h0 val Hh0. rewrite Hhandles, lookup_insert_ne; [by apply Hkeep|].
      apply (wf_tbl _ Hwf) in Hh0. lia.
    + intros h0 val. rewrite Hhandles, lookup_insert. case_decide as Hq.
      * intros _. right. exists (br_next b), ch. subst h0. apply lookup_insert_eq.
      * intros Hh0. destruct (Honly _ _ Hh0) as [?|(tid & c & Hw)]; [by left|right].
        exists tid, c. rewrite lookup_insert_ne; [done|]. intros <-.
        by rewrite Hfresh in Hw.
    + rewrite Hidx'. lia.
    + intros tid h0 c0. rewrite lookup_insert. case_decide.
      * intros [= <- <-]. lia.
      * apply Hnew.
    + intros k h0 e Hk. apply snoc_inv in Hk as [Hk | [_ Hk]]; [|done].
      pose proof (bi_comp _ Hinv _ _ _ Hk) as Hle.
      destruct (Hcomp _ _ _ Hk) as [(tid & c & Hw)|Hnone]; [left|right].
      * exists tid, c. rewrite lookup_insert_ne; [done|]. intros <-.
        by rewrite Hfresh in Hw.
      * rewrite Hhandles, lookup_insert_ne; [done|]. lia.
  - apply completion_inv in Hrun as (ch & c & Hh & _ & _ & _ & ->).
    split; simpl; try done.
    intros k h0 e Hk. apply snoc_inv in Hk as [Hk | [_ [= -> ->]]]; [by eapply Hcomp|].
    left. destruct (bi_func _ Hinv _ _ Hh) as [tid Hw]. eauto.
  - apply await_inv in Hrun as (c & c' & _ & _ & _ & ->).
    pose proof (Hnew _ _ _ Hw) as Hgt.
    split; simpl.
    + intros h0 val Hh0. rewrite lookup_delete_ne; [by apply Hkeep|].
      apply (wf_tbl _ Hwf) in Hh0. lia.
    + intros h0 val. rewrite lookup_delete. case_decide as Hq; [done|].
      intros Hh0. destruct (Honly _ _ Hh0) as [?|(tid' & c0 & Hw')]; [by left|right].
      exists tid', c0. rewrite lookup_delete_ne; [done|]. intros <-.
      rewrite Hw in Hw'. by injection Hw'.
    + done.
    + intros tid' h0 c0. rewrite lookup_delete. case_decide; [done|]. apply Hnew.
    + intros k h0 e Hk. apply snoc_inv in Hk as [Hk | [_ Hk]]; [|done].
      destruct (Hcomp _ _ _ Hk) as [(tid' & c0 & Hw')|Hnone].
      * destruct (decide (tid' = tid)) as [->|Hne].
        -- right. rewrite Hw in Hw'. injection Hw' as <- <-. apply lookup_delete_eq.
        -- left. exists tid', c0. by rewrite lookup_delete_ne.
      * right. rewrite lookup_delete. by case_decide.
Qed.

Lemma bridge_reach_frame w b :
  wf_handles w → no_handlers w →
  rtc bridge_step (start_bridge w) b → bridge_frame w b.
Proof.
  intros Hwf Hnone. revert b. apply rtc_ind_r.
  - apply bridge_frame_start.
  - intros b1 b2 Hreach Hstep IH.
    eapply bridge_frame_step; [done| |done|done].
    by eapply bridge_reach_inv.
Qed.

(** X1: a completion handle fires at most once.  In every reachable state
    of the bridge, calling [virtualMachineCompletionHandler] again for a
    handle that was already completed panics, whatever error it carries:
    with "send on closed channel" while the method still waits, with an
    invalid-handle panic once the method has returned and deleted the
    handle. *)
Theorem completion_twice_panics (w : World) (b : Bridge) (k : nat) (h : Handle)
    (e e' : option N) :
  wf_handles w →
  no_handlers w →
  rtc bridge_step (start_bridge w) b →
  br_trace b !! k = Some (EvCompleted h e) →
  ∃ msg, virtualMachineCompletionHandler h e' (br_world b) = Panic msg.
Proof.
  intros Hwf Hnone Hreach Hk.
  pose proof (bridge_reach_inv _ _ Hwf Hnone Hreach) as Hinv.
  pose proof (bridge_reach_frame _ _ Hwf Hnone Hreach) as Hfr.
  unfold virtualMachineCompletionHandler, Handle_Value.
  destruct (bf_comp _ _ Hfr _ _ _ Hk) as [(tid & ch & Hw)|Hgone].
  - destruct (bi_wait _ Hinv _ _ _ Hw) as (Hh & j & _ & Hst). rewrite Hh. simpl.
    destruct Hst as [[_ Hnot] | (k0 & e0 & Hdone & _)]; [by destruct (Hnot k e)|].
    unfold call_handler. rewrite Hdone. simpl.
    destruct (newNSError e'); simpl; eauto.
  - rewrite Hgone. simpl. eauto.
Qed.

Lemma completion_twice_panics_witness :
  ∃ msg, virtualMachineCompletionHandler 4 (Some 5) (br_world br6) = Panic msg.
Proof.
  apply (completion_twice_panics w_new br6 2 4 (Some 9) (Some 5)
           (proj1 w_new_wf) (proj2 w_new_wf) br6_reachable).
  reflexivity.
Defined.

(** X2: the bridge leaks no handle.  Whenever no control method is waiting,
    the handle table is exactly the one the run started with: every handle
    a method registered was deleted when that method returned, and no
    handle of anything else was touched. *)
Theorem bridge_leaves_no_handle (w : World) (b : Bridge) :
  wf_handles w →
  no_handlers w →
  rtc bridge_step (start_bridge w) b →
  br_waiting b = ∅ →
  handles (br_world b) = handles w.
Proof.
  intros Hwf Hnone Hreach Hquiet.
  destruct (bridge_reach_frame _ _ Hwf Hnone Hreach) as [Hkeep Honly _ _ _].
  apply map_eq. intros h.
  destruct (handles w !! h) as [val|] eqn:Hw; [by apply Hkeep|].
  destruct (handles (br_world b) !! h) as [val|] eqn:Hb; [|done].
  destruct (Honly _ _ Hb) as [Hin|(tid & ch & Hwait)]; [congruence|].
  rewrite Hquiet, lookup_empty in Hwait. discriminate.
Qed.

Lemma bridge_leaves_no_handle_witness :
  handles (br_world br6) = handles w_new.
Proof.
  apply (bridge_leaves_no_handle w_new br6
           (proj1 w_new_wf) (proj2 w_new_wf) br6_reachable).
  vm_compute. reflexivity.
Defined.

(** ** More on the disconnect pipeline *)

(** X3: the pipeline loses nothing and keeps the order.  Under any
    interleaving (with the foreign contract kept), the errors already
    received, followed by those waiting in the public channel, followed by
    the enriched events still in stage 1, are exactly the enriched events
    emitted so far, in emit order: this includes events emitted before the
    first subscription.  An event carries the error as the emit callback
    stored it: for a nil NSError pointer that is the nil [*NSError] held in
    an [error], which is not the nil error.  When the public channel is
    closed, stage 1 is empty. *)
Theorem disconnect_pipeline_lossless (w : World) (v : loc) (vm : VirtualMachine)
    (sh dh : Handle) (acts : list PipeAction) :
  fresh_vm w v vm sh dh →
  running v w = 0%nat →
  spawned v w = 0%nat →
  compliant false acts →
  ∃ r pin pout inc outc,
    pipe_run v dh acts (start_pipe w) = Ok r ∧
    inChans (pr_world r) !! disconnectedIn vm = Some {| buffer := pin; inClosed := inc |} ∧
    outChans (pr_world r) !! disconnectedOut vm = Some {| buffer := pout; inClosed := outc |} ∧
    pr_got r ++ pout ++ map (enrich (networkDeviceConfiguration (config vm))) pin
      = map (enrich (networkDeviceConfiguration (config vm))) (flat_map emitted_by acts) ∧
    (outc = true → pin = []).
Proof.
  intros Hfresh Hrun0 Hsp0 Hok.
  pose proof (start_pipe_inv _ _ _ _ _ Hfresh Hrun0 Hsp0) as Hinv0.
  destruct (pipe_run_inv v dh vm _ acts _ _ _ _ _ Hinv0 Hok)
    as (r & ph & Hrun & Hinv & _).
  destruct Hinv as [once pin pout oclosed Hvm Hh Hin Hout Hlog Hchan Hos Hsub Hph].
  exists r, pin, pout, (false || existsb is_PClose acts), oclosed.
  split; [exact Hrun|]. split; [exact Hin|]. split; [exact Hout|].
  split; [exact Hlog|].
  intros ->. destruct ph; simpl in Hph.
  - by destruct Hph as (_ & _ & _ & ?).
  - by destruct Hph as (_ & _ & _ & ?).
  - by destruct Hph as (_ & _ & _ & _ & _ & ?).
Qed.

Lemma disconnect_pipeline_lossless_witness :
  ∃ r pin pout,
    pipe_run 7 2 [PEmit 1 (Some 40); PSubscribe; PWork; PReceive; PEmit 7 None; PWork]
      (start_pipe w_new) = Ok r ∧
    pr_got r ++ pout ++ map (enrich [Some 100; Some 101]) pin
      = [ {| Err := Some (ErrNS 40); Config := Some 101 |};
          {| Err := Some ErrNilNSError; Config := None |} ].
Proof.
  destruct (disconnect_pipeline_lossless w_new 7 vm_new 1 2
              [PEmit 1 (Some 40); PSubscribe; PWork; PReceive; PEmit 7 None; PWork]
              w_new_fresh)
    as (r & pin & pout & inc & outc & Hrun & _ & _ & Hlog & _).
  - vm_compute. reflexivity.
  - vm_compute. reflexivity.
  - simpl. auto.
  - exists r, pin, pout. split; [exact Hrun | exact Hlog].
Defined.

(** ** More on teardown and the window *)

(** X4: what the registered finalizer releases.  On a VM that was not
    finalized, the finalizer deletes the window token (if any) and the state
    handle, and nothing else of the handle table: the disconnect handle
    stays registered.  Afterwards a state callback for the old state handle
    panics, and so does a window-closed callback for the old window token. *)
Theorem finalizer_releases (w : World) (v : loc) (vm : VirtualMachine)
    (sh : Handle) (ms : loc) (s : Z) :
  vms w !! v = Some vm →
  finalizeOnce vm = false →
  windowClosedHandle vm = 0 ∨
    handles w !! windowClosedHandle vm = Some (VVirtualMachine v) →
  handles w !! sh = Some (VMachineState ms) →
  ∃ w', vm_finalizer v sh w = Ok w' ∧
        handles w' = delete sh (if decide (windowClosedHandle vm = 0) then handles w
                                else delete (windowClosedHandle vm) (handles w)) ∧
        (∀ h, h ≠ sh → h ≠ windowClosedHandle vm → handles w' !! h = handles w !! h) ∧
        (∃ msg, changeStateOnObserver s sh w' = Panic msg) ∧
        (windowClosedHandle vm ≠ 0 →
         ∃ msg, notifyWindowClosed (windowClosedHandle vm) w' = Panic msg).
Proof.
  intros Hvm Hfin Htok Hsh.
  assert (sh ≠ windowClosedHandle vm ∨ windowClosedHandle vm = 0) as Hne.
  { destruct Htok as [?|Ht]; [by right|left]. intros Heq. rewrite Heq in Hsh. congruence. }
  destruct (finalize_first w v vm Hvm Hfin) as (w1 & Hrun & _ & Hh1 & _).
  { destruct Htok as [?|Ht]; [by left|right]. by rewrite Ht. }
  assert (handles w1 !! sh = Some (VMachineState ms)) as Hsh1.
  { rewrite Hh1. case_decide as Hz; [done|].
    rewrite lookup_delete_ne; [done|]. by destruct Hne. }
  unfold vm_finalizer. rewrite Hrun. simpl.
  unfold Handle_Delete. rewrite Hsh1. simpl.
  eexists. split; [reflexivity|]. simpl. rewrite Hh1.
  split; [reflexivity|]. split; [|split].
  - intros h Hh Ht. rewrite lookup_delete_ne by done.
    case_decide; [done|]. by rewrite lookup_delete_ne.
  - unfold changeStateOnObserver, Handle_Value. simpl.
    rewrite lookup_delete_eq. simpl. eauto.
  - intros Hnz. unfold notifyWindowClosed, Handle_Value. simpl.
    rewrite !decide_False by done.
    destruct (decide (sh = windowClosedHandle vm)) as [<-|Hd].
    + rewrite lookup_delete_eq. simpl. eauto.
    + rewrite lookup_delete_ne by done. rewrite lookup_delete_eq. simpl. eauto.
Qed.

Lemma finalizer_releases_witness :
  ∃ w', vm_finalizer 7 1 w_gui = Ok w' ∧
        handles w' !! 2 = handles w_gui !! 2 ∧
        (∃ msg, changeStateOnObserver 4 1 w' = Panic msg) ∧
        (∃ msg, notifyWindowClosed 3 w' = Panic msg).
Proof.
  destruct (finalizer_releases w_gui 7
              (with_windowClosedHandle 3 (with_hasGUIWindow true vm_new)) 1 3 4)
    as (w' & Hrun & _ & Hkeep & Hstate & Hclosed).
  - vm_compute. reflexivity.
  - reflexivity.
  - right. vm_compute. reflexivity.
  - vm_compute. reflexivity.
  - exists w'. split; [exact Hrun|]. split; [apply Hkeep; discriminate|].
    split; [exact Hstate|]. apply Hclosed. discriminate.
Defined.

(** X5: [finalize] deletes only the token of the last window.  After two
    successful [StartGraphicApplication] calls on a VM and its teardown, the
    token of the first call is still registered for the VM (it is never
    deleted), the token of the second call is gone, and the two differ. *)
Theorem earlier_window_token_survives (w w1 w2 : World) (v : loc)
    (vm1 vm2 : VirtualMachine) (width1 height1 width2 height2 : float)
    (opts1 opts2 : list StartGraphicApplicationOption) :
  wf_handles w →
  StartGraphicApplication v width1 height1 opts1 w = Ok (None, w1) →
  vms w1 !! v = Some vm1 →
  StartGraphicApplication v width2 height2 opts2 w1 = Ok (None, w2) →
  vms w2 !! v = Some vm2 →
  finalizeOnce vm2 = false →
  ∃ w3, finalize v w2 = Ok w3 ∧
        windowClosedHandle vm1 ≠ windowClosedHandle vm2 ∧
        handles w3 !! windowClosedHandle vm1 = Some (VVirtualMachine v) ∧
        handles w3 !! windowClosedHandle vm2 = None.
Proof.
  intros Hwf H1 Hvm1 H2 Hvm2 Hfin.
  apply StartGraphicApplication_inv in H1 as (vm0 & o1 & h1 & wa & _ & _ & Hvm0 & Hn1 & ->).
  pose proof (NewHandle_wf _ _ _ _ Hwf Hn1) as Hwfa.
  apply NewHandle_next in Hn1 as (Hh1 & Hlt1 & ->); [|apply Hwf].
  simpl in Hvm1. rewrite lookup_insert_eq in Hvm1. injection Hvm1 as <-.
  apply StartGraphicApplication_inv in H2 as (vmb & o2 & h2 & wb & _ & _ & Hvmb & Hn2 & ->).
  apply NewHandle_next in Hn2 as (Hh2 & Hlt2 & ->); [|done]. simpl in Hh2.
  simpl in Hvm2. rewrite lookup_insert_eq in Hvm2. injection Hvm2 as <-.
  assert (h1 ≠ h2) as Hne by lia.
  match goal with |- ∃ w3, finalize v ?W = _ ∧ _ =>
    destruct (finalize_first W v
                (with_windowClosedHandle h2 (with_hasGUIWindow true vmb)))
      as (w3 & Hrun & _ & Hh3 & _)
  end.
  { simpl. apply lookup_insert_eq. }
  { exact Hfin. }
  { right. simpl. rewrite lookup_insert_eq. eauto. }
  exists w3. split; [exact Hrun|]. split; [done|].
  rewrite Hh3. simpl. rewrite decide_False by lia.
  split.
  - rewrite lookup_delete_ne by done. rewrite lookup_insert_ne by done.
    apply lookup_insert_eq.
  - apply lookup_delete_eq.
Qed.

Lemma earlier_window_token_survives_witness :
  ∃ w3, finalize 7 w_gui2 = Ok w3 ∧
        (3 : N) ≠ 4 ∧
        handles w3 !! 3 = Some (VVirtualMachine 7) ∧
        handles w3 !! 4 = None.
Proof.
  apply (earlier_window_token_survives w_new w_gui w_gui2 7
           (with_windowClosedHandle 3 (with_hasGUIWindow true vm_new))
           (with_windowClosedHandle 4 (with_hasGUIWindow true
              (with_windowClosedHandle 3 (with_hasGUIWindow true vm_new))))
           800 600 1024 768 [] []).
  - exact (proj1 w_new_wf).
  - vm_compute. reflexivity.
  - vm_compute. reflexivity.
  - vm_compute. reflexivity.
  - vm_compute. reflexivity.
  - reflexivity.
Defined.

(** ** More on the window *)

Lemma boot_window_inv os : window_inv (boot os).
Proof.
  split; [apply boot_wf| |]; intros v vm; simpl; by rewrite lookup_empty.
Qed.

Lemma window_inv_frame w w' :
  window_inv w → handles w' = handles w → handleIdx w' = handleIdx w →
  vms w' = vms w → window_inv w'.
Proof.
  intros [[Hidx Htbl Htok] Ht Hf] Hh Hi Hv. split; [split|..].
  - by rewrite Hi.
  - rewrite Hh, Hi. exact Htbl.
  - rewrite Hv, Hi. exact Htok.
  - rewrite Hv, Hh. exact Ht.
  - rewrite Hv. exact Hf.
Qed.

Lemma window_inv_flag w w' v vm b :
  window_inv w → vms w !! v = Some vm → (b = true → windowClosedHandle vm ≠ 0) →
  handles w' = handles w → handleIdx w' = handleIdx w →
  vms w' = <[v := with_hasGUIWindow b vm]> (vms w) → window_inv w'.
Proof.
  intros [[Hidx Htbl Htok] Ht Hf] Hvm Hb Hh Hi Hv. split; [split|..].
  - by rewrite Hi.
  - rewrite Hh, Hi. exact Htbl.
  - rewrite Hv, Hi. intros u vmu. rewrite lookup_insert. case_decide as Hu.
    + subst u. intros [= <-]. simpl. by apply (Htok v).
    + apply Htok.
  - rewrite Hv, Hh. intros u vmu. rewrite lookup_insert. case_decide as Hu.
    + subst u. intros [= <-]. simpl. by apply Ht.
    + apply Ht.
  - rewrite Hv. intros u vmu. rewrite lookup_insert. case_decide as Hu.
    + subst u. intros [= <-]. simpl. exact Hb.
    + apply Hf.
Qed.

Lemma window_inv_NewHandle w val h w' :
  window_inv w → NewHandle val w = Ok (h, w') → window_inv w'.
Proof.
  intros Hinv Hnew. pose proof (NewHandle_wf _ _ _ _ (wi_wf _ Hinv) Hnew) as Hwf.
  pose proof (NewHandle_fresh _ _ _ _ (wi_wf _ Hinv) Hnew) as Hfresh.
  apply NewHandle_inv in Hnew as (_ & _ & ->).
  split; [exact Hwf|..]; simpl.
  - intros v vm Hvm Hnz. rewrite lookup_insert_ne.
    + by apply (wi_token _ Hinv).
    + intros Heq. rewrite Heq, (wi_token _ Hinv _ _ Hvm Hnz) in Hfresh. discriminate.
  - apply (wi_flag _ Hinv).
Qed.

Lemma StartGraphicApplication_refused v width height opts w e w' :
  StartGraphicApplication v width height opts w = Ok (Some e, w') → w' = w.
Proof.
  unfold StartGraphicApplication.
  destruct (macOSAvailable 12 w); [by intros [= _ <-]|].
  destruct (apply_options opts _) as [o [e0|]]; [by intros [= _ <-]|].
  destruct (vms w !! v) as [vm|]; [|discriminate]. simpl.
  destruct (NewHandle _ _) as [[h w1]| |]; [|discriminate..]. simpl.
  unfold store_vm at 1. simpl. rewrite lookup_insert_eq. simpl. discriminate.
Qed.

Lemma BringWindowToFront_frame v w e w' :
  BringWindowToFront v w = Ok (e, w') →
  handles w' = handles w ∧ handleIdx w' = handleIdx w.
Proof.
  unfold BringWindowToFront. destruct (macOSAvailable 12 w); [by intros [= <- <-]|].
  destruct (vms w !! v) as [vm|]; [|discriminate]. simpl.
  destruct (hasGUIWindow vm); simpl; [|by intros [= <- <-]].
  destruct (windowLive w); simpl; by intros [= <- <-].
Qed.

Lemma HasGUIWindow_frame v w b w' :
  HasGUIWindow v w = Ok (b, w') →
  handles w' = handles w ∧ handleIdx w' = handleIdx w.
Proof.
  unfold HasGUIWindow. destruct (vms w !! v) as [vm|]; [|discriminate]. simpl.
  destruct (hasGUIWindow vm); by intros [= <- <-].
Qed.

Lemma NewVirtualMachine_window_inv cfg uuid w r w' :
  window_inv w → NewVirtualMachine cfg uuid w = Ok (r, w') → window_inv w'.
Proof.
  intros Hinv. unfold NewVirtualMachine.
  destruct (macOSAvailable 11 w); [by intros [= _ <-]|]. simpl.
  match goal with |- context [NewHandle ?val ?w0] =>
    destruct (NewHandle val w0) as [[sh w1]| |] eqn:Hsh; [|discriminate..]
  end. simpl.
  match goal with |- context [NewHandle ?val ?w0] =>
    destruct (NewHandle val w0) as [[dh w2]| |] eqn:Hdh; [|discriminate..]
  end. simpl.
  intros [= _ <-].
  apply window_inv_NewHandle in Hsh; [|by eapply window_inv_frame].
  apply window_inv_NewHandle in Hdh; [|by eapply window_inv_frame].
  destruct Hdh as [[Hidx Htbl Htok] Ht Hf]. split; [split|..]; simpl.
  - exact Hidx.
  - exact Htbl.
  - intros u vmu. rewrite lookup_insert. case_decide.
    + intros [= <-]. simpl. lia.
    + apply Htok.
  - intros u vmu. rewrite lookup_insert. case_decide.
    + by intros [= <-].
    + apply Ht.
  - intros u vmu. rewrite lookup_insert. case_decide.
    + by intros [= <-].
    + apply Hf.
Qed.

Lemma StartGraphicApplication_window_inv v width height opts w w' :
  window_inv w → StartGraphicApplication v width height opts w = Ok (None, w') →
  window_inv w'.
Proof.
  intros Hinv Hrun.
  apply StartGraphicApplication_inv in Hrun as (vm & o & h & w1 & _ & _ & Hvm & Hnew & ->).
  pose proof (NewHandle_wf _ _ _ _ (wi_wf _ Hinv) Hnew) as [Hidx Htbl Htok].
  pose proof (NewHandle_fresh _ _ _ _ (wi_wf _ Hinv) Hnew) as Hfresh.
  apply NewHandle_inv in Hnew as (_ & Hnz & ->). simpl in *.
  split; [split|..]; simpl.
  - exact Hidx.
  - exact Htbl.
  - intros u vmu. rewrite lookup_insert. case_decide.
    + intros [= <-]. simpl. lia.
    + apply Htok.
  - intros u vmu. rewrite lookup_insert. case_decide as Hu.
    + subst u. intros [= <-]. simpl. intros _. apply lookup_insert_eq.
    + intros Hvmu Hnzu. rewrite lookup_insert_ne.
      * by apply (wi_token _ Hinv).
      * intros Heq. rewrite Heq, (wi_token _ Hinv _ _ Hvmu Hnzu) in Hfresh. discriminate.
  - intros u vmu. rewrite lookup_insert. case_decide.
    + by intros [= <-].
    + apply (wi_flag _ Hinv).
Qed.

Lemma window_op_inv op w w' :
  window_inv w → window_op op w = Ok w' → window_inv w'.
Proof.
  intros Hinv. destruct op as [cfg uuid|v width height opts|v|v|v|token]; simpl.
  - destruct (NewVirtualMachine cfg uuid w) as [[r w1]| |] eqn:Hrun; [|discriminate..].
    simpl. intros [= <-]. by eapply NewVirtualMachine_window_inv.
  - destruct (StartGraphicApplication v width height opts w) as [[[e|] w1]| |] eqn:Hrun;
      [| |discriminate..]; simpl; intros [= <-].
    + by apply StartGraphicApplication_refused in Hrun as ->.
    + by eapply StartGraphicApplication_window_inv.
  - destruct (ShowWindow v w) as [[e w1]| |] eqn:Hrun; [|discriminate..].
    simpl. intros [= <-].
    apply ShowWindow_inv in Hrun
      as [(_ & _ & ->)|(vm & _ & Hvm & [(_ & -> & _)|(Hnz & _ & ->)])]; try done.
    by eapply (window_inv_flag w _ v vm true).
  - destruct (BringWindowToFront v w) as [[e w1]| |] eqn:Hrun; [|discriminate..].
    simpl. intros [= <-].
    pose proof (BringWindowToFront_vms _ _ _ _ Hrun).
    apply BringWindowToFront_frame in Hrun as [? ?]. by eapply window_inv_frame.
  - destruct (HasGUIWindow v w) as [[e w1]| |] eqn:Hrun; [|discriminate..].
    simpl. intros [= <-].
    pose proof (HasGUIWindow_vms _ _ _ _ Hrun).
    apply HasGUIWindow_frame in Hrun as [? ?]. by eapply window_inv_frame.
  - intros Hrun. apply notifyWindowClosed_inv in Hrun as [->|(p & vm & Hvm & ->)];
      [done|].
    by eapply (window_inv_flag w _ p vm false).
Qed.

Lemma window_ops_inv ops w w' :
  window_inv w → window_ops ops w = Ok w' → window_inv w'.
Proof.
  revert w. induction ops as [|op ops IH]; intros w Hinv; simpl.
  - by intros [= <-].
  - destruct (window_op op w) as [w1| |] eqn:Hop; [|discriminate..]. simpl.
    apply IH. by eapply window_op_inv.
Qed.

(** X6: an open window can always be closed.  After any sequence of VM
    creations, window starts (also repeated ones, and refused ones), shows,
    raises, queries and window-closed callbacks that runs without a panic
    (from a world in which every stored token is registered for its VM, as
    in the empty first world, and with no teardown in between), a VM whose
    [hasGUIWindow] is set holds a token that
    is registered for that very VM: the window-closed callback for that
    token returns, clears the flag of that VM and of no other, and leaves the
    handle table as it is. *)
Theorem open_window_token_resolves (ops : list WindowOp) (w w' : World)
    (v : loc) (vm : VirtualMachine) :
  window_inv w →
  window_ops ops w = Ok w' →
  vms w' !! v = Some vm →
  hasGUIWindow vm = true →
  handles w' !! windowClosedHandle vm = Some (VVirtualMachine v) ∧
  notifyWindowClosed (windowClosedHandle vm) w'
    = Ok (store_vm v (with_hasGUIWindow false vm) w').
Proof.
  intros Hinv Hrun Hvm Hflag.
  apply (window_ops_inv _ _ _ Hinv) in Hrun as Hinv'.
  pose proof (wi_flag _ Hinv' _ _ Hvm Hflag) as Hnz.
  pose proof (wi_token _ Hinv' _ _ Hvm Hnz) as Htok.
  split; [exact Htok|].
  unfold notifyWindowClosed, Handle_Value. rewrite decide_False by done.
  rewrite Htok. simpl. by rewrite Hvm.
Qed.

Lemma open_window_token_resolves_witness :
  ∃ w' vm,
    window_ops [WNew cfg2 "vm"; WStart 7 800 600 []; WClosed 3;
                WStart 7 1024 768 []; WBring 7; WClosed 4; WShow 7] (boot 12) = Ok w' ∧
    vms w' !! 7 = Some vm ∧
    handles w' !! windowClosedHandle vm = Some (VVirtualMachine 7) ∧
    notifyWindowClosed (windowClosedHandle vm) w'
      = Ok (store_vm 7 (with_hasGUIWindow false vm) w').
Proof.
  eexists _, _. split; [vm_compute; reflexivity|]. split; [vm_compute; reflexivity|].
  apply (open_window_token_resolves
           [WNew cfg2 "vm"; WStart 7 800 600 []; WClosed 3;
            WStart 7 1024 768 []; WBring 7; WClosed 4; WShow 7] (boot 12)).
  - apply boot_window_inv.
  - vm_compute. reflexivity.
  - vm_compute. reflexivity.
  - reflexivity.
Defined.

(** ** Tokens of the wrong kind *)

(** X7: a callback given the token of another kind of object.  With the
    handles of a newly created VM: the state callback and the completion
    callback panic on the disconnect handle, the two disconnect callbacks
    panic on the state handle, and only the window-closed callback tolerates
    a token that is not a VM's: it returns and changes nothing. *)
Theorem callbacks_on_foreign_tokens (w : World) (v : loc) (vm : VirtualMachine)
    (sh dh : Handle) (s idx : Z) (errPtr : option N) :
  fresh_vm w v vm sh dh →
  (∃ msg, changeStateOnObserver s dh w = Panic msg) ∧
  (∃ msg, virtualMachineCompletionHandler dh errPtr w = Panic msg) ∧
  (∃ msg, emitAttachmentWasDisconnected idx errPtr sh w = Panic msg) ∧
  (∃ msg, closeAttachmentWasDisconnectedChannel sh w = Panic msg) ∧
  notifyWindowClosed sh w = Ok w ∧
  notifyWindowClosed dh w = Ok w.
Proof.
  intros [_ _ _ _ _ Hsh Hdh _ _ _].
  unfold changeStateOnObserver, virtualMachineCompletionHandler,
    emitAttachmentWasDisconnected, closeAttachmentWasDisconnectedChannel,
    notifyWindowClosed, Handle_Value.
  rewrite Hsh, Hdh. simpl.
  repeat split; eauto; by case_decide.
Qed.

Lemma callbacks_on_foreign_tokens_witness :
  (∃ msg, changeStateOnObserver 1 2 w_new = Panic msg) ∧
  (∃ msg, virtualMachineCompletionHandler 2 None w_new = Panic msg) ∧
  (∃ msg, emitAttachmentWasDisconnected 0 None 1 w_new = Panic msg) ∧
  (∃ msg, closeAttachmentWasDisconnectedChannel 1 w_new = Panic msg) ∧
  notifyWindowClosed 1 w_new = Ok w_new ∧
  notifyWindowClosed 2 w_new = Ok w_new.
Proof.
  exact (callbacks_on_foreign_tokens w_new 7 vm_new 1 2 1 0 None w_new_fresh).
Defined.

(** ** Options *)

Lemma apply_options_app {O : Type} (pre rest : list (O -> O * option error))
    (o o1 : O) :
  apply_options pre o = (o1, None) →
  apply_options (pre ++ rest) o = apply_options rest o1.
Proof.
  revert o. induction pre as [|opt pre IH]; intros o; simpl.
  - by intros [= <-].
  - destruct (opt o) as [o' [e|]]; [discriminate|]. apply IH.
Qed.

(** X8: a failing option stops the call before anything is set up.  When
    the options before it succeed and one option reports an error, the loop
    over the options ends there: whatever options follow, it yields the
    options as the failing one left them, with its error, so the options
    after it are not applied.  [StartGraphicApplication] and [Start] return
    that error and the world is untouched: no handle is registered, no flag
    is set, no foreign call is made. *)
Theorem failing_option_stops_call (w : World) (v : loc) (width height : float)
    (pre post : list StartGraphicApplicationOption) (opt : StartGraphicApplicationOption)
    (o1 o2 : startGraphicApplicationOptions)
    (spre spost : list VirtualMachineStartOption) (sopt : VirtualMachineStartOption)
    (s1 s2 : virtualMachineStartOptions) (e e' : error) :
  macOSAvailable 12 w = None →
  apply_options pre defaultOpts = (o1, None) →
  opt o1 = (o2, Some e) →
  apply_options spre {| macOSVirtualMachineStartOptionsPtr := None |} = (s1, None) →
  sopt s1 = (s2, Some e') →
  apply_options (pre ++ opt :: post) defaultOpts = (o2, Some e) ∧
  apply_options (spre ++ sopt :: spost) {| macOSVirtualMachineStartOptionsPtr := None |}
    = (s2, Some e') ∧
  StartGraphicApplication v width height (pre ++ opt :: post) w = Ok (Some e, w) ∧
  Start_call v (spre ++ sopt :: spost) w = Ok (Returned (Some e'), w).
Proof.
  intros Hos Hpre Hopt Hspre Hsopt.
  assert (apply_options (pre ++ opt :: post) defaultOpts = (o2, Some e)) as Hall.
  { rewrite (apply_options_app _ _ _ _ Hpre). simpl. by rewrite Hopt. }
  assert (apply_options (spre ++ sopt :: spost)
            {| macOSVirtualMachineStartOptionsPtr := None |} = (s2, Some e')) as Hsall.
  { rewrite (apply_options_app _ _ _ _ Hspre). simpl. by rewrite Hsopt. }
  split; [exact Hall|]. split; [exact Hsall|]. split.
  - unfold StartGraphicApplication. rewrite Hos. fold defaultOpts. by rewrite Hall.
  - unfold Start_call. by rewrite Hsall.
Qed.

Lemma failing_option_stops_call_witness :
  apply_options
    ([WithWindowTitle "a"] ++ (λ o, (o, Some (Errorf "bad option")))
       :: [WithWindowTitle "b"; WithController true]) defaultOpts
    = ({| title := "a"; enableController := false; confirmStopOnClose := true |},
       Some (Errorf "bad option")) ∧
  apply_options
    ([] ++ (λ o, (o, Some (Errorf "bad start option")))
       :: [λ _, ({| macOSVirtualMachineStartOptionsPtr := Some 9 |}, None)])
    {| macOSVirtualMachineStartOptionsPtr := None |}
    = ({| macOSVirtualMachineStartOptionsPtr := None |},
       Some (Errorf "bad start option")) ∧
  StartGraphicApplication 7 800 600
    ([WithWindowTitle "a"] ++ (λ o, (o, Some (Errorf "bad option")))
       :: [WithWindowTitle "b"; WithController true]) w_new
    = Ok (Some (Errorf "bad option"), w_new) ∧
  Start_call 7
    ([] ++ (λ o, (o, Some (Errorf "bad start option")))
       :: [λ _, ({| macOSVirtualMachineStartOptionsPtr := Some 9 |}, None)]) w_new
    = Ok (Returned (Some (Errorf "bad start option")), w_new).
Proof.
  apply (failing_option_stops_call w_new 7 800 600
           [WithWindowTitle "a"] [WithWindowTitle "b"; WithController true]
           (λ o, (o, Some (Errorf "bad option")))
           {| title := "a"; enableController := false; confirmStopOnClose := true |}
           {| title := "a"; enableController := false; confirmStopOnClose := true |}
           [] [λ _, ({| macOSVirtualMachineStartOptionsPtr := Some 9 |}, None)]
           (λ o, (o, Some (Errorf "bad start option")))
           {| macOSVirtualMachineStartOptionsPtr := None |}
           {| macOSVirtualMachineStartOptionsPtr := None |}).
  - vm_compute. reflexivity.
  - reflexivity.
  - reflexivity.
  - reflexivity.
  - reflexivity.
Defined.

Lemma apply_options_builtin (os : list GraphicOption)
    (o : startGraphicApplicationOptions) :
  apply_options (map graphic_option os) o
  = ({| title := chosen_title (title o) os;
        enableController := chosen_controller (enableController o) os;
        confirmStopOnClose := chosen_confirm (confirmStopOnClose o) os |}, None).
Proof.
  revert o. induction os as [|[t|b|b] os IH]; intros o; simpl.
  - by destruct o.
  - by rewrite IH.
  - by rewrite IH.
  - by rewrite IH.
Qed.

(** X9: the options of this package never fail, and the last one of a kind
    wins.  With any list of [WithWindowTitle], [WithController] and
    [WithConfirmStopOnClose] options, on macOS 12 or later and with handle
    space left, [StartGraphicApplication] succeeds, and the window is
    requested with the title, controller setting and confirm setting given
    last, or with "", false and true where none was given, together with
    the token it registered. *)
Theorem builtin_options_last_wins (w : World) (v : loc) (vm : VirtualMachine)
    (width height : float) (os : list GraphicOption) :
  macOSAvailable 12 w = None →
  vms w !! v = Some vm →
  handleIdx w + 1 < uintptr_modulus →
  ∃ w', StartGraphicApplication v width height (map graphic_option os) w = Ok (None, w') ∧
        calls w' = calls w ++
          [C_startVirtualMachineWindow (pointer vm) (dispatchQueue vm) width height
             (chosen_title "" os) (chosen_controller false os)
             (handleIdx w + 1) (chosen_confirm true os)] ∧
        handles w' !! (handleIdx w + 1) = Some (VVirtualMachine v).
Proof.
  intros Hos Hvm Hroom.
  unfold StartGraphicApplication. rewrite Hos, apply_options_builtin, Hvm. simpl.
  unfold NewHandle. rewrite N.mod_small by exact Hroom.
  rewrite decide_False by lia. simpl.
  unfold store_vm at 1. simpl. rewrite lookup_insert_eq. simpl.
  eexists. split; [reflexivity|]. simpl. split; [reflexivity|].
  apply lookup_insert_eq.
Qed.

Lemma builtin_options_last_wins_witness :
  ∃ w', StartGraphicApplication 7 960 600
          (map graphic_option
             [OptWindowTitle "first"; OptController true; OptWindowTitle "second";
              OptConfirmStopOnClose false; OptController false]) w_new = Ok (None, w') ∧
        calls w' = calls w_new ++
          [C_startVirtualMachineWindow 6 1 960 600 "second" false 3 false] ∧
        handles w' !! 3 = Some (VVirtualMachine 7).
Proof.
  apply (builtin_options_last_wins w_new 7 vm_new 960 600
           [OptWindowTitle "first"; OptController true; OptWindowTitle "second";
            OptConfirmStopOnClose false; OptController false]).
  - vm_compute. reflexivity.
  - vm_compute. reflexivity.
  - vm_compute. reflexivity.
Defined.

(** ** More on the control methods *)

(** X10: a control method never returns before its completion callback.
    Right after [Start], [Pause], [Resume] or [Stop] has registered its
    handler and made the foreign call, its [<-errCh] cannot proceed: the
    method is blocked, whatever the state of the world it was called in. *)
Theorem await_blocks_before_completion (op : ControlOp) (v : loc) (w w' : World)
    (h : Handle) (ch : loc) :
  control_call op v w = Ok (Awaiting h ch, w') →
  await h ch w' = Blocked.
Proof.
  intros Hcall. apply control_call_awaiting in Hcall as [-> _ _ _ _ Hch _].
  unfold await. rewrite Hch, lookup_insert_eq. reflexivity.
Qed.

Lemma await_blocks_before_completion_witness :
  await 3 8 (br_world br1) = Blocked.
Proof.
  apply (await_blocks_before_completion (OpStart []) 7 w_new). vm_compute. reflexivity.
Defined.

(** ** Several VMs *)

Lemma NewVirtualMachine_shape cfg uuid w v w' :
  NewVirtualMachine cfg uuid w = Ok ((Some v, None), w') →
  v = nextLoc w + 6 ∧ nextLoc w' = nextLoc w + 7 ∧
  vms w' = <[nextLoc w + 6 :=
               {| vm_id := uuid; supported := false; pointer := nextLoc w + 5;
                  dispatchQueue := nextLoc w; vm_machineState := nextLoc w + 2;
                  disconnectedIn := nextLoc w + 3; disconnectedOut := nextLoc w + 4;
                  watchDisconnectedOnce := false; finalizeOnce := false;
                  config := cfg; hasGUIWindow := false;
                  windowClosedHandle := 0 |}]> (vms w) ∧
  machineStates w' = <[nextLoc w + 2 := {| state := 0%Z; stateNotify := nextLoc w + 1 |}]>
                       (machineStates w) ∧
  stateChans w' = <[nextLoc w + 1 := NewChannel]> (stateChans w) ∧
  inChans w' = <[nextLoc w + 3 := NewChannel]> (inChans w) ∧
  outChans w' = <[nextLoc w + 4 := NewChannel]> (outChans w).
Proof.
  unfold NewVirtualMachine.
  destruct (macOSAvailable 11 w); [discriminate|]. simpl.
  match goal with |- context [NewHandle ?val ?w0] =>
    destruct (NewHandle val w0) as [[sh w1]| |] eqn:Hsh; [|discriminate..]
  end. simpl.
  apply NewHandle_inv in Hsh as (_ & _ & ->). simpl.
  match goal with |- context [NewHandle ?val ?w0] =>
    destruct (NewHandle val w0) as [[dh w2]| |] eqn:Hdh; [|discriminate..]
  end. simpl.
  apply NewHandle_inv in Hdh as (_ & _ & ->). simpl.
  intros [= <- <-]. simpl.
  replace (nextLoc w + 1 + 1) with (nextLoc w + 2) by lia.
  replace (nextLoc w + 2 + 1) with (nextLoc w + 3) by lia.
  replace (nextLoc w + 3 + 1) with (nextLoc w + 4) by lia.
  replace (nextLoc w + 4 + 1) with (nextLoc w + 5) by lia.
  replace (nextLoc w + 5 + 1) with (nextLoc w + 6) by lia.
  replace (nextLoc w + 6 + 1) with (nextLoc w + 7) by lia.
  done.
Qed.

(** X11: the callbacks of one VM do not reach another.  For two VMs created
    one after the other, a state callback and a disconnect callback with the
    handles of the second VM succeed, the second VM reports the new state,
    and the first VM is left as created: its state is still Stopped, its
    notification channel and its disconnect channel are still empty. *)
Theorem vm_callbacks_isolated (w w1 w2 : World)
    (cfg1 cfg2' : VirtualMachineConfiguration) (uuid1 uuid2 : string) (v1 v2 : loc)
    (vm2 : VirtualMachine) (sh2 dh2 : Handle) (s idx : Z) (errPtr : option N) :
  NewVirtualMachine cfg1 uuid1 w = Ok ((Some v1, None), w1) →
  NewVirtualMachine cfg2' uuid2 w1 = Ok ((Some v2, None), w2) →
  vms w2 !! v2 = Some vm2 →
  handles w2 !! sh2 = Some (VMachineState (vm_machineState vm2)) →
  handles w2 !! dh2 = Some (VDisconnectedIn (disconnectedIn vm2)) →
  ∃ w3 w4 vm1 ch1,
    changeStateOnObserver s sh2 w2 = Ok w3 ∧
    emitAttachmentWasDisconnected idx errPtr dh2 w3 = Ok w4 ∧
    v1 ≠ v2 ∧
    State v2 w4 = Ok s ∧
    State v1 w4 = Ok VirtualMachineStateStopped ∧
    StateChangedNotify v1 w4 = Ok ch1 ∧
    stateChans w4 !! ch1 = Some NewChannel ∧
    vms w4 !! v1 = Some vm1 ∧
    inChans w4 !! disconnectedIn vm1 = Some NewChannel.
Proof.
  intros Hnew1 Hnew2 Hvm2 Hsh2 Hdh2.
  apply NewVirtualMachine_shape in Hnew1 as (-> & Hn1 & Hvms1 & Hms1 & Hsc1 & Hin1 & _).
  apply NewVirtualMachine_shape in Hnew2 as (-> & _ & Hvms2 & Hms2 & Hsc2 & Hin2 & _).
  rewrite Hn1 in *. set (n := nextLoc w) in *.
  rewrite Hvms2, lookup_insert_eq in Hvm2. injection Hvm2 as <-. simpl in *.
  unfold changeStateOnObserver, Handle_Value. rewrite Hsh2. simpl.
  rewrite Hms2, lookup_insert_eq. simpl.
  rewrite Hsc2, lookup_insert_eq. simpl.
  eexists. eexists.
  exists {| vm_id := uuid1; supported := false; pointer := n + 5;
            dispatchQueue := n; vm_machineState := n + 2;
            disconnectedIn := n + 3; disconnectedOut := n + 4;
            watchDisconnectedOnce := false; finalizeOnce := false;
            config := cfg1; hasGUIWindow := false; windowClosedHandle := 0 |}.
  exists (n + 1). split; [reflexivity|].
  unfold emitAttachmentWasDisconnected, Handle_Value. simpl. rewrite Hdh2. simpl.
  rewrite Hin2, lookup_insert_eq. simpl. split; [reflexivity|].
  split; [lia|].
  unfold State, StateChangedNotify. simpl.
  rewrite Hvms2, lookup_insert_eq. simpl. rewrite lookup_insert_eq. simpl.
  split; [reflexivity|].
  rewrite !lookup_insert_ne by lia.
  rewrite Hvms1, Hms1, Hsc1, Hin1.
  repeat (rewrite lookup_insert_ne by lia).
  rewrite !lookup_insert_eq. simpl.
  repeat (rewrite lookup_insert_ne by lia).
  rewrite !lookup_insert_eq. done.
Qed.

(** Two VMs: a second [NewVirtualMachine] after the first. *)
Lemma vm_callbacks_isolated_witness :
  ∃ w3 w4 vm1 ch1,
    changeStateOnObserver VirtualMachineStateRunning 3 w_two = Ok w3 ∧
    emitAttachmentWasDisconnected 0 (Some 9) 4 w3 = Ok w4 ∧
    (7 : N) ≠ 14 ∧
    State 14 w4 = Ok VirtualMachineStateRunning ∧
    State 7 w4 = Ok VirtualMachineStateStopped ∧
    StateChangedNotify 7 w4 = Ok ch1 ∧
    stateChans w4 !! ch1 = Some NewChannel ∧
    vms w4 !! 7 = Some vm1 ∧
    inChans w4 !! disconnectedIn vm1 = Some NewChannel.
Proof.
  apply (vm_callbacks_isolated (boot 12) w_new w_two cfg2 cfg2 "vm" "vm2" 7 14
           {| vm_id := "vm2"; supported := false; pointer := 13; dispatchQueue := 8;
              vm_machineState := 10; disconnectedIn := 11; disconnectedOut := 12;
              watchDisconnectedOnce := false; finalizeOnce := false; config := cfg2;
              hasGUIWindow := false; windowClosedHandle := 0 |}).
  - exact w_new_eq.
  - vm_compute. reflexivity.
  - vm_compute. reflexivity.
  - vm_compute. reflexivity.
  - vm_compute. reflexivity.
Defined.

(** ** A foreign side that breaks the disconnect contract *)

(** X12: after the channel-close callback, an event can no longer be
    emitted.  On a newly created VM the close callback succeeds; any event
    emitted after it panics with a send on a closed channel.  A second close
    callback returns, leaves stage 1 and the handle table as they are, and
    an event emitted after it panics in the same way. *)
Theorem emit_after_close_panics (w : World) (v : loc) (vm : VirtualMachine)
    (sh dh : Handle) (idx : Z) (errPtr : option N) :
  fresh_vm w v vm sh dh →
  ∃ w1 w2,
    closeAttachmentWasDisconnectedChannel dh w = Ok w1 ∧
    emitAttachmentWasDisconnected idx errPtr dh w1 = Panic "send on closed channel" ∧
    closeAttachmentWasDisconnectedChannel dh w1 = Ok w2 ∧
    inChans w2 = inChans w1 ∧ handles w2 = handles w1 ∧
    emitAttachmentWasDisconnected idx errPtr dh w2 = Panic "send on closed channel".
Proof.
  intros [_ _ _ _ _ _ Hdh _ Hin _].
  unfold closeAttachmentWasDisconnectedChannel at 1. unfold Handle_Value.
  rewrite Hdh. simpl. rewrite Hin. simpl.
  eexists. eexists. split; [reflexivity|].
  unfold emitAttachmentWasDisconnected, closeAttachmentWasDisconnectedChannel,
    Handle_Value. simpl. rewrite Hdh. simpl. rewrite lookup_insert_eq. simpl.
  split; [reflexivity|]. split; [reflexivity|]. simpl.
  split; [apply insert_insert_eq|]. split; [reflexivity|].
  rewrite Hdh. simpl. by rewrite lookup_insert_eq.
Qed.

Lemma emit_after_close_panics_witness :
  ∃ w1 w2,
    closeAttachmentWasDisconnectedChannel 2 w_new = Ok w1 ∧
    emitAttachmentWasDisconnected 1 (Some 40) 2 w1 = Panic "send on closed channel" ∧
    closeAttachmentWasDisconnectedChannel 2 w1 = Ok w2 ∧
    inChans w2 = inChans w1 ∧ handles w2 = handles w1 ∧
    emitAttachmentWasDisconnected 1 (Some 40) 2 w2 = Panic "send on closed channel".
Proof.
  exact (emit_after_close_panics w_new 7 vm_new 1 2 1 (Some 40) w_new_fresh).
Defined.

(** * Properties of the example application *)

(** ** The registry *)

Lemma find_entry_Some name l e :
  find_entry name l = Some e → e ∈ l ∧ Name e = name.
Proof.
  induction l as [|e0 l IH]; simpl; [discriminate|].
  case_decide as Hn.
  - intros [= <-]. split; [apply list_elem_of_here | exact Hn].
  - intros Hf. destruct (IH Hf) as [Hin Hname]. split; [by apply list_elem_of_further | done].
Qed.

Lemma find_entry_None name l :
  find_entry name l = None ↔ name ∉ Name <$> l.
Proof.
  induction l as [|e0 l IH]; simpl.
  - split; [intros _; apply not_elem_of_nil | done].
  - rewrite not_elem_of_cons. case_decide as Hn.
    + split; [discriminate | intros [Hne _]; by destruct Hne].
    + rewrite IH. split; [intros ?; split; [done | done] | by intros [_ ?]].
Qed.

Lemma find_entry_app name l k :
  find_entry name (l ++ k)
  = match find_entry name l with
    | Some e => Some e
    | None => find_entry name k
    end.
Proof.
  induction l as [|e0 l IH]; simpl; [done|]. by case_decide.
Qed.

Lemma Registry_Add_cases (name isoPath : string) (now : Z) (werr : option N)
    (r : Registry) :
  let entry := {| Name := name; BundleName := name +:+ ".bundle";
                  ISOPath := isoPath; CreatedAt := now |} in
  Registry_Add name isoPath now werr r
  = if Registry_Exists name r then ((None, Some (ErrAlreadyExists name)), r)
    else match werr with
         | Some e => ((None, Some (ErrWriteRegistry e)), r)
         | None => ((Some entry, None), {| VMs := VMs r ++ [entry]; path := path r |})
         end.
Proof.
  unfold Registry_Add. destruct (Registry_Exists name r); [done|].
  destruct werr as [e|]; simpl; [|done].
  rewrite length_app, Nat.add_sub. simpl. rewrite take_app_length. by destruct r.
Qed.

(** X13: [Add] is all or nothing.  When it reports an error (the name is
    taken, or the registry file cannot be written) the registry in memory is
    exactly as before: the appended entry is rolled back.  When it succeeds
    the name was free, the new entry is the last one, it is the one [Find]
    returns for the name, its bundle is named after it, and what [Find]
    returns for every other name is unchanged. *)
Theorem Registry_Add_all_or_nothing (name isoPath : string) (now : Z)
    (werr : option N) (r r' : Registry) (oe : option VMEntry)
    (oerr : option RegistryError) :
  Registry_Add name isoPath now werr r = ((oe, oerr), r') →
  match oerr with
  | Some err =>
    r' = r ∧ oe = None ∧
    (err = ErrAlreadyExists name ∧ Registry_Exists name r = true ∨
     ∃ e, err = ErrWriteRegistry e ∧ werr = Some e ∧ Registry_Exists name r = false)
  | None =>
    let entry := {| Name := name; BundleName := name +:+ ".bundle";
                    ISOPath := isoPath; CreatedAt := now |} in
    oe = Some entry ∧ Registry_Exists name r = false ∧
    VMs r' = VMs r ++ [entry] ∧ path r' = path r ∧
    Registry_Find name r' = Some entry ∧
    ∀ n, n ≠ name → Registry_Find n r' = Registry_Find n r
  end.
Proof.
  rewrite Registry_Add_cases. destruct (Registry_Exists name r) eqn:Hex.
  - intros [= <- <- <-]. auto.
  - destruct werr as [e|]; simpl.
    + intros [= <- <- <-]. split; [done|]. split; [done | right; eauto].
    + intros [= <- <- <-]. simpl. split; [done|]. split; [done|].
      split; [done|]. split; [done|].
      unfold Registry_Exists, Registry_Find in *. simpl.
      destruct (find_entry name (VMs r)) eqn:Hf; [discriminate|].
      split.
      * rewrite find_entry_app, Hf. simpl. by rewrite decide_True.
      * intros n Hn. rewrite find_entry_app. destruct (find_entry n (VMs r)); [done|].
        simpl. by rewrite decide_False.
Qed.

Lemma Registry_Add_all_or_nothing_witness :
  ∃ r', Registry_Add "test" "t.iso" 30 (Some 28) reg2
          = ((None, Some (ErrWriteRegistry 28)), r') ∧
        r' = reg2.
Proof.
  eexists. split; [reflexivity|].
  exact (proj1 (Registry_Add_all_or_nothing "test" "t.iso" 30 (Some 28) reg2 _ None
                  (Some (ErrWriteRegistry 28)) eq_refl)).
Defined.

Lemma string_length_app (a b : string) :
  String.length (a +:+ b) = (String.length a + String.length b)%nat.
Proof. induction a as [|c a IH]; simpl; [done | by rewrite IH]. Qed.

Lemma string_app_inj_r (s a b : string) : a +:+ s = b +:+ s → a = b.
Proof.
  revert b. induction a as [|c a IH]; intros [|d b] Heq.
  - done.
  - apply (f_equal String.length) in Heq.
    rewrite !string_length_app in Heq. simpl in Heq. lia.
  - apply (f_equal String.length) in Heq.
    rewrite !string_length_app in Heq. simpl in Heq. lia.
  - change (String c (a +:+ s) = String d (b +:+ s)) in Heq.
    injection Heq as -> Heq. f_equal. by apply IH.
Qed.

Lemma registry_inv_remove idx l :
  NoDup (Name <$> l) → NoDup (Name <$> (take idx l ++ drop (S idx) l)).
Proof.
  revert idx. induction l as [|e l IH]; intros idx Hnd.
  - by rewrite take_nil, drop_nil.
  - apply NoDup_cons in Hnd as [Hnot Hnd]. destruct idx as [|idx]; simpl.
    + by rewrite drop_0.
    + apply NoDup_cons. split; [|by apply IH].
      intros Hin. apply Hnot. apply list_elem_of_fmap in Hin as (x & -> & Hx).
      apply list_elem_of_fmap_2. apply elem_of_app in Hx as [Hx|Hx].
      * by eapply subseteq_take.
      * by eapply subseteq_drop.
Qed.

Lemma set_ISOPath_names name isoPath l :
  Name <$> set_ISOPath name isoPath l = Name <$> l.
Proof.
  induction l as [|e l IH]; simpl; [done|].
  case_decide; simpl; [done | f_equal; apply IH].
Qed.

Lemma set_ISOPath_elem name isoPath l e :
  e ∈ set_ISOPath name isoPath l →
  ∃ e0, e0 ∈ l ∧ Name e = Name e0 ∧ BundleName e = BundleName e0.
Proof.
  induction l as [|e0 l IH]; simpl; [by intros ?%elem_of_nil|].
  case_decide.
  - intros [->|Hin]%elem_of_cons.
    + exists e0. split; [apply list_elem_of_here | done].
    + exists e. split; [by apply list_elem_of_further | done].
  - intros [->|Hin]%elem_of_cons.
    + exists e0. split; [apply list_elem_of_here | done].
    + destruct (IH Hin) as (x & Hx & ?). exists x.
      split; [by apply list_elem_of_further | done].
Qed.

Lemma Registry_Add_inv name isoPath now werr r :
  registry_inv r → registry_inv (snd (Registry_Add name isoPath now werr r)).
Proof.
  intros Hinv. rewrite Registry_Add_cases.
  destruct (Registry_Exists name r) eqn:Hex; [done|].
  destruct werr as [e|]; [done|]. simpl.
  unfold Registry_Exists, Registry_Find in Hex.
  destruct (find_entry name (VMs r)) eqn:Hf; [discriminate|].
  apply find_entry_None in Hf. destruct Hinv as [Hnd Hb]. split; simpl.
  - rewrite fmap_app. apply NoDup_app. split; [done|]. split; [|apply NoDup_singleton].
    intros x Hx [->|[]%elem_of_nil]%elem_of_cons. done.
  - intros e [He|[->|[]%elem_of_nil]%elem_of_cons]%elem_of_app; [by apply Hb | done].
Qed.

Lemma registry_op_inv op r : registry_inv r → registry_inv (registry_op op r).
Proof.
  intros Hinv. destruct op as [name iso now werr|name del rmerr werr|now werr|name iso werr];
    simpl.
  - by apply Registry_Add_inv.
  - unfold Registry_Remove. destruct (find_index name (VMs r)) as [idx|]; [|done].
    destruct (if del then rmerr else None); [done|]. simpl.
    destruct Hinv as [Hnd Hb]. split; simpl.
    + by apply registry_inv_remove.
    + intros e [He|He]%elem_of_app; apply Hb.
      * by eapply subseteq_take.
      * by eapply subseteq_drop.
  - unfold Registry_GetOrCreateDefault.
    destruct (Registry_Find DefaultVMName r); [done|]. by apply Registry_Add_inv.
  - unfold Registry_UpdateISO. destruct (Registry_Find name r); [|done]. simpl.
    destruct Hinv as [Hnd Hb]. split; simpl.
    + by rewrite set_ISOPath_names.
    + intros e He. apply set_ISOPath_elem in He as (e0 & He0 & -> & ->). by apply Hb.
Qed.

(** X14: the shape of a registry is kept by every method.  From a registry
    with pairwise different names whose bundles are named after their VMs
    (the empty registry of a first run is one), after any sequence of [Add],
    [Remove], [GetOrCreateDefault] and [UpdateISO], whatever the file system
    answers, the names are still pairwise different, every bundle name is
    still the VM's name followed by ".bundle", and so the bundle names are
    pairwise different strings.  This is about the names as stored: the
    directory of a bundle is [filepath.Join] of the base directory and the
    bundle name, which cleans the path, and names are not sanitised, so
    different bundle names need not mean different directories. *)
Theorem registry_names_stay_unique (ops : list RegistryOp) (r : Registry) :
  registry_inv r →
  let r' := foldl (λ r op, registry_op op r) r ops in
  NoDup (Name <$> VMs r') ∧
  (∀ e, e ∈ VMs r' → BundleName e = Name e +:+ ".bundle") ∧
  NoDup (BundleName <$> VMs r').
Proof.
  intros Hinv. simpl.
  assert (registry_inv (foldl (λ r op, registry_op op r) r ops)) as [Hnd Hb].
  { revert r Hinv. induction ops as [|op ops IH]; intros r Hinv; simpl; [done|].
    apply IH. by apply registry_op_inv. }
  split; [done|]. split; [done|].
  revert Hnd Hb. generalize (VMs (foldl (λ r op, registry_op op r) r ops)).
  induction l as [|e l IH]; simpl; intros Hnd Hb; [apply NoDup_nil_2|].
  apply NoDup_cons in Hnd as [Hnot Hnd]. apply NoDup_cons. split.
  - intros Hin. apply Hnot. apply list_elem_of_fmap in Hin as (x & Heq & Hx).
    rewrite (Hb e), (Hb x) in Heq; [|by apply list_elem_of_further|apply list_elem_of_here].
    apply string_app_inj_r in Heq. rewrite Heq. by apply list_elem_of_fmap_2.
  - apply IH; [done|]. intros x Hx. apply Hb. by apply list_elem_of_further.
Qed.

Lemma registry_names_stay_unique_witness :
  let r' := foldl (λ r op, registry_op op r) (empty_registry "registry.json")
              [RGetOrCreateDefault 1 None; RAdd "dev" "dev.iso" 2 (Some 28);
               RAdd "dev" "dev.iso" 3 None; RAdd "default" "" 4 None;
               RUpdateISO "dev" "other.iso" (Some 5); RRemove "default" true None None] in
  NoDup (Name <$> VMs r') ∧
  (∀ e, e ∈ VMs r' → BundleName e = Name e +:+ ".bundle") ∧
  NoDup (BundleName <$> VMs r').
Proof.
  apply (registry_names_stay_unique
           [RGetOrCreateDefault 1 None; RAdd "dev" "dev.iso" 2 (Some 28);
            RAdd "dev" "dev.iso" 3 None; RAdd "default" "" 4 None;
            RUpdateISO "dev" "other.iso" (Some 5); RRemove "default" true None None]
           (empty_registry "registry.json")).
  split; simpl.
  - apply NoDup_nil_2.
  - intros e He. by apply elem_of_nil in He.
Defined.

Lemma remove_first_entry name l e :
  NoDup (Name <$> l) → find_entry name l = Some e →
  ∃ idx, find_index name l = Some idx ∧
         find_entry name (take idx l ++ drop (S idx) l) = None ∧
         (∀ n, n ≠ name →
               find_entry n (take idx l ++ drop (S idx) l) = find_entry n l) ∧
         S (length (take idx l ++ drop (S idx) l)) = length l.
Proof.
  induction l as [|e0 l IH]; simpl; [discriminate|].
  intros [Hnot Hnd]%NoDup_cons. case_decide as Hn.
  - intros _. exists O. simpl. rewrite drop_0. split; [done|].
    split; [apply find_entry_None; by rewrite <- Hn|]. split; [|done].
    intros n Hne. rewrite decide_False; [done|]. by rewrite Hn.
  - intros Hf. destruct (IH Hnd Hf) as (idx & Hidx & Hgone & Hrest & Hlen).
    exists (S idx). rewrite Hidx. simpl. rewrite decide_False by done.
    split; [done|]. split; [done|]. split; [|by rewrite Hlen].
    intros n Hne. case_decide; [done|]. by apply Hrest.
Qed.

(** X15: [Remove] does not roll back.  For a name that is registered, in a
    registry with pairwise different names: when the bundle is not to be
    deleted or its deletion works, the entry is gone from the registry in
    memory and every other name resolves as before, also when writing the
    registry file fails and [Remove] returns that error.  When the deletion
    of the bundle fails, the registry is left as it was. *)
Theorem Registry_Remove_no_rollback (name : string) (deleteBundle : bool)
    (rmerr werr : option N) (r : Registry) (entry : VMEntry) :
  NoDup (Name <$> VMs r) →
  Registry_Find name r = Some entry →
  match (if deleteBundle then rmerr else None) with
  | Some e => Registry_Remove name deleteBundle rmerr werr r = (Some (ErrDeleteBundle e), r)
  | None =>
    ∃ r', Registry_Remove name deleteBundle rmerr werr r = (Registry_Save werr r', r') ∧
          Registry_Find name r' = None ∧
          (∀ n, n ≠ name → Registry_Find n r' = Registry_Find n r) ∧
          S (length (VMs r')) = length (VMs r)
  end.
Proof.
  intros Hnd Hf. unfold Registry_Find in Hf.
  destruct (remove_first_entry _ _ _ Hnd Hf) as (idx & Hidx & Hgone & Hrest & Hlen).
  unfold Registry_Remove. rewrite Hidx.
  destruct (if deleteBundle then rmerr else None); [done|].
  eexists. split; [reflexivity|]. by unfold Registry_Find.
Qed.

Lemma Registry_Remove_no_rollback_witness :
  ∃ r', Registry_Remove "default" true None (Some 28) reg2
          = (Registry_Save (Some 28) r', r') ∧
        Registry_Find "default" r' = None ∧
        (∀ n, n ≠ "default" → Registry_Find n r' = Registry_Find n reg2) ∧
        S (length (VMs r')) = length (VMs reg2).
Proof.
  apply (Registry_Remove_no_rollback "default" true None (Some 28) reg2
           {| Name := "default"; BundleName := "default.bundle"; ISOPath := "";
              CreatedAt := 10 |}).
  - simpl. apply NoDup_cons. split; [|apply NoDup_singleton].
    intros [Heq|[]%elem_of_nil]%elem_of_cons. discriminate.
  - reflexivity.
Defined.

(** X16: [GetOrCreateDefault] creates the default VM at most once.  After a
    call that succeeded, every later call returns the same entry and leaves
    the registry untouched, whatever the clock and the file system say. *)
Theorem GetOrCreateDefault_stable (now now' : Z) (werr werr' : option N)
    (r r1 : Registry) (entry : VMEntry) :
  Registry_GetOrCreateDefault now werr r = ((Some entry, None), r1) →
  Registry_GetOrCreateDefault now' werr' r1 = ((Some entry, None), r1) ∧
  Name entry = DefaultVMName.
Proof.
  unfold Registry_GetOrCreateDefault at 1.
  destruct (Registry_Find DefaultVMName r) as [e|] eqn:Hf.
  - intros [= <- <-]. unfold Registry_GetOrCreateDefault. rewrite Hf.
    split; [done|]. by apply find_entry_Some in Hf as [_ ?].
  - rewrite Registry_Add_cases. unfold Registry_Exists. rewrite Hf.
    destruct werr; [discriminate|]. intros [= <- <-].
    unfold Registry_GetOrCreateDefault, Registry_Find in *. simpl.
    by rewrite find_entry_app, Hf.
Qed.

Lemma GetOrCreateDefault_stable_witness :
  ∃ r1 entry,
    Registry_GetOrCreateDefault 1 None (empty_registry "registry.json")
      = ((Some entry, None), r1) ∧
    Registry_GetOrCreateDefault 2 (Some 28) r1 = ((Some entry, None), r1) ∧
    Name entry = DefaultVMName.
Proof.
  eexists _, _. split; [reflexivity|].
  apply (GetOrCreateDefault_stable 1 2 None (Some 28) (empty_registry "registry.json")).
  reflexivity.
Defined.

Lemma set_ISOPath_find name isoPath l e :
  find_entry name l = Some e →
  find_entry name (set_ISOPath name isoPath l)
    = Some {| Name := name; BundleName := BundleName e; ISOPath := isoPath;
              CreatedAt := CreatedAt e |} ∧
  ∀ n, n ≠ name → find_entry n (set_ISOPath name isoPath l) = find_entry n l.
Proof.
  induction l as [|e0 l IH]; simpl; [discriminate|].
  case_decide as Hn.
  - intros [= <-]. simpl. rewrite decide_True by done. rewrite Hn. split; [done|].
    intros n Hne. by rewrite !decide_False by congruence.
  - intros Hf. destruct (IH Hf) as [Hfound Hrest]. simpl.
    rewrite decide_False by done. split; [done|].
    intros n Hne. case_decide; [done|]. by apply Hrest.
Qed.

(** X17: [UpdateISO] changes one field of one entry, and keeps the change
    when the write fails.  For a registered name, the registry in memory
    afterwards resolves the name to the same entry with the new ISO path,
    resolves every other name as before, and lists the same names in the
    same order; the result is only what writing the registry file
    reported. *)
Theorem Registry_UpdateISO_in_place (name isoPath : string) (werr : option N)
    (r : Registry) (entry : VMEntry) :
  Registry_Find name r = Some entry →
  ∃ r', Registry_UpdateISO name isoPath werr r = (Registry_Save werr r', r') ∧
        Registry_Find name r'
          = Some {| Name := name; BundleName := BundleName entry; ISOPath := isoPath;
                    CreatedAt := CreatedAt entry |} ∧
        (∀ n, n ≠ name → Registry_Find n r' = Registry_Find n r) ∧
        Name <$> VMs r' = Name <$> VMs r.
Proof.
  intros Hf. unfold Registry_UpdateISO. rewrite Hf.
  eexists. split; [reflexivity|]. unfold Registry_Find in *. simpl.
  destruct (set_ISOPath_find name isoPath _ _ Hf) as [Hfound Hrest].
  split; [done|]. split; [done|]. apply set_ISOPath_names.
Qed.

Lemma Registry_UpdateISO_in_place_witness :
  ∃ r', Registry_UpdateISO "dev" "new.iso" (Some 5) reg2
          = (Some (ErrWriteRegistry 5), r') ∧
        Registry_Find "dev" r'
          = Some {| Name := "dev"; BundleName := "dev.bundle"; ISOPath := "new.iso";
                    CreatedAt := 20 |} ∧
        (∀ n, n ≠ "dev" → Registry_Find n r' = Registry_Find n reg2) ∧
        Name <$> VMs r' = Name <$> VMs reg2.
Proof.
  apply (Registry_UpdateISO_in_place "dev" "new.iso" (Some 5) reg2
           {| Name := "dev"; BundleName := "dev.bundle"; ISOPath := "dev.iso";
              CreatedAt := 20 |}).
  reflexivity.
Defined.

(** ** The running VMs *)

Lemma monitor_exit_subseteq title l t : t ∈ monitor_exit title l → t ∈ l.
Proof.
  induction l as [|x l IH]; simpl; [done|]. case_decide.
  - apply list_elem_of_further.
  - intros [->|Hin]%elem_of_cons; [apply list_elem_of_here|].
    apply list_elem_of_further. by apply IH.
Qed.

Lemma monitor_exit_other title l t : t ≠ title → t ∈ l → t ∈ monitor_exit title l.
Proof.
  intros Hne. induction l as [|x l IH]; simpl; [done|].
  intros [->|Hin]%elem_of_cons.
  - rewrite decide_False by done. apply list_elem_of_here.
  - case_decide; [done|]. apply list_elem_of_further. by apply IH.
Qed.

Lemma monitors_receive_marks evs a n :
  isRunning n (runningVMs (monitors_receive evs a)) = true →
  isRunning n (runningVMs a) = true.
Proof.
  unfold monitors_receive. revert a. induction evs as [|ev evs IH]; intros a; simpl; [done|].
  intros Hn. apply IH in Hn. revert Hn. unfold monitor_receive, isRunning, markStopped.
  repeat case_decide; simpl; try done.
  destruct (decide (n = ev.1)) as [->|Hne].
  - by rewrite lookup_delete_eq.
  - by rewrite lookup_delete_ne.
Qed.

Lemma monitors_receive_monitors evs a t :
  t ∈ monitors (monitors_receive evs a) → t ∈ monitors a.
Proof.
  unfold monitors_receive. revert a. induction evs as [|ev evs IH]; intros a; simpl; [done|].
  intros Ht. apply IH in Ht. revert Ht. unfold monitor_receive.
  repeat case_decide; simpl; try done. apply monitor_exit_subseteq.
Qed.

Lemma monitors_receive_quiet evs a title :
  (title, VirtualMachineStateStopped) ∉ evs →
  runningVMs (monitors_receive evs a) !! title = runningVMs a !! title ∧
  (title ∈ monitors a → title ∈ monitors (monitors_receive evs a)).
Proof.
  unfold monitors_receive. revert a. induction evs as [|[t s] evs IH]; intros a; simpl; [done|].
  intros [Hne Hrest]%not_elem_of_cons. destruct (IH (monitor_receive (t, s) a) Hrest) as [Hm Hk].
  rewrite Hm. unfold monitor_receive in *. simpl in *.
  case_decide as Hin; [|done]. case_decide as Hs; [|done]. simpl in *.
  assert (title ≠ t) as Ht by (intros ->; apply Hne; by rewrite Hs).
  unfold markStopped. rewrite lookup_delete_ne by done. split; [done|].
  intros Hmon. apply Hk. by apply monitor_exit_other.
Qed.

Lemma monitors_receive_stopped evs a title :
  title ∈ monitors a →
  (title, VirtualMachineStateStopped) ∈ evs →
  isRunning title (runningVMs (monitors_receive evs a)) = false.
Proof.
  revert a. induction evs as [|[t s] evs IH]; intros a Hmon Hin.
  - by apply elem_of_nil in Hin.
  - change (monitors_receive ((t, s) :: evs) a)
      with (monitors_receive evs (monitor_receive (t, s) a)).
    destruct (decide ((t, s) = (title, VirtualMachineStateStopped))) as [[= -> ->]|Hne].
    + apply not_true_is_false. intros Hrun. apply monitors_receive_marks in Hrun.
      revert Hrun. unfold monitor_receive, isRunning, markStopped. simpl.
      rewrite decide_True by done. simpl. by rewrite lookup_delete_eq.
    + apply elem_of_cons in Hin as [Heq|Hin]; [by destruct Hne|].
      apply IH; [|done]. unfold monitor_receive. simpl.
      case_decide as Ht; [|done]. case_decide as Hs; [|done]. simpl.
      apply monitor_exit_other; [|done]. intros ->. apply Hne. by rewrite Hs.
Qed.

(** X18: [createAndShowVM], its monitor goroutine, and the marks.  A mark is
    set only by the call's own [markRunning]: a VM marked running afterwards
    was marked before, or is the VM of a call that succeeded.  A call refused
    because the VM is marked changes nothing.  A call that fails before the
    VM is started leaves its VM unmarked and starts no monitor.  A call whose
    window fails leaves its VM unmarked, but the monitor it started stays
    alive as long as it has not received Stopped.  After a call that
    succeeded the VM is marked and its monitor is alive when no monitor of
    that title received Stopped during the call, and the VM is already
    unmarked again when one did after the monitor was started. *)
Theorem createAndShowVM_marking (title : string) (o : StartOutcome)
    (evs1 evs2 : list (string * VirtualMachineState)) (a a' : App)
    (err : option StartError) :
  createAndShowVM title o evs1 evs2 a = (err, a') →
  (∀ n, isRunning n (runningVMs a') = true →
        isRunning n (runningVMs a) = true ∨ (n = title ∧ err = None)) ∧
  match err with
  | None =>
    isRunning title (runningVMs a) = false ∧
    ((title, VirtualMachineStateStopped) ∉ evs1 ++ evs2 →
     isRunning title (runningVMs a') = true ∧ title ∈ monitors a') ∧
    ((title, VirtualMachineStateStopped) ∈ evs2 →
     isRunning title (runningVMs a') = false)
  | Some (ErrAlreadyRunning _) =>
    a' = a ∧ isRunning title (runningVMs a) = true
  | Some (ErrCreateWindow _) =>
    isRunning title (runningVMs a') = false ∧
    ((title, VirtualMachineStateStopped) ∉ evs2 → title ∈ monitors a')
  | Some _ =>
    isRunning title (runningVMs a') = false ∧
    ∀ t, t ∈ monitors a' → t ∈ monitors a
  end.
Proof.
  unfold createAndShowVM, markRunning. fold (isRunning title (runningVMs a)).
  destruct (isRunning title (runningVMs a)) eqn:Hrun; simpl.
  { intros [= <- <-]. auto. }
  set (a1 := monitors_receive evs1
               {| runningVMs := <[title:=true]> (runningVMs a); monitors := monitors a |}).
  assert (∀ n, isRunning n (runningVMs a1) = true →
               n = title ∨ isRunning n (runningVMs a) = true) as Hm1.
  { intros n Hn. apply monitors_receive_marks in Hn. revert Hn.
    unfold isRunning. simpl. destruct (decide (n = title)) as [->|Hne]; [by left|].
    rewrite lookup_insert_ne by done. by right. }
  assert (∀ t, t ∈ monitors a1 → t ∈ monitors a) as Hmon1.
  { intros t Ht. by apply monitors_receive_monitors in Ht. }
  assert (∀ b n, isRunning n (runningVMs (unmark title b)) = true →
                 n ≠ title ∧ isRunning n (runningVMs b) = true) as Hun.
  { intros b n. unfold unmark, isRunning, markStopped. simpl.
    destruct (decide (n = title)) as [->|Hne].
    - by rewrite lookup_delete_eq.
    - by rewrite lookup_delete_ne. }
  assert (∀ b, isRunning title (runningVMs (unmark title b)) = false) as Hgone.
  { intros b. unfold unmark, isRunning, markStopped. simpl. by rewrite lookup_delete_eq. }
  assert (∀ b (e0 : StartError), (∀ n, isRunning n (runningVMs b) = true →
                        n = title ∨ isRunning n (runningVMs a) = true) →
            ∀ n, isRunning n (runningVMs (unmark title b)) = true →
                 isRunning n (runningVMs a) = true ∨ (n = title ∧ Some e0 = None))
    as Hfail.
  { intros b e0 Hb n Hn. apply Hun in Hn as [Hne Hn]. apply Hb in Hn as [?|?]; [done|by left]. }
  unfold createAndShowVM_start.
  destruct (configErr o) as [e|]; [intros [= <- <-]; split; [by apply Hfail | by split]|].
  destruct (newVMErr o) as [e|]; [intros [= <- <-]; split; [by apply Hfail | by split]|].
  destruct (startErr o) as [e|]; [intros [= <- <-]; split; [by apply Hfail | by split]|].
  set (a2 := monitors_receive evs2
               {| runningVMs := runningVMs a1; monitors := monitors a1 ++ [title] |}).
  assert (∀ n, isRunning n (runningVMs a2) = true →
               n = title ∨ isRunning n (runningVMs a) = true) as Hm2.
  { intros n Hn. apply monitors_receive_marks in Hn. by apply Hm1. }
  assert ((title, VirtualMachineStateStopped) ∉ evs2 → title ∈ monitors a2) as Hkeep.
  { intros Hq. apply (monitors_receive_quiet evs2 _ title Hq). simpl.
    apply elem_of_app. right. apply list_elem_of_here. }
  unfold createAndShowVM_window.
  destruct (windowErr o) as [e|]; intros [= <- <-].
  - split; [by apply Hfail|]. by split.
  - split; [|split; [done|split]].
    + intros n Hn. apply Hm2 in Hn as [->|?]; [by right | by left].
    + intros [Hq1 Hq2]%not_elem_of_app. split; [|by apply Hkeep].
      unfold isRunning, a2.
      rewrite (proj1 (monitors_receive_quiet evs2 _ title Hq2)). simpl.
      unfold a1. rewrite (proj1 (monitors_receive_quiet evs1 _ title Hq1)). simpl.
      by rewrite lookup_insert_eq.
    + intros Hin. apply monitors_receive_stopped; [|done]. simpl.
      apply elem_of_app. right. apply list_elem_of_here.
Qed.

Lemma createAndShowVM_marking_witness :
  ∃ a', createAndShowVM "dev"
          {| configErr := None; newVMErr := None; startErr := None; windowErr := None |}
          [] [("dev", VirtualMachineStateStarting); ("dev", VirtualMachineStateStopped)]
          app0 = (None, a') ∧
        isRunning "dev" (runningVMs app0) = false ∧
        isRunning "dev" (runningVMs a') = false.
Proof.
  eexists. split; [reflexivity|].
  destruct (createAndShowVM_marking "dev"
              {| configErr := None; newVMErr := None; startErr := None; windowErr := None |}
              [] [("dev", VirtualMachineStateStarting); ("dev", VirtualMachineStateStopped)]
              app0 _ None eq_refl) as (_ & Hwas & _ & Hstopped).
  split; [exact Hwas|]. apply Hstopped.
  apply list_elem_of_further, list_elem_of_here.
Defined.

(** ** Requests from the menu *)

Lemma try_send_fold {A B : Type} (f : B → A) (reqs : list B) (q : list A) :
  (length q ≤ 10)%nat →
  foldl (λ q x, try_send 10 (f x) q) q reqs = take 10 (q ++ (f <$> reqs)).
Proof.
  revert q. induction reqs as [|x reqs IH]; intros q Hq; simpl.
  - rewrite app_nil_r. by rewrite take_ge.
  - unfold try_send at 2. case_decide as Hroom.
    + rewrite IH by (rewrite length_app; simpl; lia).
      by rewrite <- app_assoc.
    + rewrite IH by done. assert (length q = 10%nat) as Hlen by lia.
      rewrite !take_app_le by lia. done.
Qed.

(** X19: the menu callbacks never block and never reorder.  With up to ten
    requests waiting and nobody receiving, a run of [startVMGoCallback]
    calls (and likewise of [newVMFromURLGoCallback] calls) leaves in the
    channel the first ten of the waiting and the new requests, in order;
    every request beyond the tenth is dropped. *)
Theorem menu_requests_dropped_when_full (reqs : list (string * string))
    (q : list (string * string)) :
  (length q ≤ 10)%nat →
  foldl (λ q x, startVMGoCallback x.1 x.2 q) q reqs = take 10 (q ++ reqs) ∧
  foldl (λ q x, newVMFromURLGoCallback x.1 x.2 q) q reqs = take 10 (q ++ reqs).
Proof.
  intros Hq. unfold startVMGoCallback, newVMFromURLGoCallback.
  pose proof (try_send_fold (λ x : string * string, (x.1, x.2)) reqs q Hq) as Hfold.
  assert ((λ x : string * string, (x.1, x.2)) <$> reqs = reqs) as Hid.
  { clear. induction reqs as [|[a b] reqs IH]; simpl; [done | f_equal; apply IH]. }
  rewrite Hid in Hfold. done.
Qed.

Lemma menu_requests_dropped_when_full_witness :
  foldl (λ q x, startVMGoCallback x.1 x.2 q)
    (replicate 9 ("old", "")) [("a", "a.iso"); ("b", ""); ("c", "")]
  = take 10 (replicate 9 ("old", "") ++ [("a", "a.iso"); ("b", ""); ("c", "")]) ∧
  foldl (λ q x, newVMFromURLGoCallback x.1 x.2 q)
    (replicate 9 ("old", "")) [("a", "a.iso"); ("b", ""); ("c", "")]
  = take 10 (replicate 9 ("old", "") ++ [("a", "a.iso"); ("b", ""); ("c", "")]).
Proof.
  apply (menu_requests_dropped_when_full
           [("a", "a.iso"); ("b", ""); ("c", "")] (replicate 9 ("old", ""))).
  simpl. lia.
Defined.

(** ** The command line *)

(** X20: where the name and the ISO of [start] and [create] come from.
    With a name followed by [-iso path], the command gets that name and that
    path.  With [-iso path] and no name before it, the path is also taken as
    the name of the VM (it is the first argument that is not a flag), not
    the default name. *)
Theorem run_name_and_iso (prog name p envISO envInstaller : string)
    (rest : list string) :
  String.prefix "-" name = false → name ≠ "" →
  String.prefix "-" p = false → p ≠ "" →
  run (prog :: "start" :: name :: "-iso" :: p :: rest) envISO envInstaller
    = call_runStartCommand name p ∧
  run (prog :: "create" :: name :: "-iso" :: p :: rest) envISO envInstaller
    = call_runCreateCommand name p ∧
  run (prog :: "start" :: "-iso" :: p :: rest) envISO envInstaller
    = call_runStartCommand p p ∧
  run (prog :: "create" :: "-iso" :: p :: rest) envISO envInstaller
    = call_runCreateCommand p p.
Proof.
  intros Hname Hnz Hp Hpz.
  assert (name ≠ "-iso") as Hni by (intros ->; discriminate).
  unfold run. simpl. rewrite Hname, Hp. simpl.
  repeat (rewrite decide_False by done). done.
Qed.

Lemma run_name_and_iso_witness :
  run ["gui-linux"; "start"; "myvm"; "-iso"; "boot.iso"] "" "" = call_runStartCommand "myvm" "boot.iso" ∧
  run ["gui-linux"; "create"; "myvm"; "-iso"; "boot.iso"] "" ""
    = call_runCreateCommand "myvm" "boot.iso" ∧
  run ["gui-linux"; "start"; "-iso"; "boot.iso"] "" "" = call_runStartCommand "boot.iso" "boot.iso" ∧
  run ["gui-linux"; "create"; "-iso"; "boot.iso"] "" ""
    = call_runCreateCommand "boot.iso" "boot.iso".
Proof.
  apply (run_name_and_iso "gui-linux" "myvm" "boot.iso" "" "" []); done.
Defined.

(** ** The size of the machine *)

(** X21: the machine is sized within what the framework allows.  When the
    allowed minimum is not above the allowed maximum, [computeCPUCount] and
    [computeMemorySize] return a value between them; the CPU count is one
    less than the number of CPUs of the host (at least 1) brought into that
    range, and the memory size is 4 GiB brought into its range. *)
Theorem machine_size_within_bounds (numCPU : Z) (maxCPU minCPU maxMem minMem : N) :
  (1 ≤ numCPU < 2 ^ 63)%Z → minCPU ≤ maxCPU → minMem ≤ maxMem →
  minCPU ≤ computeCPUCount numCPU maxCPU minCPU ≤ maxCPU ∧
  computeCPUCount numCPU maxCPU minCPU
    = N.max minCPU (N.min maxCPU (N.max 1 (Z.to_N (numCPU - 1)))) ∧
  minMem ≤ computeMemorySize maxMem minMem ≤ maxMem ∧
  computeMemorySize maxMem minMem = N.max minMem (N.min maxMem 4294967296).
Proof.
  intros Hcpu Hc Hm. unfold computeCPUCount, computeMemorySize, uint.
  rewrite Z.mod_small by lia.
  repeat case_decide; lia.
Qed.

Lemma machine_size_within_bounds_witness :
  1 ≤ computeCPUCount 8 4 1 ≤ 4 ∧
  computeCPUCount 8 4 1 = N.max 1 (N.min 4 (N.max 1 (Z.to_N (8 - 1)))) ∧
  1024 ≤ computeMemorySize 2147483648 1024 ≤ 2147483648 ∧
  computeMemorySize 2147483648 1024 = N.max 1024 (N.min 2147483648 4294967296).
Proof.
  apply (machine_size_within_bounds 8 4 1 2147483648 1024); lia.
Defined.

(** ** Deleting a VM *)

(** X22: what [delete] needs before it removes a VM, and what [--force]
    adds.  The registry is changed only when the VM is registered, is not
    marked running and the first word of the typed answer is "yes"; then the
    registry is the one [Remove] with bundle deletion leaves, whatever else
    was typed after that word ("yes please" deletes).  For a running VM the
    command fails and changes nothing with and without [--force]; the flag
    changes the error and nothing else, so the registry that results never
    depends on it. *)
Theorem runDeleteCommand_needs (registry : Registry) (name : string)
    (force force' : bool) (names : gmap string bool) (typed more : list string)
    (rmerr werr : option N) :
  let res := runDeleteCommand registry name force names typed rmerr werr in
  res.2 = (runDeleteCommand registry name force' names typed rmerr werr).2 ∧
  (isRunning name names = true → res.2 = registry ∧ is_Some res.1) ∧
  (res.2 ≠ registry →
   Registry_Exists name registry = true ∧ isRunning name names = false ∧
   Scanln typed = "yes" ∧
   res.2 = (Registry_Remove name true rmerr werr registry).2) ∧
  (Registry_Exists name registry = true → isRunning name names = false →
   (runDeleteCommand registry name force names ("yes" :: more) rmerr werr).2
   = (Registry_Remove name true rmerr werr registry).2).
Proof.
  unfold runDeleteCommand. simpl.
  destruct (Registry_Exists name registry); simpl; [|by auto].
  destruct (isRunning name names); simpl.
  - destruct force, force'; simpl; split; try done; split; try done; by eauto.
  - assert ((let (o, r) := Registry_Remove name true rmerr werr registry in
             match o with
             | Some err => (Some (ErrDeleteFailed err), r)
             | None => (None, r)
             end).2 = (Registry_Remove name true rmerr werr registry).2) as Hrm.
    { by destruct (Registry_Remove name true rmerr werr registry) as [[err|] r']. }
    case_decide as Hc; simpl.
    + split; [done|]. split; [done|]. split; [done|]. intros _ _. exact Hrm.
    + assert (Scanln typed = "yes") as Hyes
        by (by destruct (decide (Scanln typed = "yes"))).
      split; [done|]. split; [done|]. split; [|intros _ _; exact Hrm].
      intros _. split; [done|]. split; [done|]. split; [exact Hyes | exact Hrm].
Qed.

Lemma runDeleteCommand_needs_witness :
  (runDeleteCommand reg2 "dev" false ∅ ["yes"; "please"] None None).2
  = (Registry_Remove "dev" true None None reg2).2.
Proof.
  apply (proj2 (proj2 (proj2 (runDeleteCommand_needs reg2 "dev" false false ∅
                                ["yes"; "please"] ["please"] None None)))).
  - reflexivity.
  - reflexivity.
Defined.
